(** * Document assembly and legal-entity extraction pipeline

    A shallow embedding of the pure text functions of [analyze_docs.py] and
    [analyze_docs_claude.py]: the filename normalizer, the page grouper, the
    OCR cleaner, the classifier, the relevance scorer, the party extractor,
    the chunked translator and the repetition suppressor.

    Python [str] values are modelled as lists of code points.  A code point
    is an [ascii], read as a Latin-1 code point (0..255): this covers the
    Spanish and English corpus the pipeline is written for.  Regular
    expressions are run by a backtracking matcher that follows Python's [re]
    (leftmost match, greedy repetition, alternatives tried in order). *)

From Stdlib Require Import DecimalString String Ascii List Bool Arith NArith ZArith Lia Permutation.
Import ListNotations.
Local Open Scope string_scope.
Local Open Scope list_scope.
Local Open Scope nat_scope.

(* ================================================================= *)
(** ** Python strings *)

Module Py.

Definition str := list ascii.

Definition code (c : ascii) : N := N_of_ascii c.

Definition in_range (lo hi : N) (c : ascii) : bool :=
  (lo <=? code c)%N && (code c <=? hi)%N.

(** [str.isspace] and the regex class [\s] on code points below 256. *)
Definition isspace (c : ascii) : bool :=
  in_range 9 13 c || in_range 28 32 c || (code c =? 133)%N || (code c =? 160)%N.

(** The regex class [\d] (Unicode decimal digits) below 256. *)
Definition isdecimal (c : ascii) : bool := in_range 48 57 c.

(** [str.isalnum] below 256: letters, decimal digits, and the numeric
    characters of Latin-1 (superscripts and vulgar fractions). *)
Definition isalnum (c : ascii) : bool :=
  in_range 48 57 c || in_range 65 90 c || in_range 97 122 c
  || (code c =? 170)%N || in_range 178 179 c || (code c =? 181)%N
  || in_range 185 186 c || in_range 188 190 c
  || in_range 192 214 c || in_range 216 246 c || in_range 248 255 c.

(** The regex class [\w]. *)
Definition isword (c : ascii) : bool := isalnum c || (code c =? 95)%N.

Definition lower_char (c : ascii) : ascii :=
  if in_range 65 90 c || in_range 192 214 c || in_range 216 222 c
  then ascii_of_N (code c + 32) else c.

Definition upper_char (c : ascii) : ascii :=
  if in_range 97 122 c || in_range 224 246 c || in_range 248 254 c
  then ascii_of_N (code c - 32) else c.

(** [s.lower()] *)
Definition lower (s : str) : str := map lower_char s.

Definition str_eqb (a b : str) : bool :=
  if list_eq_dec ascii_dec a b then true else false.

(** [s.startswith(p)] *)
Fixpoint startswith (p s : str) : bool :=
  match p, s with
  | [], _ => true
  | _ :: _, [] => false
  | a :: p', b :: s' => Ascii.eqb a b && startswith p' s'
  end.

(** [s.endswith(p)] *)
Definition endswith (s p : str) : bool := startswith (rev p) (rev s).

(** [sub in s] *)
Fixpoint contains (sub s : str) : bool :=
  startswith sub s ||
  match s with
  | [] => false
  | _ :: s' => contains sub s'
  end.

(** Index normalisation of Python slices: a negative index counts from the
    end, and the result is clipped to [0, len]. *)
Definition norm_index (len i : Z) : Z :=
  if (i <? 0)%Z then Z.max 0 (i + len) else Z.min i len.

(** [s[a:b]] *)
Definition slice (s : str) (a b : Z) : str :=
  let len := Z.of_nat (length s) in
  let a' := norm_index len a in
  let b' := norm_index len b in
  firstn (Z.to_nat (b' - a')) (skipn (Z.to_nat a') s).

(** [s[:b]] *)
Definition slice_to (s : str) (b : Z) : str := slice s 0 b.

(** Start offsets of the occurrences of [sub] in [s], ascending; the first
    offset is [i]. *)
Fixpoint occurrences (sub s : str) (i : nat) : list nat :=
  (if startswith sub s then [i] else []) ++
  match s with
  | [] => []
  | _ :: s' => occurrences sub s' (S i)
  end.

(** [s.rfind(sub, a, b)]: the highest index in the slice [a:b] at which
    [sub] occurs wholly inside the slice, or -1. *)
Definition rfind (s sub : str) (a b : Z) : Z :=
  let len := Z.of_nat (length s) in
  let a' := norm_index len a in
  let b' := norm_index len b in
  match rev (filter (fun i => (a' <=? Z.of_nat i)%Z
                              && (Z.of_nat i + Z.of_nat (length sub) <=? b')%Z)
                    (occurrences sub s 0)) with
  | [] => (-1)%Z
  | i :: _ => Z.of_nat i
  end.

(** [s.rfind(sub)] *)
Definition rfind_all (s sub : str) : Z := rfind s sub 0 (Z.of_nat (length s)).

Fixpoint lstrip (s : str) : str :=
  match s with
  | c :: s' => if isspace c then lstrip s' else s
  | [] => []
  end.

Definition rstrip (s : str) : str := rev (lstrip (rev s)).

(** [s.strip()] *)
Definition strip (s : str) : str := rstrip (lstrip s).

(** [s.split()]: the maximal runs of non-whitespace characters.  [cur] is
    the run being read, reversed. *)
Fixpoint split_from (cur s : str) : list str :=
  match s with
  | [] => match cur with [] => [] | _ => [rev cur] end
  | c :: s' =>
      if isspace c
      then match cur with [] => split_from [] s' | _ => rev cur :: split_from [] s' end
      else split_from (c :: cur) s'
  end.

Definition split (s : str) : list str := split_from [] s.

(** [sep.join(l)] *)
Fixpoint join (sep : str) (l : list str) : str :=
  match l with
  | [] => []
  | [x] => x
  | x :: l' => x ++ sep ++ join sep l'
  end.

Definition newline : ascii := "010"%char.

(** [int(s)] for a string of decimal digits. *)
Definition int (s : str) : Z :=
  fold_left (fun acc c => (10 * acc + Z.of_N (code c - 48))%Z) s 0%Z.

(** Source literals are written in UTF-8; [u] reads such a literal as the
    list of its code points (two-byte sequences decode to one code point
    in the range 128..255). *)
Fixpoint decode_utf8 (s : list ascii) : str :=
  match s with
  | [] => []
  | b1 :: rest =>
      match rest with
      | b2 :: rest' =>
          if in_range 194 195 b1 && in_range 128 191 b2
          then ascii_of_N ((code b1 - 192) * 64 + (code b2 - 128)) :: decode_utf8 rest'
          else b1 :: decode_utf8 rest
      | [] => [b1]
      end
  end.

Definition u (s : string) : str := decode_utf8 (list_ascii_of_string s).

End Py.

Import Py.

(* ================================================================= *)
(** ** Regular expressions, as Python's [re] runs them *)

Module Re.

(** An item of a bracket expression: a character, a range, or one of
    the classes [\d], [\w], [\s]. *)
Inductive cset_item : Type :=
| CChar (c : ascii)
| CRange (lo hi : ascii)
| CDigit
| CWord
| CSpace.

(** The fragment of [re] syntax the pipeline uses: a literal, [.], a
    bracket expression or class, sequence, [|], a greedy repetition
    [{lo,hi}] (with [*], [+] and [?] as instances), a capturing group,
    [$], [\b] and a lookahead [(?=...)]. *)
Inductive regex : Type :=
| Eps
| Lit (c : ascii)
| AnyChar
| CharSet (items : list cset_item)
| Cat (r1 r2 : regex)
| Alt (r1 r2 : regex)
| Rep (r : regex) (lo : nat) (hi : option nat)
| Grp (n : nat) (r : regex)
| Eos
| WordB
| Look (r : regex).

(** *** Matching *)

Definition item_match (it : cset_item) (c : ascii) : bool :=
  match it with
  | CChar p => Ascii.eqb p c
  | CRange lo hi => in_range (code lo) (code hi) c
  | CDigit => isdecimal c
  | CWord => isword c
  | CSpace => isspace c
  end.

Definition set_match (ic : bool) (items : list cset_item) (c : ascii) : bool :=
  existsb (fun it => item_match it c
                     || (ic && (item_match it (lower_char c)
                                || item_match it (upper_char c)))) items.

Definition lit_match (ic : bool) (p c : ascii) : bool :=
  if ic then Ascii.eqb (lower_char p) (lower_char c) else Ascii.eqb p c.

(** A position in the subject: the character before it, the text from it
    on, its offset, and the groups captured so far (latest first), each as
    a pair of offsets. *)
Record mstate : Type := MState {
  prev : option ascii;
  rest : str;
  pos : nat;
  caps : list (nat * (nat * nat))
}.

Definition mres : Type := (nat * list (nat * (nat * nat)))%type.

Definition step_if (p : ascii -> bool) (k : mstate -> option mres) (st : mstate)
  : option mres :=
  match rest st with
  | [] => None
  | c :: r => if p c then k (MState (Some c) r (S (pos st)) (caps st)) else None
  end.

Definition is_newline (c : ascii) : bool := Ascii.eqb c newline.

(** [$] without MULTILINE: the end, or just before a final newline. *)
Definition at_eos (st : mstate) : bool :=
  match rest st with
  | [] => true
  | [c] => is_newline c
  | _ => false
  end.

(** [\b]: exactly one side is a word character. *)
Definition at_wordb (st : mstate) : bool :=
  xorb (match prev st with Some c => isword c | None => false end)
       (match rest st with c :: _ => isword c | [] => false end).

(** Greedy repetition of [body], between [lo] and [hi] times.  An
    iteration has to consume input, so [S (length (rest st))] rounds of
    fuel are never used up. *)
Fixpoint rep (fuel : nat)
  (body : (mstate -> option mres) -> mstate -> option mres)
  (lo : nat) (hi : option nat) (k : mstate -> option mres) (st : mstate)
  : option mres :=
  match fuel with
  | O => None
  | S fuel' =>
      let stop := match lo with O => k st | S _ => None end in
      match hi with
      | Some O => stop
      | _ =>
          match body (fun st' =>
                        if (pos st <? pos st')%nat
                        then rep fuel' body (pred lo) (option_map pred hi) k st'
                        else None) st with
          | Some r => Some r
          | None => stop
          end
      end
  end.

Definition accept (st : mstate) : option mres := Some (pos st, caps st).

(** A lookahead consumes nothing.  The patterns read by [re_parse] have no
    group inside a lookahead, so a lookahead leaves the groups as they
    are. *)
Fixpoint rmatch (ic : bool) (r : regex) (k : mstate -> option mres) (st : mstate)
  : option mres :=
  match r with
  | Eps => k st
  | Lit p => step_if (lit_match ic p) k st
  | AnyChar => step_if (fun c => negb (is_newline c)) k st
  | CharSet items => step_if (set_match ic items) k st
  | Cat r1 r2 => rmatch ic r1 (rmatch ic r2 k) st
  | Alt r1 r2 =>
      match rmatch ic r1 k st with
      | Some x => Some x
      | None => rmatch ic r2 k st
      end
  | Rep r1 lo hi => rep (S (length (rest st))) (rmatch ic r1) lo hi k st
  | Grp n r1 =>
      rmatch ic r1
        (fun st' => k (MState (prev st') (rest st') (pos st')
                              ((n, (pos st, pos st')) :: caps st'))) st
  | Eos => if at_eos st then k st else None
  | WordB => if at_wordb st then k st else None
  | Look r1 =>
      match rmatch ic r1 accept st with
      | Some _ => k st
      | None => None
      end
  end.

(** A match object: start, end, captured groups. *)
Record rmatch_obj : Type := Match {
  m_start : nat;
  m_end : nat;
  m_caps : list (nat * (nat * nat))
}.

Definition match_at (ic : bool) (r : regex) (p : option ascii) (s : str) (i : nat)
  : option rmatch_obj :=
  match rmatch ic r accept (MState p s i []) with
  | Some (e, cs) => Some (Match i e cs)
  | None => None
  end.

(** The leftmost match at or after offset [i], [s] being the text from
    [i] on and [p] the character before it. *)
Fixpoint search_from (ic : bool) (r : regex) (p : option ascii) (s : str) (i : nat)
  : option rmatch_obj :=
  match match_at ic r p s i with
  | Some m => Some m
  | None =>
      match s with
      | [] => None
      | c :: s' => search_from ic r (Some c) s' (S i)
      end
  end.

(** [re.search(r, s)] *)
Definition search (ic : bool) (r : regex) (s : str) : option rmatch_obj :=
  search_from ic r None s 0.

Fixpoint lookup_cap (n : nat) (cs : list (nat * (nat * nat))) : option (nat * nat) :=
  match cs with
  | [] => None
  | (m, se) :: cs' => if (n =? m)%nat then Some se else lookup_cap n cs'
  end.

(** [m.group(n)] on subject [s]; an unset group reads as the empty string. *)
Definition group (s : str) (m : rmatch_obj) (n : nat) : str :=
  match n with
  | O => firstn (m_end m - m_start m) (skipn (m_start m) s)
  | _ =>
      match lookup_cap n (m_caps m) with
      | Some (a, b) => firstn (b - a) (skipn a s)
      | None => []
      end
  end.

(** Replacement templates: literal text and group references. *)
Inductive titem : Type :=
| TLit (s : str)
| TGroup (n : nat).

Definition expand (whole : str) (m : rmatch_obj) (t : list titem) : str :=
  flat_map (fun it => match it with TLit s => s | TGroup n => group whole m n end) t.

(** [re.sub]: left to right over the non-overlapping matches.  [skip]
    counts the characters of the current match still to be dropped. *)
Fixpoint sub_from (ic : bool) (r : regex) (t : list titem) (whole : str)
  (skip : nat) (p : option ascii) (s : str) (i : nat) : str :=
  match skip with
  | S skip' =>
      match s with
      | [] => []
      | c :: s' => sub_from ic r t whole skip' (Some c) s' (S i)
      end
  | O =>
      match match_at ic r p s i with
      | Some m =>
          expand whole m t ++
          match s with
          | [] => []
          | c :: s' =>
              if (m_end m =? i)%nat
              then c :: sub_from ic r t whole 0 (Some c) s' (S i)
              else sub_from ic r t whole (m_end m - i - 1) (Some c) s' (S i)
          end
      | None =>
          match s with
          | [] => []
          | c :: s' => c :: sub_from ic r t whole 0 (Some c) s' (S i)
          end
      end
  end.

(** [re.sub(r, t, s)] *)
Definition sub (ic : bool) (r : regex) (t : list titem) (s : str) : str :=
  sub_from ic r t s 0 None s 0.

(** The non-overlapping matches, left to right. *)
Fixpoint finditer_from (ic : bool) (r : regex) (skip : nat) (p : option ascii)
  (s : str) (i : nat) : list rmatch_obj :=
  match skip with
  | S skip' =>
      match s with
      | [] => []
      | c :: s' => finditer_from ic r skip' (Some c) s' (S i)
      end
  | O =>
      match match_at ic r p s i with
      | Some m =>
          m :: match s with
               | [] => []
               | c :: s' =>
                   finditer_from ic r (m_end m - i - 1) (Some c) s' (S i)
               end
      | None =>
          match s with
          | [] => []
          | c :: s' => finditer_from ic r 0 (Some c) s' (S i)
          end
      end
  end.

(** [re.findall(r, s)] for a pattern with at most one group: the group
    when there is one ([grp = 1]), the whole match otherwise ([grp = 0]). *)
Definition findall (ic : bool) (r : regex) (grp : nat) (s : str) : list str :=
  map (fun m => group s m grp) (finditer_from ic r 0 None s 0).

End Re.

(* ================================================================= *)
(** ** Reading pattern and replacement strings *)

Module ReSyntax.
Import Re.

Definition ch_is (c : ascii) (lit : string) : bool :=
  match lit with
  | String d EmptyString => Ascii.eqb c d
  | _ => false
  end.

Fixpoint read_nat (acc : nat) (s : str) : nat * str :=
  match s with
  | c :: s' =>
      if isdecimal c then read_nat (10 * acc + N.to_nat (code c - 48)) s'
      else (acc, s)
  | [] => (acc, s)
  end.

Definition starts_with_digit (s : str) : bool :=
  match s with c :: _ => isdecimal c | [] => false end.

(** The greedy quantifier after an atom, if any.  Lazy and possessive
    quantifiers are not read. *)
Definition parse_quant (a : regex) (s : str) : option (regex * str) :=
  let plain (r : option (regex * str)) :=
    match r with
    | Some (_, c :: _) => if ch_is c "?" || ch_is c "+" then None else r
    | _ => r
    end in
  match s with
  | c :: s' =>
      if ch_is c "*" then plain (Some (Rep a 0 None, s'))
      else if ch_is c "+" then plain (Some (Rep a 1 None, s'))
      else if ch_is c "?" then plain (Some (Rep a 0 (Some 1), s'))
      else if ch_is c "{" && starts_with_digit s' then
        let (m, s1) := read_nat 0 s' in
        match s1 with
        | d :: s2 =>
            if ch_is d "}" then plain (Some (Rep a m (Some m), s2))
            else if ch_is d "," then
              match s2 with
              | e :: s3 =>
                  if ch_is e "}" then plain (Some (Rep a m None, s3))
                  else
                    let (n, s4) := read_nat 0 s2 in
                    match s4 with
                    | f :: s5 =>
                        if ch_is f "}" && starts_with_digit s2
                        then plain (Some (Rep a m (Some n), s5))
                        else None
                    | [] => None
                    end
              | [] => None
              end
            else None
        | [] => None
        end
      else Some (a, s)
  | [] => Some (a, s)
  end.

Definition class_of_escape (c : ascii) : option cset_item :=
  if ch_is c "d" then Some CDigit
  else if ch_is c "w" then Some CWord
  else if ch_is c "s" then Some CSpace
  else if isalnum c then None
  else Some (CChar c).

(** The inside of a bracket expression, after the opening bracket. *)
Fixpoint parse_set (acc : list cset_item) (s : str) : option (list cset_item * str) :=
  match s with
  | [] => None
  | c :: s1 =>
      if ch_is c "]" then Some (rev acc, s1)
      else if ch_is c "\" then
        match s1 with
        | e :: s2 =>
            match class_of_escape e with
            | Some it => parse_set (it :: acc) s2
            | None => None
            end
        | [] => None
        end
      else
        match s1 with
        | d :: hi :: s3 =>
            if ch_is d "-" && negb (ch_is hi "]") && negb (ch_is hi "\")
            then parse_set (CRange c hi :: acc) s3
            else parse_set (CChar c :: acc) s1
        | _ => parse_set (CChar c :: acc) s1
        end
  end.

Definition cat (a b : regex) : regex :=
  match b with
  | Eps => a
  | _ => Cat a b
  end.

Fixpoint has_group (r : regex) : bool :=
  match r with
  | Grp _ _ => true
  | Cat r1 r2 | Alt r1 r2 => has_group r1 || has_group r2
  | Rep r1 _ _ | Look r1 => has_group r1
  | _ => false
  end.

Definition expect_close (r : option (regex * str * nat)) (wrap : regex -> regex)
  : option (regex * str * nat) :=
  match r with
  | Some (body, c :: s', g) => if ch_is c ")" then Some (wrap body, s', g) else None
  | _ => None
  end.

(** Recursive descent over the pattern; [g] is the number of the next
    capturing group, numbered by opening parenthesis as [re] does. *)
Fixpoint parse_alt (fuel : nat) (s : str) (g : nat) : option (regex * str * nat) :=
  match fuel with
  | O => None
  | S fuel' =>
      match parse_seq fuel' s g with
      | Some (r1, c :: s1, g1) =>
          if ch_is c "|" then
            match parse_alt fuel' s1 g1 with
            | Some (r2, s2, g2) => Some (Alt r1 r2, s2, g2)
            | None => None
            end
          else Some (r1, c :: s1, g1)
      | other => other
      end
  end
with parse_seq (fuel : nat) (s : str) (g : nat) : option (regex * str * nat) :=
  match fuel with
  | O => None
  | S fuel' =>
      match s with
      | [] => Some (Eps, s, g)
      | c :: _ =>
          if ch_is c ")" || ch_is c "|" then Some (Eps, s, g)
          else
            match parse_atom fuel' s g with
            | Some (a, s1, g1) =>
                match parse_quant a s1 with
                | Some (a', s2) =>
                    match parse_seq fuel' s2 g1 with
                    | Some (r, s3, g2) => Some (cat a' r, s3, g2)
                    | None => None
                    end
                | None => None
                end
            | None => None
            end
      end
  end
with parse_atom (fuel : nat) (s : str) (g : nat) : option (regex * str * nat) :=
  match fuel with
  | O => None
  | S fuel' =>
      match s with
      | [] => None
      | c :: s1 =>
          if ch_is c "(" then
            match s1 with
            | q :: m :: s3 =>
                if ch_is q "?" then
                  if ch_is m ":" then expect_close (parse_alt fuel' s3 g) (fun r => r)
                  else if ch_is m "=" then
                    match expect_close (parse_alt fuel' s3 g) Look with
                    | Some (Look body, s4, g') =>
                        if has_group body then None else Some (Look body, s4, g')
                    | _ => None
                    end
                  else None
                else expect_close (parse_alt fuel' s1 (S g)) (Grp g)
            | _ => expect_close (parse_alt fuel' s1 (S g)) (Grp g)
            end
          else if ch_is c "[" then
            match s1 with
            | n :: _ =>
                if ch_is n "^" then None
                else match parse_set [] s1 with
                     | Some (items, s2) => Some (CharSet items, s2, g)
                     | None => None
                     end
            | [] => None
            end
          else if ch_is c "\" then
            match s1 with
            | e :: s2 =>
                if ch_is e "b" then Some (WordB, s2, g)
                else match class_of_escape e with
                     | Some (CChar l) => Some (Lit l, s2, g)
                     | Some it => Some (CharSet [it], s2, g)
                     | None => None
                     end
            | [] => None
            end
          else if ch_is c "$" then Some (Eos, s1, g)
          else if ch_is c "." then Some (AnyChar, s1, g)
          else if ch_is c "*" || ch_is c "+" || ch_is c "?" || ch_is c "^" then None
          else Some (Lit c, s1, g)
      end
  end.

(** A compiled pattern: the expression, its number of capturing groups
    and the IGNORECASE flag. *)
Record pattern : Type := Pattern {
  p_re : regex;
  p_groups : nat;
  p_ic : bool
}.

(** [never] stands for a pattern string outside the fragment read here;
    [all_compiled] below shows that none of the source's is. *)
Definition never : regex := CharSet [].

Definition re_parse (src : str) : option (regex * nat) :=
  match parse_alt (3 * length src + 3) src 1 with
  | Some (r, [], g) => Some (r, pred g)
  | _ => None
  end.

Definition compile_str (ic : bool) (src : str) : pattern :=
  match re_parse src with
  | Some (r, n) => Pattern r n ic
  | None => Pattern never 0 ic
  end.

Definition is_never (p : pattern) : bool :=
  match p_re p with
  | CharSet [] => true
  | _ => false
  end.

Definition compiles (src : str) : bool :=
  match re_parse src with Some _ => true | None => false end.

(** [re.compile(src)] and [re.compile(src, re.IGNORECASE)] *)
Definition compile (src : string) : pattern := compile_str false (u src).
Definition compile_i (src : string) : pattern := compile_str true (u src).

(** Replacement strings: a backslash and a digit refer to a group. *)
Fixpoint template_of (s : str) : list titem :=
  match s with
  | [] => []
  | c :: s1 =>
      match s1 with
      | d :: s2 =>
          if ch_is c "\" && isdecimal d
          then TGroup (N.to_nat (code d - 48)) :: template_of s2
          else TLit [c] :: template_of s1
      | [] => [TLit [c]]
      end
  end.

Definition re_search (p : pattern) (s : str) : option rmatch_obj :=
  search (p_ic p) (p_re p) s.

Definition re_sub (p : pattern) (repl : string) (s : str) : str :=
  sub (p_ic p) (p_re p) (template_of (u repl)) s.

(** [re.findall]: the group of a one-group pattern, else the whole match. *)
Definition re_findall (p : pattern) (s : str) : list str :=
  findall (p_ic p) (p_re p) (match p_groups p with 1 => 1 | _ => 0 end) s.

End ReSyntax.

Import Re ReSyntax.

(* ================================================================= *)
(** ** Paths ([os.path] on POSIX) *)

Module PosixPath.

Definition slash : ascii := "/"%char.

Fixpoint lstrip_char (c : ascii) (s : str) : str :=
  match s with
  | d :: s' => if Ascii.eqb c d then lstrip_char c s' else s
  | [] => []
  end.

Definition rstrip_char (c : ascii) (s : str) : str := rev (lstrip_char c (rev s)).

(** Offset just after the last slash, 0 when there is none. *)
Definition after_last_slash (p : str) : Z := (rfind_all p [slash] + 1)%Z.

(** [os.path.basename] *)
Definition basename (p : str) : str :=
  slice p (after_last_slash p) (Z.of_nat (length p)).

(** [os.path.dirname] *)
Definition dirname (p : str) : str :=
  let head := slice_to p (after_last_slash p) in
  match head with
  | [] => head
  | _ => if str_eqb head (repeat slash (length head)) then head
         else rstrip_char slash head
  end.

(** [os.path.join(a, b)] *)
Definition join (a b : str) : str :=
  if startswith [slash] b then b
  else match a with
       | [] => b
       | _ => if endswith a [slash] then a ++ b else a ++ [slash] ++ b
       end.

End PosixPath.

(* ================================================================= *)
(** ** Page grouping shared by the two pipelines *)

Module Grouping.

(** A [defaultdict(list)] in insertion order. *)
Definition groups : Type := list (str * list str).

(** [grouped[key].append(path)] *)
Fixpoint append_to (g : groups) (key path : str) : groups :=
  match g with
  | [] => [(key, [path])]
  | (k, ps) :: g' =>
      if str_eqb k key then (k, ps ++ [path]) :: g'
      else (k, ps) :: append_to g' key path
  end.

(** [list.sort(key=...)]: a stable sort, ascending by key. *)
Fixpoint insert_by {A : Type} (key : A -> Z) (x : A) (l : list A) : list A :=
  match l with
  | [] => [x]
  | y :: l' => if (key x <=? key y)%Z then x :: l else y :: insert_by key x l'
  end.

Definition sort_by {A : Type} (key : A -> Z) (l : list A) : list A :=
  fold_right (insert_by key) [] l.

(** The grouping half of [find_and_group_files] (also the body of
    [audit_grouping]): key every path by directory and base name, then
    sort every group. *)
Definition group_pages (get_base_document_name : str -> str) (sort_key : str -> Z)
  (all_pdfs : list str) : groups :=
  let grouped :=
    fold_left (fun g path =>
                 let directory := PosixPath.dirname path in
                 let filename := PosixPath.basename path in
                 let base_name := get_base_document_name filename in
                 let key := PosixPath.join directory base_name in
                 append_to g key path) all_pdfs [] in
  map (fun kv => (fst kv, sort_by sort_key (snd kv))) grouped.

(** The discovery half: [walk] lists what [os.walk] yields, a root and
    the file names in it. *)
Definition discover (keywords : list str) (walk : list (str * list str)) : list str :=
  flat_map (fun rf =>
    let '(root, files) := rf in
    if contains (u "critical_files") root || contains (u ".venv") root then []
    else
      flat_map (fun file =>
        if endswith (lower file) (u ".pdf")
           && existsb (fun k => contains (lower k) (lower file)) keywords
        then [PosixPath.join root file] else []) files) walk.

End Grouping.

(* ================================================================= *)
(** ** [analyze_docs.py] *)

Module AnalyzeDocs.

Definition KEYWORDS : list str := map u [
  "Last Will"; "Testament"; "Purchase"; "Sale"; "Buy"; "Sell";
  "Deed"; "Declaration"; "Power"; "Attorney"; "Atty"; "Heir";
  "Partition"; "Partioning"; "Boundaries"; "Boundary"; "Boundries";
  "Transfer"; "Mortgage"; "Holdings"; "Agreement"; "Agmt";
  "Property"; "Prop"; "Finca"; "Hacienda"; "Dominio";
  "Compraventa"; "Compra"; "Venta"; "Escritura"; "Declaración";
  "Hipoteca"; "Cancelacion"; "Testamento"; "Herencia"; "Heredero";
  "Partición"; "Poder"; "Linderos"; "Expediente" ].

Definition get_base_document_name (filename : str) : str :=
  let name := filename in
  let name := if endswith (lower name) (u ".pdf")
              then slice_to name (-4) else name in
  let name := re_sub (compile_i "\.\d+pdf$") "" name in
  let name := re_sub (compile_i "\d+pdf$") "" name in
  strip name.

Definition sort_key (path : str) : Z :=
  let filename := PosixPath.basename path in
  match re_search (compile_i "\.?(\d+)pdf\.pdf$") filename with
  | Some m => int (group filename m 1)
  | None =>
      match re_search (compile_i "\d+pdf\.pdf$") filename with
      | None => 0
      | Some _ => 999
      end
  end.

Definition find_and_group_files (walk : list (str * list str)) : Grouping.groups :=
  Grouping.group_pages get_base_document_name sort_key
    (Grouping.discover KEYWORDS walk).

(** *** OCR cleaning *)

(** Pattern and replacement, in the order of the source table. *)
Definition OCR_CORRECTIONS : list (string * string) := [
  ("\b1os\b", "los"); ("\b1a\b", "la"); ("\b1as\b", "las");
  ("\be1\b", "el"); ("\bde1\b", "del"); ("\bs1\b", "si");
  ("\bH1l\b", "Mil"); ("\bne8=\b", "mes"); ("\b0\b(?=\s+sea[ns]?\b)", "o") ]%string.

Definition ocr_fixes : list (string * string) := [
  ("\b1a\b", "la"); ("\b1as\b", "las"); ("\b1os\b", "los");
  ("\be1\b", "el"); ("\bde1\b", "del"); ("\bs1\b", "si");
  ("\bn1\b", "ni"); ("\ba1\b", "al"); ("\b0\b(?=\s+[aeiou])", "o");
  ("\bquc\b", "que"); ("\bdcl\b", "del"); ("\bdcb\b", "deb");
  ("\bccn\b", "con"); ("\bncn\b", "non"); ("\blcs\b", "los");
  ("\bcsf\b", "est"); ("\bostá\b", "está"); ("\bestá\b", "está");
  ("\bscr\b", "ser"); ("\bpcr\b", "por"); ("\bpGr\b", "por");
  ("\bcc\b", "cc"); ("\bll\b", "ll"); ("\bdebc\b", "debe");
  ("\bdcbe\b", "debe"); ("\bhacc\b", "hace"); ("\bmisno\b", "mismo");
  ("\bnisma\b", "misma"); ("\bnismo\b", "mismo"); ("\bsobrc\b", "sobre");
  ("\bentrc\b", "entre"); ("\bticne\b", "tiene"); ("\bpucde\b", "puede");
  ("\bdonde\b", "donde"); ("\bcuando\b", "cuando"); ("\btodos\b", "todos");
  ("\bcada\b", "cada"); ("\besta\b", "esta"); ("\beste\b", "este");
  ("\besos\b", "esos"); ("\besas\b", "esas"); ("\bnotario\b", "notario");
  ("\bnotaric\b", "notario"); ("\bescritura\b", "escritura"); ("\bfinca\b", "finca");
  ("\bpropiedad\b", "propiedad"); ("\bpropictario\b", "propietario"); ("\binmucble\b", "inmueble");
  ("\binmucbles\b", "inmuebles"); ("\bhipotcca\b", "hipoteca"); ("\btcstamento\b", "testamento");
  ("\bheredcro\b", "heredero"); ("\bplanilla\b", "planilla"); ("\bplanille\b", "planilla");
  ("\bEncro\b", "Enero"); ("\bFcbrero\b", "Febrero"); ("\bMarzo\b", "Marzo");
  ("\bAbril\b", "Abril"); ("\bMayo\b", "Mayo"); ("\bJunio\b", "Junio");
  ("\bJulio\b", "Julio"); ("\bAgosto\b", "Agosto"); ("\bScptiembre\b", "Septiembre");
  ("\bOctubre\b", "Octubre"); ("\bNovicmbre\b", "Noviembre"); ("\bDicicmbre\b", "Diciembre") ]%string.

Definition apply_fixes (fixes : list (string * string)) (text : str) : str :=
  fold_left (fun acc pr => re_sub (compile_i (fst pr)) (snd pr) acc) fixes text.

Definition spanish_spell_correct (text : str) : str :=
  apply_fixes ocr_fixes text.

Definition clean_ocr_text (text : str) (use_spellcheck : bool) : str :=
  let cleaned := apply_fixes OCR_CORRECTIONS text in
  let cleaned := re_sub (compile "(\s)V(\s)") "\1y\2" cleaned in
  if use_spellcheck then spanish_spell_correct cleaned else cleaned.

(** *** Classification *)

Definition DOCUMENT_TYPES : list (str * list str) :=
  map (fun kv => (u (fst kv), map u (snd kv))) [
  ("Last Will and Testament", ["last will"; "testament"; "testamento"; "última voluntad"; "herederos"]);
  ("Purchase & Sale Agreement", ["purchase"; "sale"; "compraventa"; "compra"; "venta"; "buy"; "sell"]);
  ("Property Deed", ["deed"; "escritura"; "escritura pública"; "título"]);
  ("Power of Attorney", ["power of attorney"; "poder"; "atty"; "attorney"; "apoderado"]);
  ("Property Partition", ["partition"; "partición"; "partioning"; "división"; "segregación"]);
  ("Mortgage Document", ["mortgage"; "hipoteca"; "cancelacion de hipoteca"; "gravamen"]);
  ("Property Declaration", ["declaration"; "declaración"; "declaratoria"]);
  ("Land Boundary Survey", ["boundaries"; "boundary"; "boundries"; "linderos"; "deslinde"; "demarcación"]);
  ("Property Transfer", ["transfer"; "transferencia"; "cesión"; "traspaso"]);
  ("Property Holdings Record", ["holdings"; "bienes"; "propiedades"; "inmuebles"]);
  ("Heir Documentation", ["heir"; "heredero"; "herencia"; "sucesión"; "co-heir"]);
  ("Tax/Assessment Document", ["tax"; "impuesto"; "millage"; "contribución"; "avalúo"]);
  ("Land Registry Document", ["registry"; "registro"; "inscripción"; "anotación"]);
  ("Administrative Form", ["planilla"; "formulario"; "solicitud"; "check off"]) ]%string.

(** [sum(1 for kw in keywords if kw.lower() in combined)] *)
Definition keyword_score (combined : str) (keywords : list str) : nat :=
  length (filter (fun kw => contains (lower kw) combined) keywords).

(** The [scores] dict: the labels with a positive score, in table order. *)
Definition scores_of (types : list (str * list str)) (combined : str)
  : list (str * nat) :=
  flat_map (fun tk =>
              let score := keyword_score combined (snd tk) in
              if (0 <? score)%nat then [(fst tk, score)] else []) types.

(** [max(scores, key=scores.get)]: the first entry of greatest score. *)
Definition max_first (first : str * nat) (others : list (str * nat)) : str * nat :=
  fold_left (fun best x => if (snd best <? snd x)%nat then x else best) others first.

Definition confidence_of (score : nat) : str :=
  if (3 <=? score)%nat then u "High"
  else if (2 <=? score)%nat then u "Medium"
  else u "Low".

Definition combined_text (filename text : str) : str :=
  lower (filename ++ u " " ++ text).

Definition classify_document (filename text : str) : str * str :=
  let combined := combined_text filename text in
  match scores_of DOCUMENT_TYPES combined with
  | [] => (u "Unclassified Legal Document", u "Low")
  | first :: others =>
      let best := max_first first others in
      (fst best, confidence_of (snd best))
  end.

(** *** Party extraction *)

Definition KNOWN_FAMILIES : list str := map u [
  "Rodriguez"; "Rodriquez"; "Queral"; "Ceresa"; "Cartaya"; "Garcia"; "Elizalde";
  "Tellez"; "Giron"; "Sanz"; "Berga"; "Peña"; "Cruz"; "Diaz"; "Meneses" ]%string.

(** [parties.add(x)] on a set kept in insertion order. *)
Definition set_add (x : str) (s : list str) : list str :=
  if existsb (str_eqb x) s then s else s ++ [x].

Definition family_patterns (family : str) : list pattern :=
  map (compile_str true) [
    u "\b([A-Z][a-záéíóúñ]+)\s+" ++ family ++ u "\b";
    u "\b" ++ family ++ u "\s+([A-Z][a-záéíóúñ]+)\b";
    u "\b([A-Z][a-záéíóúñ]+)\s+[A-Z][a-záéíóúñ]+\s+" ++ family ++ u "\b" ].

Definition full_pattern (family : str) : pattern :=
  compile_str true
    (u "\b[A-Z][a-záéíóúñ]+(?:\s+[A-Z][a-záéíóúñ]+)*\s*" ++ family
     ++ u "(?:\s+[A-Z][a-záéíóúñ]+)*\b").

Definition title_patterns : list pattern := [
  compile_i "\b(?:Don|Doña|Sr\.|Sra\.|Señor|Señora)\s+([A-Z][a-záéíóúñ]+(?:\s+[A-Z][a-záéíóúñ]+){1,3})";
  compile_i "\b(?:el señor|la señora)\s+([A-Z][a-záéíóúñ]+(?:\s+[A-Z][a-záéíóúñ]+){1,3})" ].

Definition add_long (min_len : nat) (parties : list str) (found : list str) : list str :=
  fold_left (fun ps fm => if (min_len <? length fm)%nat then set_add (strip fm) ps else ps)
            found parties.

Definition parties_set (text : str) : list str :=
  let parties :=
    fold_left (fun ps family =>
      fold_left (fun ps pat =>
        fold_left (fun ps m =>
          if (2 <? length m)%nat
          then add_long 5 ps (re_findall (full_pattern family) text)
          else ps) (re_findall pat text) ps) (family_patterns family) ps)
      KNOWN_FAMILIES [] in
  fold_left (fun ps pat => add_long 5 ps (re_findall pat text)) title_patterns parties.

(** [list(parties)[:10]].  The order in which a Python set is listed is
    not fixed by the language; [set_order] stands for it. *)
Definition extract_parties (set_order : list str -> list str) (text : str) : list str :=
  firstn 10 (set_order (parties_set text)).

(** *** Relevance *)

Definition high_value_types : list str := map u [
  "Last Will and Testament"; "Purchase & Sale Agreement";
  "Property Deed"; "Property Partition"; "Heir Documentation" ]%string.

Definition medium_value_types : list str := map u [
  "Power of Attorney"; "Land Boundary Survey";
  "Property Transfer"; "Mortgage Document" ]%string.

Definition key_families : list str := map u ["Ceresa"; "Rodriguez"; "Queral"]%string.
Definition key_props : list str := map u ["Villa Aurelia"; "Aguaras"]%string.

(** [x in l] for a list of strings *)
Definition mem (x : str) (l : list str) : bool := existsb (str_eqb x) l.

(** [any(k.lower() in p.lower() for k in keys)] *)
Definition matches_any (keys : list str) (p : str) : bool :=
  existsb (fun k => contains (lower k) (lower p)) keys.

Definition is_empty {A : Type} (l : list A) : bool :=
  match l with [] => true | _ => false end.

(** The running [score] and [reasons] after the three checks. *)
Definition score_and_reasons (doc_type : str) (parties properties : list str)
  : nat * list str :=
  let '(score, reasons) :=
    if mem doc_type high_value_types then
      (3, [u "Document type '" ++ doc_type ++ u "' is directly relevant to ownership claims"])
    else if mem doc_type medium_value_types then
      (2, [u "Document type '" ++ doc_type ++ u "' may support ownership chain"])
    else
      (1, [u "Document type '" ++ doc_type ++ u "' provides contextual information"]) in
  let found_families := filter (matches_any key_families) parties in
  let '(score, reasons) :=
    if is_empty found_families then (score, reasons)
    else (score + 2,
          reasons ++ [u "References key family members: "
                      ++ join (u ", ") (firstn 3 found_families)]) in
  let found_props := filter (matches_any key_props) properties in
  if is_empty found_props then (score, reasons)
  else (score + 2,
        reasons ++ [u "References target properties: " ++ join (u ", ") found_props]).

Definition level_of (score : nat) : str :=
  if (5 <=? score)%nat then u "CRITICAL"
  else if (3 <=? score)%nat then u "HIGH"
  else if (2 <=? score)%nat then u "MEDIUM"
  else u "LOW".

Definition relevance_score (doc_type : str) (parties properties : list str) : nat :=
  fst (score_and_reasons doc_type parties properties).

Definition assess_legal_relevance (doc_type : str) (parties properties : list str)
  (text : str) : str * list str :=
  let '(score, reasons) := score_and_reasons doc_type parties properties in
  (level_of score, reasons).

(** *** Repetition suppression *)

Definition MARKER : str :=
  [newline; newline] ++ u "*[Translation truncated - repetitive output detected]*".

(** [Counter(l)]: every distinct item with its number of occurrences, in
    order of first occurrence. *)
Fixpoint counter_add (c : list (str * nat)) (x : str) : list (str * nat) :=
  match c with
  | [] => [(x, 1)]
  | (y, n) :: c' =>
      if str_eqb y x then (y, S n) :: c' else (y, n) :: counter_add c' x
  end.

Definition Counter (l : list str) : list (str * nat) := fold_left counter_add l [].

(** The word windows of length [phrase_len], each with its start index. *)
Definition phrases_of (words : list str) (phrase_len : nat) : list (str * nat) :=
  map (fun i => (join (u " ") (firstn phrase_len (skipn i words)), i))
      (seq 0 (length words + 1 - phrase_len)).

(** The inner [for p, pos in phrases] loop: the first position of [phrase]. *)
Fixpoint first_pos_of (phrases : list (str * nat)) (phrase : str) : option nat :=
  match phrases with
  | [] => None
  | (p, pos) :: rest => if str_eqb p phrase then Some pos else first_pos_of rest phrase
  end.

(** The first [Some] that [f] gives along [l]: a loop left by [return]. *)
Fixpoint first_some {A B : Type} (f : A -> option B) (l : list A) : option B :=
  match l with
  | [] => None
  | x :: l' => match f x with Some y => Some y | None => first_some f l' end
  end.

Definition truncate_words (words : list str) (first_pos phrase_len : nat) : str :=
  let truncated_words := firstn (first_pos + phrase_len) words in
  let result := join (u " ") truncated_words in
  let last_period := rfind_all result (u ". ") in
  if (Z.of_nat (length result / 2) <? last_period)%Z
  then slice_to result (last_period + 1) ++ MARKER
  else result ++ MARKER.

(** The test on one entry of [phrase_counts]. *)
Definition phrase_fires (words : list str) (phrases : list (str * nat))
  (entry : str * nat) : option nat :=
  if (4 <=? snd entry)%nat then
    match first_pos_of phrases (fst entry) with
    | Some first_pos =>
        if negb (first_pos =? 0)%nat && (length words / 4 <? first_pos)%nat
        then Some first_pos else None
    | None => None
    end
  else None.

Definition scan_phrases (words : list str) (phrase_len : nat) : option str :=
  let phrases := phrases_of words phrase_len in
  let phrase_counts := Counter (map fst phrases) in
  first_some (fun entry =>
                match phrase_fires words phrases entry with
                | Some first_pos => Some (truncate_words words first_pos phrase_len)
                | None => None
                end) phrase_counts.

Definition method1 (words : list str) : option str :=
  first_some (scan_phrases words) [6; 5; 4; 3]%nat.

Definition repetitive_patterns : list pattern := [
  compile "(of the \w+ of the \w+\s*){3,}";
  compile "(the totals? of\s*){3,}";
  compile "(\w+ of the \w+\s*){5,}" ].

Definition truncate_text (pattern_text : str) (start_pos : nat) : str :=
  let truncated := slice_to pattern_text (Z.of_nat start_pos) in
  let last_period := rfind_all truncated (u ". ") in
  if (Z.of_nat (length truncated / 2) <? last_period)%Z
  then slice_to truncated (last_period + 1) ++ MARKER
  else rstrip truncated ++ MARKER.

Definition method2 (words : list str) : option str :=
  let pattern_text := join (u " ") words in
  first_some (fun pat =>
                match re_search pat pattern_text with
                | Some m =>
                    let start_pos := m_start m in
                    if (length pattern_text / 4 <? start_pos)%nat
                    then Some (truncate_text pattern_text start_pos)
                    else None
                | None => None
                end) repetitive_patterns.

Definition clean_translation (text : str) : str :=
  let words := split text in
  if (length words <? 20)%nat then text
  else match method1 words with
       | Some r => r
       | None =>
           match method2 words with
           | Some r => r
           | None => text
           end
       end.

(** *** Chunked translation *)

(** What a call of the translation backend does: return the translated
    text or raise an exception of class [Exception], which carries a
    message.  What [except Exception] lets through ([KeyboardInterrupt],
    [SystemExit]) is not modelled. *)
Inductive outcome : Type :=
| Returned (s : str)
| Raised (msg : str).

Definition translator_t : Type := str -> outcome.

Local Open Scope Z_scope.

(** The right edge of the window that starts at [start], snapped back to
    just after the last period in its final 200 characters. *)
Definition chunk_end (text : str) (chunk_size start : Z) : Z :=
  let len := Z.of_nat (length text) in
  let end_ := Z.min (start + chunk_size) len in
  if end_ <? len then
    let last_period := rfind text (u ".") (end_ - 200) end_ in
    if start <? last_period then last_period + 1 else end_
  else end_.

(** The cursor after the chunk [start, end_). *)
Definition next_start (text : str) (overlap start end_ : Z) : Z :=
  if start =? 0 then end_
  else if end_ <? Z.of_nat (length text) then end_ - overlap else end_.

Definition translate_chunk (translator : translator_t) (chunk : str) : str :=
  match translator chunk with
  | Returned t => t
  | Raised e => u "[Translation error: " ++ firstn 50 e ++ u "]"
  end.

(** The [while] loop.  [windows] records the bounds of every chunk handed
    to the backend; the source does not keep them.  A run that needs more
    than [fuel] rounds gives [None]. *)
Fixpoint chunk_loop (fuel : nat) (translator : translator_t) (text : str)
  (chunk_size overlap start : Z) (translations : list str) (windows : list (Z * Z))
  : option (list str * list (Z * Z)) :=
  match fuel with
  | O => None
  | S fuel' =>
      if start <? Z.of_nat (length text) then
        let end_ := chunk_end text chunk_size start in
        let chunk := slice text start end_ in
        chunk_loop fuel' translator text chunk_size overlap
          (next_start text overlap start end_)
          (translations ++ [translate_chunk translator chunk])
          (windows ++ [(start, end_)])
      else Some (translations, windows)
  end.

Definition translate_in_chunks (fuel : nat) (translator : translator_t) (text : str)
  (chunk_size overlap : Z) : option outcome :=
  if Z.of_nat (length text) <=? chunk_size then Some (translator text)
  else
    match chunk_loop fuel translator text chunk_size overlap 0 [] [] with
    | Some (translations, _) => Some (Returned (join (u " ") translations))
    | None => None
    end.

(** The bounds of the chunks of a run. *)
Definition chunk_windows (fuel : nat) (translator : translator_t) (text : str)
  (chunk_size overlap : Z) : option (list (Z * Z)) :=
  option_map snd (chunk_loop fuel translator text chunk_size overlap 0 [] []).

Definition default_chunk_size : Z := 1200.
Definition default_overlap : Z := 100.

Local Close Scope Z_scope.

(** *** Edit distance *)

(** [min(a, b, c)] *)
Definition min3 (a b c : nat) : nat := Nat.min a (Nat.min b c).

(** [enumerate(l)] *)
Definition enumerate {A : Type} (l : list A) : list (nat * A) :=
  combine (seq 0 (length l)) l.

(** One round of the inner loop, [current_row.append(min(...))].  The
    rows are read by index; [row_lengths] below shows that every index
    read is inside its row, so the default of [nth] is never returned. *)
Definition append_cell (c1 : ascii) (previous_row current_row : list nat)
  (jc : nat * ascii) : list nat :=
  let '(j, c2) := jc in
  let insertions := nth (j + 1) previous_row 0 + 1 in
  let deletions := nth j current_row 0 + 1 in
  let substitutions := nth j previous_row 0 + (if Ascii.eqb c1 c2 then 0 else 1) in
  current_row ++ [min3 insertions deletions substitutions].

(** One round of the outer loop: the row of [c1], from the row before. *)
Definition next_row (s2 : str) (previous_row : list nat) (ic : nat * ascii) : list nat :=
  let '(i, c1) := ic in
  fold_left (append_cell c1 previous_row) (enumerate s2) [i + 1].

(** [previous_row] when the outer loop is left. *)
Definition final_row (s1 s2 : str) : list nat :=
  fold_left (next_row s2) (enumerate s1) (seq 0 (length s2 + 1)).

(** The body below the length test. *)
Definition levenshtein_ordered (s1 s2 : str) : nat :=
  if (length s2 =? 0)%nat then length s1
  else last (final_row s1 s2) 0.

Definition levenshtein_distance (s1 s2 : str) : nat :=
  if (length s1 <? length s2)%nat then levenshtein_ordered s2 s1
  else levenshtein_ordered s1 s2.

(** *** Property extraction *)

Definition KNOWN_PROPERTIES : list str := map u [
  "Villa Aurelia"; "Villa Aurielia"; "Hacienda Aguaras"; "Finca Aguaras";
  "San Augustin"; "San Agustin"; "Parada"; "El Mamey"; "La Cuaba";
  "La Caridad"; "Villa Amelia"; "Soledad de Parada"; "Eloisa" ]%string.

(** The double quote of the two patterns below. *)
Definition dquote : str := ["034"%char].

Definition finca_pattern : pattern :=
  compile_str false
    (u "\b[Ff]inca\s+(?:denominada\s+)?[" ++ dquote
     ++ u "\']?([A-Z][a-záéíóúñ]+(?:\s+[A-Z][a-záéíóúñ]+)?)[" ++ dquote ++ u "\']?").

Definition hacienda_pattern : pattern :=
  compile_str false
    (u "\b[Hh]acienda\s+(?:denominada\s+)?[" ++ dquote
     ++ u "\']?([A-Z][a-záéíóúñ]+(?:\s+[A-Z][a-záéíóúñ]+)?)[" ++ dquote ++ u "\']?").

(** The names found by one of the two patterns, each behind [label]. *)
Definition add_estates (label : str) (properties : list str) (matches : list str)
  : list str :=
  fold_left (fun ps m => if (2 <? length m)%nat then set_add (label ++ m) ps else ps)
            matches properties.

(** The set [properties], in insertion order. *)
Definition properties_set (text filename : str) : list str :=
  let combined := filename ++ u " " ++ text in
  let properties :=
    fold_left (fun ps prop =>
                 if contains (lower prop) (lower combined) then set_add prop ps else ps)
              KNOWN_PROPERTIES [] in
  let properties := add_estates (u "Finca ") properties (re_findall finca_pattern text) in
  add_estates (u "Hacienda ") properties (re_findall hacienda_pattern text).

(** [list(properties)], listed as [set_order] has it. *)
Definition extract_properties (set_order : list str -> list str) (text filename : str)
  : list str :=
  set_order (properties_set text filename).

(** *** Date and place *)

Definition date_patterns : list pattern := [
  compile_i "(?:a los )?(.{1,30}(?:dias?|día) del mes de .{1,20} de .{1,35})";
  compile_i "(\d{1,2}\s+de\s+\w+\s+de\s+\d{4})";
  compile_i "(\w+\s+\d{1,2},?\s+(?:de\s+)?\d{4})";
  compile_i "(mil novecientos .{1,30})" ].

Definition loc_patterns : list pattern := [
  compile "[Ee]n la ciudad de (?:la )?(\w+(?:\s+\w+)?)";
  compile "[Ee]n (\w+(?:\s+\w+)?),?\s*(?:provincia|partido|oriente|occidente)";
  compile "(\w+(?:\s+\w+)?),\s*(?:Oriente|Occidente|Habana|Camaguey|Las Villas)";
  compile "[Nn]otario (?:que fue )?de (?:este )?(?:Distrito de )?(\w+(?:\s+\w+)?)" ].

Definition generic_words : list str :=
  map u ["este"; "esta"; "el"; "la"; "los"; "las"]%string.

(** The [metadata] dict, which has these two keys throughout. *)
Record metadata : Type := Metadata {
  Date : str;
  Location : str
}.

(** The first loop: the first pattern that matches gives the date. *)
Definition find_date (text : str) : option str :=
  first_some (fun pat =>
                match re_search pat text with
                | Some m => Some (strip (group text m 1))
                | None => None
                end) date_patterns.

(** The second loop: a pattern whose match is a generic word is passed
    over, and the next pattern is tried. *)
Definition find_location (text : str) : option str :=
  first_some (fun pat =>
                match re_search pat text with
                | Some m =>
                    let location := strip (group text m 1) in
                    if mem (lower location) generic_words then None else Some location
                | None => None
                end) loc_patterns.

Definition extract_metadata (text : str) : metadata :=
  {| Date := match find_date text with Some d => d | None => u "Unknown Date" end;
     Location := match find_location text with
                 | Some l => l
                 | None => u "Unknown Location"
                 end |}.

(** *** The analysis steps of [process_document_group] *)

(** What [process_document_group] derives from the cleaned text of a
    document and its name before it renders the report: the type and its
    confidence, the parties, the properties, and the relevance. *)
Record analysis : Type := Analysis {
  doc_type : str;
  type_confidence : str;
  parties : list str;
  properties : list str;
  relevance_level : str;
  relevance_reasons : list str
}.

Definition analyse (party_order property_order : list str -> list str)
  (doc_name cleaned_spanish : str) : analysis :=
  let '(doc_type, type_confidence) := classify_document doc_name cleaned_spanish in
  let parties := extract_parties party_order cleaned_spanish in
  let properties := extract_properties property_order cleaned_spanish doc_name in
  let '(relevance_level, relevance_reasons) :=
    assess_legal_relevance doc_type parties properties cleaned_spanish in
  Analysis doc_type type_confidence parties properties relevance_level relevance_reasons.

End AnalyzeDocs.

(* ================================================================= *)
(** ** [analyze_docs_claude.py] *)

Module AnalyzeDocsClaude.

Definition KEYWORDS : list str := AnalyzeDocs.KEYWORDS ++ map u [
  "Master Plan"; "Livestock"; "Anex"; "Annex"; "Letter"; "Lawyer";
  "Millage"; "Tax"; "Credit"; "Report"; "Employee"; "Buildings";
  "Aurelia"; "Aguaras"; "Ceresa"; "Rodriguez"; "Queral";
  "Memorandum"; "Carta"; "Ipoteca"; "Consejo"; "Reforma"; "Urbana"; "Sanz" ].

(** The same body is repeated in [audit_pipeline.py] and
    [test_multipage.py]. *)
Definition get_base_document_name (filename : str) : str :=
  let name := filename in
  let name := if endswith (lower name) (u ".pdf")
              then slice_to name (-4) else name in
  let name := re_sub (compile_i "\.\d+pdf$") "" name in
  let name := re_sub (compile_i "\d+pdf$") "" name in
  let name := re_sub (compile "\s+\d{1,2}$") "" name in
  strip name.

(** The three searches of [sort_key]. *)
Definition explicit_page_number (filename : str) : option Z :=
  match re_search (compile_i "\.?(\d+)pdf\.pdf$") filename with
  | Some m => Some (int (group filename m 1))
  | None => None
  end.

Definition spaced_series_number (filename : str) : option Z :=
  match re_search (compile_i "\s+(\d{1,2})\.pdf$") filename with
  | Some m => Some (int (group filename m 1))
  | None => None
  end.

Definition matches_number_pattern (filename : str) : bool :=
  match re_search (compile_i "(\d+pdf\.pdf$|\s+\d{1,2}\.pdf$)") filename with
  | Some _ => true
  | None => false
  end.

Definition sort_key (path : str) : Z :=
  let filename := PosixPath.basename path in
  match explicit_page_number filename with
  | Some n => n
  | None =>
      match spaced_series_number filename with
      | Some n => n
      | None => if negb (matches_number_pattern filename) then 0 else 999
      end
  end.

Definition find_and_group_files (walk : list (str * list str)) : Grouping.groups :=
  Grouping.group_pages get_base_document_name sort_key
    (Grouping.discover KEYWORDS walk).

End AnalyzeDocsClaude.

(* ================================================================= *)
(** ** [audit_pipeline.py] *)

Module AuditPipeline.

Definition KEYWORDS : list str := AnalyzeDocs.KEYWORDS ++ map u [
  "Master Plan"; "Livestock"; "Anex"; "Annex"; "Letter"; "Lawyer";
  "Millage"; "Tax"; "Credit"; "Report"; "Employee"; "Buildings";
  "Aurelia"; "Aguaras"; "Ceresa"; "Rodriguez"; "Queral" ].

(** The three lists that [audit_file_discovery] fills. *)
Record tally : Type := Tally {
  all_pdfs : list str;
  matched_pdfs : list str;
  missed_pdfs : list str
}.

(** The body of the inner loop, for one file name of [root]. *)
Definition tally_file (root : str) (t : tally) (file : str) : tally :=
  if endswith (lower file) (u ".pdf") then
    let full_path := PosixPath.join root file in
    if existsb (fun k => contains (lower k) (lower file)) KEYWORDS
    then Tally (all_pdfs t ++ [full_path]) (matched_pdfs t ++ [full_path]) (missed_pdfs t)
    else Tally (all_pdfs t ++ [full_path]) (matched_pdfs t) (missed_pdfs t ++ [full_path])
  else t.

(** The walk over the roots. *)
Definition tally_walk (walk : list (str * list str)) : tally :=
  fold_left (fun t rf =>
               let '(root, files) := rf in
               if contains (u "critical_files") root || contains (u ".venv") root then t
               else fold_left (tally_file root) files t)
            walk (Tally [] [] []).

(** What a call does: it returns its two lists, or it stops at the
    percentage it prints, which divides by [len(all_pdfs)]. *)
Inductive audit_outcome : Type :=
| Audited (matched missed : list str)
| ZeroDivisionError.

Definition audit_file_discovery (walk : list (str * list str)) : audit_outcome :=
  let t := tally_walk walk in
  if (length (all_pdfs t) =? 0)%nat then ZeroDivisionError
  else Audited (matched_pdfs t) (missed_pdfs t).

End AuditPipeline.


(* ================================================================= *)
(** ** Sample inputs *)

Module Samples.
Import AnalyzeDocs.

(** Three scans of one document, in one directory. *)
Definition doc_pages : list str :=
  map u ["/scans/deeds/Doc.pdf"; "/scans/deeds/Doc.2pdf.pdf"; "/scans/deeds/Doc.3pdf.pdf"].

Definition parada_pages : list str :=
  map u ["/scans/deeds/Parada 1.pdf"; "/scans/deeds/Parada 2.pdf"].







(** Twelve persons introduced by an honorific. *)
Definition twelve_dons : str :=
  u ("Don Juan Perez. Don Luis Gomez. Don Jose Marti. Don Raul Lopez. "
     ++ "Don Abel Ruiz. Don Saul Vega. Don Omar Leon. Don Hugo Mora. "
     ++ "Don Ivan Rios. Don Joel Soto. Don Noel Pino. Don Rene Luna.")%string.

(** A backend that returns its input. *)
Definition echo : translator_t := Returned.

(** 2500 characters without a period. *)
Definition long_text : str := repeat "a"%char 2500.

End Samples.

(* ================================================================= *)
(** ** Vocabulary of the statements *)

(** *** Matching, declaratively *)

(** The position after the character [c], with [r] left to read. *)
Definition eat (c : ascii) (st : mstate) (r : str) : mstate :=
  MState (Some c) r (S (pos st)) (caps st).

(** The position [st'] with group [n] recorded from [st] to [st']. *)
Definition with_cap (n : nat) (st st' : mstate) : mstate :=
  MState (prev st') (rest st') (pos st') ((n, (pos st, pos st')) :: caps st').

(** [ms ic r st st']: the expression [r] can read the subject from the
    position [st] to the position [st'], recording the groups it closes;
    [ic] is the IGNORECASE flag. *)
Inductive ms (ic : bool) : regex -> mstate -> mstate -> Prop :=
| ms_eps st : ms ic Eps st st
| ms_lit p st c r :
    rest st = c :: r -> lit_match ic p c = true -> ms ic (Lit p) st (eat c st r)
| ms_any st c r :
    rest st = c :: r -> is_newline c = false -> ms ic AnyChar st (eat c st r)
| ms_set items st c r :
    rest st = c :: r -> set_match ic items c = true -> ms ic (CharSet items) st (eat c st r)
| ms_cat r1 r2 st1 st2 st3 :
    ms ic r1 st1 st2 -> ms ic r2 st2 st3 -> ms ic (Cat r1 r2) st1 st3
| ms_alt_l r1 r2 st st' : ms ic r1 st st' -> ms ic (Alt r1 r2) st st'
| ms_alt_r r1 r2 st st' : ms ic r2 st st' -> ms ic (Alt r1 r2) st st'
| ms_rep_stop r hi st : ms ic (Rep r 0 hi) st st
| ms_rep_iter r lo hi st st1 st2 :
    hi <> Some 0 -> ms ic r st st1 -> pos st < pos st1 ->
    ms ic (Rep r (pred lo) (option_map pred hi)) st1 st2 ->
    ms ic (Rep r lo hi) st st2
| ms_grp n r st st' : ms ic r st st' -> ms ic (Grp n r) st (with_cap n st st')
| ms_eos st : at_eos st = true -> ms ic Eos st st
| ms_wordb st : at_wordb st = true -> ms ic WordB st st
| ms_look r st st' : ms ic r st st' -> ms ic (Look r) st st.

(** The continuation [k] accepts from [st]. *)
Definition succeeds (k : mstate -> option mres) (st : mstate) : Prop := k st <> None.

(** The character before the position reached by reading [cs]. *)
Fixpoint prev_of (p : option ascii) (cs : str) : option ascii :=
  match cs with
  | [] => p
  | c :: cs' => prev_of (Some c) cs'
  end.

(** The state reached from [st] by reading [cs], with [rr] left to read
    and [cs'] as groups. *)
Definition after (st : mstate) (cs rr : str) (cs' : list (nat * (nat * nat))) : mstate :=
  MState (prev_of (prev st) cs) rr (length cs + pos st) cs'.

(** A chain of literals followed by [tail]. *)
Fixpoint seq_lits (l : str) (tail : regex) : regex :=
  match l with
  | [] => tail
  | c :: l' => Cat (Lit c) (seq_lits l' tail)
  end.

(** The expressions that read exactly one character. *)
Definition single (ic : bool) (r : regex) : option (ascii -> bool) :=
  match r with
  | Lit p => Some (lit_match ic p)
  | CharSet items => Some (set_match ic items)
  | AnyChar => Some (fun c => negb (is_newline c))
  | _ => None
  end.

(** The end of a file name, for [$]: nothing, or one final newline. *)
Definition at_end (tail : str) : Prop := tail = [] \/ tail = [newline].

Definition all_decimal (digits : str) : Prop := Forall (fun c => isdecimal c = true) digits.

(** [pre] does not end with a decimal digit. *)
Definition no_digit_before (pre : str) : Prop :=
  forall pre1 d, pre = pre1 ++ [d] -> isdecimal d = false.

(** [filename] ends with the digits [digits] and "pdf.pdf" (in any
    case); the digits are all the digits there. *)
Definition dotted_page (filename digits : str) : Prop :=
  exists pre suffix tail,
    filename = pre ++ digits ++ suffix ++ tail /\
    no_digit_before pre /\ digits <> [] /\ all_decimal digits /\
    lower suffix = u "pdf.pdf" /\ at_end tail.

(** [filename] ends with a whitespace character, one or two digits and
    ".pdf" (in any case). *)
Definition spaced_page (filename digits : str) : Prop :=
  exists pre w suffix tail,
    filename = pre ++ w :: digits ++ suffix ++ tail /\
    isspace w = true /\ 1 <= length digits <= 2 /\ all_decimal digits /\
    lower suffix = u ".pdf" /\ at_end tail.

(** The three patterns of [sort_key], as [re_parse] reads them. *)
Definition dotted_number_re : regex :=
  Cat (Rep (Lit ".") 0 (Some 1))
      (Cat (Grp 1 (Rep (CharSet [CDigit]) 1 None)) (seq_lits (u "pdf.pdf") Eos)).

Definition spaced_number_re : regex :=
  Cat (Rep (CharSet [CSpace]) 1 None)
      (Cat (Grp 1 (Rep (CharSet [CDigit]) 1 (Some 2))) (seq_lits (u ".pdf") Eos)).

Definition number_pattern_re : regex :=
  Grp 1 (Alt (Cat (Rep (CharSet [CDigit]) 1 None) (seq_lits (u "pdf.pdf") Eos))
             (Cat (Rep (CharSet [CSpace]) 1 None)
                  (Cat (Rep (CharSet [CDigit]) 1 (Some 2)) (seq_lits (u ".pdf") Eos)))).

(** *** Pipeline *)

Definition ends_with_marker (s : str) : Prop := exists body, s = body ++ AnalyzeDocs.MARKER.

Section PipelineVocabulary.
Import AnalyzeDocs.

(** The rule [pr], applied alone, leaves [s] as it is. *)
Definition rule_keeps (s : str) (pr : string * string) : bool :=
  str_eqb (re_sub (compile_i (fst pr)) (snd pr) s) s.


(** The levels, in ascending order of significance. *)
Definition level_rank (level : str) : nat :=
  if str_eqb level (u "CRITICAL") then 3
  else if str_eqb level (u "HIGH") then 2
  else if str_eqb level (u "MEDIUM") then 1
  else 0.

Definition base_score (doc_type : str) : nat :=
  if mem doc_type high_value_types then 3
  else if mem doc_type medium_value_types then 2 else 1.

Definition bonus (keys : list str) (found : list str) : nat :=
  if is_empty (filter (matches_any keys) found) then 0 else 2.

Local Open Scope Z_scope.

(** The chunks of a run from cursor [start]: each lies at the cursor,
    ends at its snapped right edge, and moves the cursor on. *)
Fixpoint chain (text : str) (chunk_size overlap start : Z) (ws : list (Z * Z)) : Prop :=
  match ws with
  | [] => True
  | (s, e) :: ws' =>
      s = start /\ s < Z.of_nat (length text) /\ e = chunk_end text chunk_size s
      /\ chain text chunk_size overlap (next_start text overlap s e) ws'
  end.

(** The translation of every chunk of [ws], in order. *)
Definition pieces (translator : translator_t) (text : str) (ws : list (Z * Z)) : list str :=
  map (fun w => translate_chunk translator (slice text (fst w) (snd w))) ws.

Local Close Scope Z_scope.





End PipelineVocabulary.

(** *** Strings and lists *)

(** [a] is the beginning of [b]. *)
Definition prefix_of (a b : str) : Prop := exists c, b = a ++ c.

(** [a] is [b] with some of its characters taken away, the others kept
    in their order. *)
Inductive remainder_of : str -> str -> Prop :=
| remainder_nil : remainder_of [] []
| remainder_keep c a b : remainder_of a b -> remainder_of (c :: a) (c :: b)
| remainder_drop c a b : remainder_of a b -> remainder_of a (c :: b).

(** [s] neither starts nor ends with a whitespace character. *)
Definition trimmed (s : str) : Prop :=
  (forall c r, s = c :: r -> isspace c = false) /\
  (forall r c, s = r ++ [c] -> isspace c = false).

(** [l] is in ascending order of [key]. *)
Fixpoint ascending {A : Type} (key : A -> Z) (l : list A) : Prop :=
  match l with
  | [] => True
  | x :: l' => Forall (fun y => (key x <= key y)%Z) l' /\ ascending key l'
  end.

(** The entries of a set are pairwise different and trimmed. *)
Definition tidy (s : list str) : Prop := NoDup s /\ Forall trimmed s.

(** [name] occurs in [combined], whatever the case of the letters. *)
Definition mentions (name combined : str) : bool := contains (lower name) (lower combined).

Definition all_space (ws : str) : Prop := Forall (fun c => isspace c = true) ws.

(** [re.search(p, text)] finds nothing. *)
Definition not_found (p : pattern) (text : str) : bool :=
  match re_search p text with Some _ => false | None => true end.

(** No substitution rule of the cleaner finds its pattern in [text]. *)
Definition nothing_to_clean (text : str) : bool :=
  forallb (fun pr => not_found (compile_i (fst pr)) text)
          (AnalyzeDocs.OCR_CORRECTIONS ++ AnalyzeDocs.ocr_fixes)
  && not_found (compile "(\s)V(\s)") text.

(** *** Discovery and grouping *)

(** The key under which [find_and_group_files] files a path. *)
Definition key_of (get_base_document_name : str -> str) (path : str) : str :=
  PosixPath.join (PosixPath.dirname path)
                 (get_base_document_name (PosixPath.basename path)).

(** The body of the grouping loop: [path] is filed under its key. *)
Definition file_under (get_base_document_name : str -> str) (g : Grouping.groups)
  (path : str) : Grouping.groups :=
  Grouping.append_to g (key_of get_base_document_name path) path.

(** The part of [os.path.join(root, file)] before [file], for a file
    name without a slash. *)
Definition root_prefix (root : str) : str :=
  match root with
  | [] => []
  | _ => if endswith root [PosixPath.slash] then root else root ++ [PosixPath.slash]
  end.

Definition slash_free (file : str) : Prop := ~ In PosixPath.slash file.

(** [grouped[key]], empty when the key is absent. *)
Definition pages_of (g : Grouping.groups) (key : str) : list str :=
  match find (fun kv => str_eqb (fst kv) key) g with
  | Some kv => snd kv
  | None => []
  end.

(** The three page files of the scan [x]: the base page, page 2 and
    page 3. *)
Definition scan_pages (x : str) : list str :=
  [x ++ u ".pdf"; x ++ u ".2pdf.pdf"; x ++ u ".3pdf.pdf"].

(** The three tests of the walk. *)
Definition skipped_root (root : str) : bool :=
  contains (u "critical_files") root || contains (u ".venv") root.

Definition is_pdf_name (file : str) : bool := endswith (lower file) (u ".pdf").

Definition names_keyword (keywords : list str) (file : str) : bool :=
  existsb (fun k => contains (lower k) (lower file)) keywords.

(** The paths of the PDF files of a walk, in walk order; those among
    them whose name holds a keyword of the audit, and the others. *)
Definition pdf_paths (walk : list (str * list str)) : list str :=
  flat_map (fun rf => if skipped_root (fst rf) then []
                      else map (PosixPath.join (fst rf)) (filter is_pdf_name (snd rf))) walk.

Definition matched_in (walk : list (str * list str)) : list str :=
  flat_map (fun rf => if skipped_root (fst rf) then []
                      else map (PosixPath.join (fst rf))
                             (filter (names_keyword AuditPipeline.KEYWORDS)
                                     (filter is_pdf_name (snd rf)))) walk.

Definition missed_in (walk : list (str * list str)) : list str :=
  flat_map (fun rf => if skipped_root (fst rf) then []
                      else map (PosixPath.join (fst rf))
                             (filter (fun f => negb (names_keyword AuditPipeline.KEYWORDS f))
                                     (filter is_pdf_name (snd rf)))) walk.

(** The patterns of the normalizer and of the older [sort_key], as
    [re_parse] reads them. *)
Definition bare_number_re : regex :=
  Cat (Rep (CharSet [CDigit]) 1 None) (seq_lits (u "pdf.pdf") Eos).

Definition dotted_suffix_re : regex :=
  Cat (Lit ".") (Cat (Rep (CharSet [CDigit]) 1 None) (seq_lits (u "pdf") Eos)).

Definition bare_suffix_re : regex :=
  Cat (Rep (CharSet [CDigit]) 1 None) (seq_lits (u "pdf") Eos).

Definition spaced_suffix_re : regex :=
  Cat (Rep (CharSet [CSpace]) 1 None) (Cat (Rep (CharSet [CDigit]) 1 (Some 2)) Eos).

(** *** Classification and relevance *)

Definition confidence_rank (confidence : str) : nat :=
  if str_eqb confidence (u "High") then 2
  else if str_eqb confidence (u "Medium") then 1 else 0.

(** The score behind the confidence of [classify_document]: that of the
    chosen label, 0 when no label scores. *)
Definition best_score (combined : str) : nat :=
  match AnalyzeDocs.scores_of AnalyzeDocs.DOCUMENT_TYPES combined with
  | [] => 0
  | first :: others => snd (AnalyzeDocs.max_first first others)
  end.

(** Some party names a key family; some property names a key property. *)
Definition names_key_family (parties : list str) : bool :=
  existsb (AnalyzeDocs.matches_any AnalyzeDocs.key_families) parties.

Definition names_key_property (properties : list str) : bool :=
  existsb (AnalyzeDocs.matches_any AnalyzeDocs.key_props) properties.

(** The known properties that name a key property. *)
Definition target_estates : list str :=
  map u ["Villa Aurelia"; "Hacienda Aguaras"; "Finca Aguaras"]%string.

(** *** Date and place *)

(** What pattern [pat] finds in [text]: group 1 of its leftmost match,
    stripped. *)
Definition found_by (pat : pattern) (text : str) : option str :=
  match re_search pat text with
  | Some m => Some (strip (group text m 1))
  | None => None
  end.

Definition is_generic (location : str) : bool :=
  AnalyzeDocs.mem (lower location) AnalyzeDocs.generic_words.

(** [pat] gives no place: it does not match, or what it finds is a
    generic word. *)
Definition gives_no_place (text : str) (pat : pattern) : Prop :=
  match found_by pat text with
  | Some location => is_generic location = true
  | None => True
  end.

(** *** Edit scripts *)

(** [edits n a b]: [a] becomes [b] by [n] single-character edits, each
    an insertion, a deletion or a substitution. *)
Inductive edits : nat -> str -> str -> Prop :=
| edits_nil : edits 0 [] []
| edits_keep n x a b : edits n a b -> edits n (x :: a) (x :: b)
| edits_substitute n x y a b : edits n a b -> edits (S n) (x :: a) (y :: b)
| edits_delete n x a b : edits n a b -> edits (S n) (x :: a) b
| edits_insert n y a b : edits n a b -> edits (S n) a (y :: b).

(** The recurrence of the edit distance, from the front of the strings. *)
Fixpoint edit_distance (a b : str) : nat :=
  match a with
  | [] => length b
  | x :: a' =>
      (fix against (b : str) : nat :=
         match b with
         | [] => length a
         | y :: b' =>
             AnalyzeDocs.min3 (edit_distance a' b + 1) (against b' + 1)
               (edit_distance a' b' + (if Ascii.eqb x y then 0 else 1))
         end) b
  end.

(** The row of the table after the characters [p] of the first string:
    entry [j] is the distance of [p] to the first [j] characters of
    [s2], both read from their last character. *)
Definition cell (s2 p : str) (j : nat) : nat :=
  edit_distance (rev p) (rev (firstn j s2)).

Definition ideal_row (s2 p : str) : list nat :=
  map (cell s2 p) (seq 0 (length s2 + 1)).


(* ================================================================= *)
(** ** Facts about strings and lists *)

Section StringFacts.

Lemma str_eqb_eq (a b : str) : str_eqb a b = true <-> a = b.
Proof.
  unfold str_eqb. destruct (list_eq_dec ascii_dec a b); split; congruence.
Qed.

Lemma str_eqb_refl (a : str) : str_eqb a a = true.
Proof. now apply str_eqb_eq. Qed.


Lemma first_some_Some {A B : Type} (f : A -> option B) (l : list A) (y : B) :
  AnalyzeDocs.first_some f l = Some y -> exists x, In x l /\ f x = Some y.
Proof.
  induction l as [|x l IH]; simpl; [discriminate|].
  destruct (f x) eqn:E.
  - intros H. injection H as <-. exists x. auto.
  - intros H. destruct (IH H) as [x' [Hin Hx']]. exists x'. auto.
Qed.


End StringFacts.

(* ================================================================= *)
(** ** What the matcher computes *)

Section Semantics.
Variable ic : bool.

Lemma step_if_sound (p : ascii -> bool) k st res :
  step_if p k st = Some res ->
  exists c r, rest st = c :: r /\ p c = true /\ k (eat c st r) = Some res.
Proof.
  unfold step_if. destruct (rest st) as [|c r]; [discriminate|].
  destruct (p c) eqn:E; [|discriminate]. intros H. exists c, r. auto.
Qed.

Lemma rep_sound (r : regex) :
  (forall k st res, rmatch ic r k st = Some res ->
     exists st', ms ic r st st' /\ k st' = Some res) ->
  forall fuel lo hi k st res,
    rep fuel (rmatch ic r) lo hi k st = Some res ->
    exists st', ms ic (Rep r lo hi) st st' /\ k st' = Some res.
Proof.
  intros IHr. induction fuel as [|fuel IH]; intros lo hi k st res H; [discriminate|].
  cbn [rep] in H.
  assert (Hstop : match lo with 0 => k st | S _ => None end = Some res ->
                  exists st', ms ic (Rep r lo hi) st st' /\ k st' = Some res).
  { destruct lo; [|discriminate]. intros Hk. exists st. split; [constructor|exact Hk]. }
  assert (Hiter : hi <> Some 0 ->
    match rmatch ic r (fun st' => if pos st <? pos st'
                                  then rep fuel (rmatch ic r) (pred lo) (option_map pred hi) k st'
                                  else None) st with
    | Some r0 => Some r0
    | None => match lo with 0 => k st | S _ => None end
    end = Some res ->
    exists st', ms ic (Rep r lo hi) st st' /\ k st' = Some res).
  { intros Hhi Hm.
    destruct (rmatch ic r _ st) as [res'|] eqn:Eb; [|auto].
    injection Hm as ->.
    apply IHr in Eb. destruct Eb as [st1 [Hms Hk]].
    destruct (pos st <? pos st1) eqn:Ep; [|discriminate].
    apply Nat.ltb_lt in Ep.
    apply IH in Hk. destruct Hk as [st2 [Hms2 Hk2]].
    exists st2. split; [|exact Hk2].
    eapply ms_rep_iter; eauto. }
  destruct hi as [[|h]|];
    [auto | apply Hiter; [discriminate|exact H] | apply Hiter; [discriminate|exact H]].
Qed.

Lemma rmatch_sound (r : regex) :
  forall k st res, rmatch ic r k st = Some res ->
    exists st', ms ic r st st' /\ k st' = Some res.
Proof.
  induction r as [| p | | items | r1 IH1 r2 IH2 | r1 IH1 r2 IH2 | r IH lo hi | n r IH | | | r IH];
    intros k st res H; cbn [rmatch] in H.
  - exists st. split; [constructor|exact H].
  - apply step_if_sound in H. destruct H as [c [r [Hr [Hp Hk]]]].
    exists (eat c st r). split; [now constructor|exact Hk].
  - apply step_if_sound in H. destruct H as [c [r [Hr [Hp Hk]]]].
    exists (eat c st r). split; [|exact Hk].
    constructor; [exact Hr|]. now destruct (is_newline c).
  - apply step_if_sound in H. destruct H as [c [r [Hr [Hp Hk]]]].
    exists (eat c st r). split; [now constructor|exact Hk].
  - apply IH1 in H. destruct H as [st1 [H1 H]].
    apply IH2 in H. destruct H as [st2 [H2 H]].
    exists st2. split; [econstructor; eauto|exact H].
  - destruct (rmatch ic r1 k st) as [res'|] eqn:E.
    + injection H as ->. apply IH1 in E. destruct E as [st' [Hm Hk]].
      exists st'. split; [now apply ms_alt_l|exact Hk].
    + apply IH2 in H. destruct H as [st' [Hm Hk]].
      exists st'. split; [now apply ms_alt_r|exact Hk].
  - now apply (rep_sound r IH) in H.
  - apply IH in H. destruct H as [st' [Hm Hk]].
    exists (with_cap n st st'). split; [now constructor|exact Hk].
  - destruct (at_eos st) eqn:E; [|discriminate].
    exists st. split; [now constructor|exact H].
  - destruct (at_wordb st) eqn:E; [|discriminate].
    exists st. split; [now constructor|exact H].
  - destruct (rmatch ic r accept st) as [res'|] eqn:E; [|discriminate].
    apply IH in E. destruct E as [st' [Hm _]].
    exists st. split; [econstructor; eauto|exact H].
Qed.

(** What a match consumes. *)
Lemma ms_consumes r st st' :
  ms ic r st st' ->
  exists consumed, rest st = consumed ++ rest st' /\ pos st' = pos st + length consumed.
Proof.
  induction 1 as [st | p st c r Hr Hp | st c r Hr Hp | items st c r Hr Hp
                 | r1 r2 st1 st2 st3 _ IH1 _ IH2 | r1 r2 st st' _ IH | r1 r2 st st' _ IH
                 | r hi st | r lo hi st st1 st2 Hhi _ IH1 Hp _ IH2
                 | n r st st' _ IH | st He | st Hw | r st st' _ IH].
  - exists []. cbn. split; [reflexivity|lia].
  - exists [c]. cbn. split; [exact Hr|lia].
  - exists [c]. cbn. split; [exact Hr|lia].
  - exists [c]. cbn. split; [exact Hr|lia].
  - destruct IH1 as [c1 [E1 Hp1]], IH2 as [c2 [E2 Hp2]].
    exists (c1 ++ c2). rewrite E1, E2, Hp2, Hp1, length_app, app_assoc.
    split; [reflexivity|lia].
  - exact IH.
  - exact IH.
  - exists []. cbn. split; [reflexivity|lia].
  - destruct IH1 as [c1 [E1 Hp1]], IH2 as [c2 [E2 Hp2]].
    exists (c1 ++ c2). rewrite E1, E2, Hp2, Hp1, length_app, app_assoc.
    split; [reflexivity|lia].
  - destruct IH as [c [E P]]. exists c. cbn. auto.
  - exists []. cbn. split; [reflexivity|lia].
  - exists []. cbn. split; [reflexivity|lia].
  - exists []. cbn. split; [reflexivity|lia].
Qed.

Lemma rmatch_complete_gen r st st' :
  ms ic r st st' ->
  (forall k, succeeds k st' -> succeeds (rmatch ic r k) st) /\
  (forall r1 lo hi, r = Rep r1 lo hi ->
     forall k fuel, succeeds k st' -> length (rest st) < fuel ->
       succeeds (rep fuel (rmatch ic r1) lo hi k) st).
Proof.
  unfold succeeds.
  induction 1 as [st | p st c r Hr Hp | st c r Hr Hp | items st c r Hr Hp
                 | r1 r2 st1 st2 st3 _ IH1 _ IH2 | r1 r2 st st' _ IH | r1 r2 st st' _ IH
                 | r hi st | r lo hi st st1 st2 Hhi Hb IH1 Hp _ IH2
                 | n r st st' _ IH | st He | st Hw | r st st' _ IH];
    (split; [|try (intros; discriminate)]).
  - intros k Hk. exact Hk.
  - intros k Hk. cbn [rmatch]. unfold step_if. rewrite Hr, Hp. exact Hk.
  - intros k Hk. cbn [rmatch]. unfold step_if. rewrite Hr, Hp. exact Hk.
  - intros k Hk. cbn [rmatch]. unfold step_if. rewrite Hr, Hp. exact Hk.
  - intros k Hk. cbn [rmatch]. apply (proj1 IH1), (proj1 IH2), Hk.
  - intros k Hk. cbn [rmatch]. pose proof (proj1 IH k Hk) as H'.
    destruct (rmatch ic r1 k st); [discriminate|contradiction].
  - intros k Hk. cbn [rmatch]. destruct (rmatch ic r1 k st); [discriminate|].
    apply (proj1 IH), Hk.
  - (* stop *)
    assert (G : forall k fuel, k st <> None -> length (rest st) < fuel ->
                rep fuel (rmatch ic r) 0 hi k st <> None).
    { intros k fuel Hk Hf. destruct fuel as [|fuel]; [lia|]. cbn [rep].
      destruct hi as [[|h]|]; [exact Hk| |];
        (destruct (rmatch ic r _ st); [discriminate|exact Hk]). }
    intros k Hk. cbn [rmatch]. apply G; [exact Hk|lia].
  - intros r1 lo hi0 E k fuel Hk Hf. injection E as <- <- <-.
    destruct fuel as [|fuel]; [lia|]. cbn [rep].
    destruct hi as [[|h]|]; [exact Hk| |];
      (destruct (rmatch ic r _ st); [discriminate|exact Hk]).
  - (* iterate *)
    assert (G : forall k fuel, k st2 <> None -> length (rest st) < fuel ->
                rep fuel (rmatch ic r) lo hi k st <> None).
    { intros k fuel Hk Hf. destruct fuel as [|fuel]; [lia|]. cbn [rep].
      destruct (ms_consumes _ _ _ Hb) as [c [Ec Pc]].
      assert (Hlen : length (rest st1) < fuel).
      { rewrite Ec, length_app in Hf. lia. }
      assert (Hbody : rmatch ic r
                (fun st' => if pos st <? pos st'
                            then rep fuel (rmatch ic r) (pred lo) (option_map pred hi) k st'
                            else None) st <> None).
      { apply (proj1 IH1). rewrite (proj2 (Nat.ltb_lt _ _) Hp).
        apply (proj2 IH2 r (pred lo) (option_map pred hi) eq_refl); assumption. }
      destruct hi as [[|h]|]; [congruence| |];
        (destruct (rmatch ic r _ st); [discriminate|contradiction]). }
    intros k Hk. cbn [rmatch]. apply G; [exact Hk|lia].
  - intros r1 lo0 hi0 E k fuel Hk Hf. injection E as <- <- <-.
    destruct fuel as [|fuel]; [lia|]. cbn [rep].
    destruct (ms_consumes _ _ _ Hb) as [c [Ec Pc]].
    assert (Hlen : length (rest st1) < fuel).
    { rewrite Ec, length_app in Hf. lia. }
    assert (Hbody : rmatch ic r
              (fun st' => if pos st <? pos st'
                          then rep fuel (rmatch ic r) (pred lo) (option_map pred hi) k st'
                          else None) st <> None).
    { apply (proj1 IH1). rewrite (proj2 (Nat.ltb_lt _ _) Hp).
      apply (proj2 IH2 r (pred lo) (option_map pred hi) eq_refl); assumption. }
    destruct hi as [[|h]|]; [congruence| |];
      (destruct (rmatch ic r _ st); [discriminate|contradiction]).
  - intros k Hk. cbn [rmatch]. apply (proj1 IH). exact Hk.
  - intros k Hk. cbn [rmatch]. rewrite He. exact Hk.
  - intros k Hk. cbn [rmatch]. rewrite Hw. exact Hk.
  - intros k Hk. cbn [rmatch].
    assert (Ha : rmatch ic r accept st <> None).
    { apply (proj1 IH). unfold accept. discriminate. }
    destruct (rmatch ic r accept st); [exact Hk|contradiction].
Qed.

End Semantics.

(** *** Matches of single characters, runs and literal chains *)

Section Toolkit.
Variable ic : bool.

Lemma prev_of_app (p : option ascii) (a b : str) :
  prev_of p (a ++ b) = prev_of (prev_of p a) b.
Proof. revert p. induction a as [|c a IH]; intros p; cbn; auto. Qed.

Lemma after_nil (st : mstate) : after st [] (rest st) (caps st) = st.
Proof. destruct st. reflexivity. Qed.

Lemma after_after (st : mstate) (a b ra rb : str) ca cb :
  after (after st a ra ca) b rb cb = after st (a ++ b) rb cb.
Proof.
  unfold after. cbn [prev pos]. rewrite prev_of_app, length_app. f_equal. lia.
Qed.

Lemma eat_after (st : mstate) (c : ascii) (rr : str) :
  eat c st rr = after st [c] rr (caps st).
Proof. reflexivity. Qed.

Lemma ms_single_inv (r : regex) (p : ascii -> bool) (st st' : mstate) :
  single ic r = Some p -> ms ic r st st' ->
  exists c rr, rest st = c :: rr /\ p c = true /\ st' = after st [c] rr (caps st).
Proof.
  intros Hs H. destruct H; try discriminate; cbn in Hs; injection Hs as <-;
    exists c, r; repeat split; auto.
  now rewrite H0.
Qed.

Lemma ms_single_intro (r : regex) (p : ascii -> bool) (st : mstate) (c : ascii) (rr : str) :
  single ic r = Some p -> rest st = c :: rr -> p c = true ->
  ms ic r st (after st [c] rr (caps st)).
Proof.
  intros Hs Hr Hp. destruct r; try discriminate; cbn in Hs; injection Hs as <-;
    rewrite <- eat_after; constructor; auto.
  now destruct (is_newline c).
Qed.

Lemma ms_rep_single_inv (r : regex) (p : ascii -> bool) :
  single ic r = Some p ->
  forall lo hi st st',
    ms ic (Rep r lo hi) st st' ->
    exists cs rr,
      rest st = cs ++ rr /\ Forall (fun c => p c = true) cs /\
      lo <= length cs /\ (forall h, hi = Some h -> length cs <= h) /\
      st' = after st cs rr (caps st).
Proof.
  intros Hs lo hi st st' H.
  remember (Rep r lo hi) as rx eqn:E. revert lo hi E.
  induction H; intros lo0 hi0 E; try discriminate.
  - injection E as -> <- ->. exists [], (rest st). repeat split; auto.
    + intros h _. cbn. lia.
    + now rewrite after_nil.
  - injection E as -> -> ->.
    destruct (ms_single_inv _ _ _ _ Hs H0) as [c [rr [Hr [Hp ->]]]].
    destruct (IHms2 _ _ eq_refl) as [cs [rr' [Hr' [Hall [Hlo [Hhi ->]]]]]].
    cbn [rest after] in Hr'. subst rr.
    exists (c :: cs), rr'. repeat split; auto.
    + cbn. lia.
    + intros h ->. cbn [option_map] in Hhi. specialize (Hhi _ eq_refl).
      destruct h; [congruence|]. cbn in *. lia.
    + cbn [caps after]. now rewrite after_after.
Qed.

Lemma ms_rep_single_intro (r : regex) (p : ascii -> bool) :
  single ic r = Some p ->
  forall cs lo hi st rr,
    rest st = cs ++ rr -> Forall (fun c => p c = true) cs ->
    lo <= length cs -> (forall h, hi = Some h -> length cs <= h) ->
    ms ic (Rep r lo hi) st (after st cs rr (caps st)).
Proof.
  intros Hs. induction cs as [|c cs IH]; intros lo hi st rr Hr Hall Hlo Hhi.
  - cbn in Hlo. assert (lo = 0) by lia. subst lo.
    cbn in Hr. rewrite <- Hr, after_nil. constructor.
  - inversion Hall as [|? ? Hc Hall']; subst.
    apply ms_rep_iter with (st1 := after st [c] (cs ++ rr) (caps st)).
    + intros ->. specialize (Hhi _ eq_refl). cbn in Hhi. lia.
    + apply (ms_single_intro _ _ _ _ _ Hs); auto.
    + cbn. lia.
    + replace (after st (c :: cs) rr (caps st))
        with (after (after st [c] (cs ++ rr) (caps st)) cs rr
                (caps (after st [c] (cs ++ rr) (caps st))))
        by (cbn [caps after]; now rewrite after_after).
      apply IH; auto.
      * cbn in Hlo. lia.
      * intros h Hh. destruct hi as [h0|]; [|discriminate].
        cbn in Hh. injection Hh as <-. specialize (Hhi _ eq_refl). cbn in Hhi. lia.
Qed.

Lemma ms_lits_inv (l : str) (tail : regex) :
  forall st st',
    ms ic (seq_lits l tail) st st' ->
    exists cs rr,
      rest st = cs ++ rr /\ Forall2 (fun p c => lit_match ic p c = true) l cs /\
      ms ic tail (after st cs rr (caps st)) st'.
Proof.
  induction l as [|p l IH]; intros st st' H; cbn [seq_lits] in H.
  - exists [], (rest st). rewrite after_nil. repeat split; auto.
  - inversion H as [| | | | r1 r2 st1 st2 st3 H1 H2 | | | | | | | |]; subst.
    destruct (ms_single_inv (Lit p) _ _ _ eq_refl H1) as [c [rr [Hr [Hp ->]]]].
    destruct (IH _ _ H2) as [cs [rr' [Hr' [Hall Ht]]]].
    cbn [rest after] in Hr'. subst rr.
    exists (c :: cs), rr'. repeat split; auto.
    cbn [caps after] in Ht. now rewrite after_after in Ht.
Qed.

Lemma ms_lits_intro (l : str) (tail : regex) :
  forall cs st rr st',
    rest st = cs ++ rr -> Forall2 (fun p c => lit_match ic p c = true) l cs ->
    ms ic tail (after st cs rr (caps st)) st' ->
    ms ic (seq_lits l tail) st st'.
Proof.
  induction l as [|p l IH]; intros cs st rr st' Hr Hall Ht;
    inversion Hall as [|? c ? cs' Hp Hall']; subst; cbn [seq_lits].
  - cbn in Hr. rewrite <- Hr, after_nil in Ht. exact Ht.
  - apply ms_cat with (st2 := after st [c] (cs' ++ rr) (caps st)).
    + apply (ms_single_intro (Lit p) _ _ _ _ eq_refl); auto.
    + apply (IH cs' _ rr); auto.
      cbn [caps after]. now rewrite after_after.
Qed.

Lemma ms_eos_inv (st st' : mstate) :
  ms ic Eos st st' -> st' = st /\ (rest st = [] \/ rest st = [newline]).
Proof.
  intros H. remember Eos as r eqn:E. destruct H; try discriminate.
  split; [reflexivity|].
  unfold at_eos in H. destruct (rest st) as [|c [|d r]]; auto; [|discriminate].
  right. f_equal. unfold is_newline in H. now apply Ascii.eqb_eq in H.
Qed.

Lemma ms_eos_intro (st : mstate) :
  rest st = [] \/ rest st = [newline] -> ms ic Eos st st.
Proof.
  intros H. constructor. unfold at_eos. destruct H as [-> | ->]; reflexivity.
Qed.

(** *** Searching *)

Lemma match_at_sound (r : regex) (p : option ascii) (s : str) (i : nat) (m : rmatch_obj) :
  match_at ic r p s i = Some m ->
  exists st', ms ic r (MState p s i []) st' /\ m = Match i (pos st') (caps st').
Proof.
  unfold match_at. destruct (rmatch ic r accept _) as [[e cs]|] eqn:E; [|discriminate].
  intros H. injection H as <-.
  apply rmatch_sound in E. destruct E as [st' [Hm Ha]].
  unfold accept in Ha. injection Ha as <- <-. eauto.
Qed.

Lemma match_at_complete (r : regex) (p : option ascii) (s : str) (i : nat) (st' : mstate) :
  ms ic r (MState p s i []) st' -> match_at ic r p s i <> None.
Proof.
  intros H. unfold match_at.
  pose proof (proj1 (rmatch_complete_gen ic r _ _ H) accept) as Hc.
  unfold succeeds in Hc.
  destruct (rmatch ic r accept _) as [[e cs]|]; [discriminate|].
  exfalso. apply Hc; [unfold accept; discriminate|reflexivity].
Qed.

Lemma search_from_Some (r : regex) (s : str) :
  forall p i m,
    search_from ic r p s i = Some m ->
    exists pre suf,
      s = pre ++ suf /\
      match_at ic r (prev_of p pre) suf (length pre + i) = Some m /\
      forall pre1 suf1,
        s = pre1 ++ suf1 -> length pre1 < length pre ->
        match_at ic r (prev_of p pre1) suf1 (length pre1 + i) = None.
Proof.
  induction s as [|c s IH]; intros p i m H; cbn [search_from] in H.
  - destruct (match_at ic r p [] i) eqn:E; [|discriminate].
    injection H as ->. exists [], []. repeat split; auto.
    intros ? ? _ Hl. cbn in Hl. lia.
  - destruct (match_at ic r p (c :: s) i) eqn:E.
    + injection H as ->. exists [], (c :: s). repeat split; auto.
      intros ? ? _ Hl. cbn in Hl. lia.
    + apply IH in H. destruct H as [pre [suf [-> [Hm Hmin]]]].
      exists (c :: pre), suf. repeat split.
      * cbn [prev_of length].
        replace (S (length pre) + i) with (length pre + S i) by lia. exact Hm.
      * intros pre1 suf1 Heq Hl. destruct pre1 as [|c1 pre1].
        -- cbn in Heq. subst suf1. exact E.
        -- cbn in Heq. injection Heq as <- Heq.
           cbn [prev_of length].
           replace (S (length pre1) + i) with (length pre1 + S i) by lia.
           apply Hmin; [exact Heq|cbn in Hl; lia].
Qed.

Lemma search_from_None (r : regex) (s : str) :
  forall p i,
    search_from ic r p s i = None ->
    forall pre1 suf1,
      s = pre1 ++ suf1 ->
      match_at ic r (prev_of p pre1) suf1 (length pre1 + i) = None.
Proof.
  induction s as [|c s IH]; intros p i H pre1 suf1 Heq; cbn [search_from] in H.
  - destruct (match_at ic r p [] i) eqn:E; [discriminate|].
    destruct pre1; [|discriminate]. cbn in Heq. subst suf1. exact E.
  - destruct (match_at ic r p (c :: s) i) eqn:E; [discriminate|].
    destruct pre1 as [|c1 pre1].
    + cbn in Heq. subst suf1. exact E.
    + cbn in Heq. injection Heq as <- Heq.
      cbn [prev_of length].
      replace (S (length pre1) + i) with (length pre1 + S i) by lia. now apply IH.
Qed.

End Toolkit.


(* ================================================================= *)
(** ** Filename normalizer *)

Section BaseName.
Import Samples.

(** C1.  On "Parada.2pdf.pdf" and "Parada 2.pdf" the normalizer of
    [analyze_docs_claude.py] (the one [audit_pipeline.py] and
    [test_multipage.py] repeat) returns "Parada" both times.  The
    normalizer of [analyze_docs.py] has no rule for the spaced series: it
    returns "Parada" for the first name and "Parada 2" for the second,
    and so keys "Parada 1.pdf" and "Parada 2.pdf" as two documents. *)
Theorem get_base_document_name_parada :
  AnalyzeDocsClaude.get_base_document_name (u "Parada.2pdf.pdf") = u "Parada" /\
  AnalyzeDocsClaude.get_base_document_name (u "Parada 2.pdf") = u "Parada" /\
  AnalyzeDocs.get_base_document_name (u "Parada.2pdf.pdf") = u "Parada" /\
  AnalyzeDocs.get_base_document_name (u "Parada 2.pdf") = u "Parada 2" /\
  Grouping.group_pages AnalyzeDocs.get_base_document_name AnalyzeDocs.sort_key
    parada_pages
  = [(u "/scans/deeds/Parada 1", [u "/scans/deeds/Parada 1.pdf"]);
     (u "/scans/deeds/Parada 2", [u "/scans/deeds/Parada 2.pdf"])].
Proof. repeat split; vm_compute; reflexivity. Qed.

End BaseName.

(* ================================================================= *)
(** ** OCR cleaning *)

Section Cleaning.
Import AnalyzeDocs.

(** Every pattern string of the tables is inside the fragment read by
    [re_parse]. *)
Lemma ocr_tables_compile :
  forallb (fun pr => compiles (u (fst pr))) (OCR_CORRECTIONS ++ ocr_fixes) = true.
Proof. vm_compute. reflexivity. Qed.

(** What [re_parse] does not read compiles to [never]; none of the
    patterns of the pipeline does. *)
Lemma pipeline_patterns_compile :
  existsb is_never
    (repetitive_patterns ++ title_patterns
     ++ flat_map (fun f => full_pattern f :: family_patterns f) KNOWN_FAMILIES
     ++ [compile_i "\.\d+pdf$"; compile_i "\d+pdf$"; compile "\s+\d{1,2}$";
         compile_i "\.?(\d+)pdf\.pdf$"; compile_i "\d+pdf\.pdf$";
         compile_i "\s+(\d{1,2})\.pdf$";
         compile_i "(\d+pdf\.pdf$|\s+\d{1,2}\.pdf$)"; compile "(\s)V(\s)"])
  = false.
Proof. vm_compute. reflexivity. Qed.


Lemma apply_fixes_settled (fixes : list (string * string)) (s : str) :
  forallb (rule_keeps s) fixes = true -> apply_fixes fixes s = s.
Proof.
  unfold apply_fixes. induction fixes as [|pr fixes IH]; cbn [forallb fold_left]; intros H.
  - reflexivity.
  - apply andb_true_iff in H. destruct H as [Hpr H].
    unfold rule_keeps in Hpr. apply str_eqb_eq in Hpr. rewrite Hpr. now apply IH.
Qed.



End Cleaning.

(* ================================================================= *)
(** ** Repetition suppressor: every truncation is flagged *)

Section Flagged.
Import AnalyzeDocs.

Lemma truncate_words_flagged (words : list str) (first_pos phrase_len : nat) :
  ends_with_marker (truncate_words words first_pos phrase_len).
Proof.
  unfold truncate_words, ends_with_marker.
  destruct (_ <? _)%Z; eexists; reflexivity.
Qed.

Lemma truncate_text_flagged (pattern_text : str) (start_pos : nat) :
  ends_with_marker (truncate_text pattern_text start_pos).
Proof.
  unfold truncate_text, ends_with_marker.
  destruct (_ <? _)%Z; eexists; reflexivity.
Qed.

Lemma method1_flagged (words : list str) (out : str) :
  method1 words = Some out -> ends_with_marker out.
Proof.
  unfold method1. intros H.
  apply first_some_Some in H. destruct H as [n [_ H]].
  unfold scan_phrases in H.
  apply first_some_Some in H. destruct H as [entry [_ H]].
  destruct (phrase_fires _ _ entry); [|discriminate].
  injection H as <-. apply truncate_words_flagged.
Qed.

Lemma method2_flagged (words : list str) (out : str) :
  method2 words = Some out -> ends_with_marker out.
Proof.
  unfold method2. intros H.
  apply first_some_Some in H. destruct H as [pat [_ H]].
  destruct (re_search pat _); [|discriminate].
  destruct (_ <? _)%nat; [|discriminate].
  injection H as <-. apply truncate_text_flagged.
Qed.

(** C10.  [clean_translation] returns its input itself, or a string that
    ends with the truncation marker. *)
Theorem clean_translation_unchanged_or_flagged (text : str) :
  clean_translation text = text \/
  exists body, clean_translation text = body ++ MARKER.
Proof.
  unfold clean_translation.
  destruct (_ <? 20)%nat; [now left|].
  destruct (method1 (split text)) as [out|] eqn:E1.
  - right. exact (method1_flagged _ _ E1).
  - destruct (method2 (split text)) as [out|] eqn:E2.
    + right. exact (method2_flagged _ _ E2).
    + now left.
Qed.

End Flagged.

(* ================================================================= *)
(** ** Party extraction *)

Section Parties.
Import AnalyzeDocs.

(** C9.  Whatever the text and whatever order the set is listed in,
    [extract_parties] returns at most 10 entries. *)
Theorem extract_parties_at_most_10 (set_order : list str -> list str) (text : str) :
  length (extract_parties set_order text) <= 10.
Proof. unfold extract_parties. apply firstn_le_length. Qed.

(** The cap is met: a text that names twelve persons gives ten entries. *)
Lemma extract_parties_cap_reached :
  length (parties_set Samples.twelve_dons) = 12 /\
  length (extract_parties (fun l => l) Samples.twelve_dons) = 10.
Proof. split; vm_compute; reflexivity. Qed.

End Parties.

(* ================================================================= *)
(** ** Relevance scorer *)

Section Relevance.
Import AnalyzeDocs.

Lemma relevance_score_sum (doc_type : str) (parties properties : list str) :
  relevance_score doc_type parties properties
  = base_score doc_type + bonus key_families parties + bonus key_props properties.
Proof.
  unfold relevance_score, score_and_reasons, base_score, bonus.
  destruct (mem doc_type high_value_types);
    [|destruct (mem doc_type medium_value_types)];
    destruct (is_empty (filter (matches_any key_families) parties));
    destruct (is_empty (filter (matches_any key_props) properties));
    simpl; lia.
Qed.

Lemma assess_level (doc_type : str) (parties properties : list str) (text : str) :
  fst (assess_legal_relevance doc_type parties properties text)
  = level_of (relevance_score doc_type parties properties).
Proof.
  unfold assess_legal_relevance, relevance_score.
  destruct (score_and_reasons doc_type parties properties). reflexivity.
Qed.

Lemma level_rank_monotone (a b : nat) :
  a <= b -> level_rank (level_of a) <= level_rank (level_of b).
Proof.
  intros H. unfold level_of.
  destruct (5 <=? a) eqn:A5; destruct (5 <=? b) eqn:B5;
  destruct (3 <=? a) eqn:A3; destruct (3 <=? b) eqn:B3;
  destruct (2 <=? a) eqn:A2; destruct (2 <=? b) eqn:B2;
  repeat match goal with
         | H : (_ <=? _) = true |- _ => apply Nat.leb_le in H
         | H : (_ <=? _) = false |- _ => apply Nat.leb_gt in H
         end;
  try lia; vm_compute; lia.
Qed.

Lemma bonus_with_match (keys : list str) (l1 l2 : list str) (p : str) :
  matches_any keys p = true -> bonus keys (l1 ++ p :: l2) = 2.
Proof.
  intros H. unfold bonus. rewrite filter_app. simpl. rewrite H.
  destruct (filter (matches_any keys) l1); reflexivity.
Qed.

Lemma bonus_le_2 (keys : list str) (l : list str) : bonus keys l <= 2.
Proof. unfold bonus. destruct (is_empty _); lia. Qed.

(** C8.  Putting a party that matches a key family anywhere into the
    parties list, everything else fixed, does not decrease the score and
    does not lower the level. *)
Theorem relevance_monotone_in_family_party
  (doc_type : str) (before after properties : list str) (text party : str) :
  matches_any key_families party = true ->
  relevance_score doc_type (before ++ after) properties
    <= relevance_score doc_type (before ++ party :: after) properties
  /\ level_rank (fst (assess_legal_relevance doc_type (before ++ after) properties text))
     <= level_rank (fst (assess_legal_relevance doc_type (before ++ party :: after)
                                                properties text)).
Proof.
  intros H.
  assert (Hs : relevance_score doc_type (before ++ after) properties
               <= relevance_score doc_type (before ++ party :: after) properties).
  { rewrite !relevance_score_sum, (bonus_with_match _ _ _ _ H).
    pose proof (bonus_le_2 key_families (before ++ after)). lia. }
  split; [exact Hs|].
  rewrite !assess_level. now apply level_rank_monotone.
Qed.

Lemma relevance_monotone_in_family_party_witness :
  matches_any key_families (u "Elena RODRIGUEZ Queral") = true /\
  relevance_score (u "Power of Attorney") [u "Juan Perez"] []
    <= relevance_score (u "Power of Attorney")
         [u "Juan Perez"; u "Elena RODRIGUEZ Queral"] [] /\
  level_rank (fst (assess_legal_relevance (u "Power of Attorney") [u "Juan Perez"] [] []))
    <= level_rank (fst (assess_legal_relevance (u "Power of Attorney")
                          [u "Juan Perez"; u "Elena RODRIGUEZ Queral"] [] [])).
Proof.
  split; [vm_compute; reflexivity|].
  apply (relevance_monotone_in_family_party (u "Power of Attorney")
           [u "Juan Perez"] [] [] [] (u "Elena RODRIGUEZ Queral")).
  vm_compute; reflexivity.
Defined.

End Relevance.

(* ================================================================= *)
(** ** Document classifier *)

Section Classifier.
Import AnalyzeDocs.

(** [max_first] picks an entry such that every entry before it scores
    less and no entry after it scores more. *)
Lemma max_first_split (others pre mid : list (str * nat)) (first : str * nat) :
  Forall (fun x => snd x < snd first) pre ->
  Forall (fun x => snd x <= snd first) mid ->
  exists l1 l2,
    pre ++ first :: mid ++ others = l1 ++ max_first first others :: l2 /\
    Forall (fun x => snd x < snd (max_first first others)) l1 /\
    Forall (fun x => snd x <= snd (max_first first others)) l2.
Proof.
  revert pre mid first.
  induction others as [|x others IH]; intros pre mid first Hpre Hmid.
  - exists pre, mid. rewrite app_nil_r. auto.
  - unfold max_first. simpl. fold (max_first (if snd first <? snd x then x else first) others).
    destruct (snd first <? snd x) eqn:E.
    + apply Nat.ltb_lt in E.
      destruct (IH (pre ++ first :: mid) [] x) as [l1 [l2 [Heq [H1 H2]]]].
      * apply Forall_app. split.
        -- eapply Forall_impl; [|exact Hpre]. simpl. intros; lia.
        -- constructor; [exact E|].
           eapply Forall_impl; [|exact Hmid]. simpl. intros; lia.
      * constructor.
      * exists l1, l2. split; [|auto].
        rewrite <- Heq. simpl. rewrite <- app_assoc. reflexivity.
    + apply Nat.ltb_ge in E.
      destruct (IH pre (mid ++ [x]) first) as [l1 [l2 [Heq [H1 H2]]]]; auto.
      * apply Forall_app. split; auto.
      * exists l1, l2. split; [|auto].
        rewrite <- Heq. rewrite <- app_assoc. reflexivity.
Qed.

Lemma scores_of_cons (combined label : str) (keywords : list str)
  (types : list (str * list str)) :
  scores_of ((label, keywords) :: types) combined
  = (if 0 <? keyword_score combined keywords
     then [(label, keyword_score combined keywords)] else [])
    ++ scores_of types combined.
Proof. reflexivity. Qed.

(** An entry of [scores] comes from a row of the table, and the entries
    around it from the rows around that row. *)
Lemma scores_of_split (combined : str) (types : list (str * list str))
  (l1 l2 : list (str * nat)) (label : str) (score : nat) :
  scores_of types combined = l1 ++ (label, score) :: l2 ->
  exists before keywords after,
    types = before ++ (label, keywords) :: after /\
    score = keyword_score combined keywords /\ 0 < score /\
    scores_of before combined = l1 /\ scores_of after combined = l2.
Proof.
  revert l1. induction types as [|[lab kws] types IH]; intros l1 H.
  - destruct l1; discriminate.
  - rewrite scores_of_cons in H.
    destruct (0 <? keyword_score combined kws) eqn:E.
    + destruct l1 as [|y l1]; cbn [app] in H.
      * injection H as Hlab Hscore Hrest. apply Nat.ltb_lt in E. subst label score.
        exists [], kws, types. repeat split; auto.
      * injection H as <- Hrest.
        destruct (IH l1 Hrest) as [b [k [a [-> [Hs [Hp [Hb Ha]]]]]]].
        exists ((lab, kws) :: b), k, a. repeat split; auto.
        rewrite scores_of_cons, E, Hb. reflexivity.
    + cbn [app] in H.
      destruct (IH l1 H) as [b [k [a [-> [Hs [Hp [Hb Ha]]]]]]].
      exists ((lab, kws) :: b), k, a. repeat split; auto.
      rewrite scores_of_cons, E, Hb. reflexivity.
Qed.

Lemma scores_of_bound (combined : str) (types : list (str * list str)) (bound : nat)
  (P : nat -> nat -> Prop) :
  (forall n, 0 < bound -> n = 0 -> P n bound) ->
  Forall (fun x => P (snd x) bound) (scores_of types combined) ->
  0 < bound ->
  Forall (fun tk => P (keyword_score combined (snd tk)) bound) types.
Proof.
  intros Hzero H Hb. induction types as [|[lab kws] types IH]; [constructor|].
  rewrite scores_of_cons in H.
  destruct (0 <? keyword_score combined kws) eqn:E; cbn [app] in H.
  - inversion H; subst. constructor; auto.
  - apply Nat.ltb_ge in E. constructor; auto.
    cbn [snd]. apply Hzero; [exact Hb | lia].
Qed.

Lemma scores_of_nil (combined : str) (types : list (str * list str)) :
  scores_of types combined = [] ->
  Forall (fun tk => keyword_score combined (snd tk) = 0) types.
Proof.
  induction types as [|[lab kws] types IH]; [constructor|].
  rewrite scores_of_cons.
  destruct (0 <? keyword_score combined kws) eqn:E; cbn [app]; [discriminate|].
  apply Nat.ltb_ge in E. intros H. constructor; [cbn [snd]; lia | auto].
Qed.

(** C7.  The score of a label is the number of its keywords that occur,
    lower-cased, in the lower-cased "filename text"; the keywords of a
    label are pairwise different.  Either every label scores 0 and the
    result is the fallback with "Low", or the result is the first label
    of greatest score in table order, with "High" from 3, "Medium" at 2
    and "Low" at 1. *)
Theorem classify_document_spec (filename text : str) :
  let combined := lower (filename ++ u " " ++ text) in
  let score := fun keywords : list str =>
    length (filter (fun kw => contains (lower kw) combined) keywords) in
  Forall (fun tk => NoDup (snd tk)) DOCUMENT_TYPES /\
  ((Forall (fun tk => score (snd tk) = 0) DOCUMENT_TYPES /\
    classify_document filename text = (u "Unclassified Legal Document", u "Low"))
   \/
   exists before label keywords after,
     DOCUMENT_TYPES = before ++ (label, keywords) :: after /\
     0 < score keywords /\
     Forall (fun tk => score (snd tk) < score keywords) before /\
     Forall (fun tk => score (snd tk) <= score keywords) after /\
     classify_document filename text
     = (label,
        if 3 <=? score keywords then u "High"
        else if 2 <=? score keywords then u "Medium" else u "Low")).
Proof.
  intros combined score. split.
  { repeat (constructor; [vm_compute; repeat constructor; simpl; intuition discriminate|]).
    constructor. }
  unfold classify_document. fold (combined_text filename text).
  change (combined_text filename text) with combined.
  destruct (scores_of DOCUMENT_TYPES combined) as [|first others] eqn:E.
  - left. split; [|reflexivity]. exact (scores_of_nil _ _ E).
  - right.
    destruct (max_first_split others [] [] first) as [l1 [l2 [Heq [H1 H2]]]];
      [constructor | constructor |].
    cbn [app] in Heq. rewrite Heq in E.
    destruct (max_first first others) as [label sc] eqn:Eb. cbn [fst snd] in H1, H2 |- *.
    destruct (scores_of_split _ _ _ _ _ _ E) as [b [k [a [Ht [Hs [Hp [Hb Ha]]]]]]].
    exists b, label, k, a.
    change (score k) with (keyword_score combined k). rewrite <- Hs.
    split; [exact Ht|]. split; [exact Hp|].
    split; [|split; [|reflexivity]].
    + apply (scores_of_bound combined b sc (fun n m => n < m)); [intros; lia| |exact Hp].
      rewrite Hb. exact H1.
    + apply (scores_of_bound combined a sc (fun n m => n <= m)); [intros; lia| |exact Hp].
      rewrite Ha. exact H2.
Qed.

End Classifier.

(* ================================================================= *)
(** ** Chunked translator *)

Section Chunks.
Import AnalyzeDocs.
Local Open Scope Z_scope.

Lemma rfind_range (s sub : str) (a b : Z) :
  rfind s sub a b = -1 \/
  (norm_index (Z.of_nat (length s)) a <= rfind s sub a b /\
   rfind s sub a b + Z.of_nat (length sub) <= norm_index (Z.of_nat (length s)) b).
Proof.
  unfold rfind.
  set (keep := fun i : nat => _).
  destruct (rev (filter keep (occurrences sub s 0))) as [|i l] eqn:E; [now left|].
  right.
  assert (Hin : In i (filter keep (occurrences sub s 0))).
  { apply in_rev. rewrite E. now left. }
  apply filter_In in Hin. destruct Hin as [_ Hk]. unfold keep in Hk.
  apply andb_true_iff in Hk. destruct Hk as [H1 H2].
  apply Z.leb_le in H1. apply Z.leb_le in H2. lia.
Qed.

Variable translator : translator_t.
Variable text : str.
Variables chunk_size overlap : Z.

Let len : Z := Z.of_nat (length text).

Lemma chunk_loop_chain (fuel : nat) :
  forall start ts ws ts' ws',
    chunk_loop fuel translator text chunk_size overlap start ts ws = Some (ts', ws') ->
    exists new,
      ws' = ws ++ new /\ ts' = ts ++ pieces translator text new /\
      chain text chunk_size overlap start new.
Proof.
  induction fuel as [|fuel IH]; intros start ts ws ts' ws' H; [discriminate|].
  cbn [chunk_loop] in H. fold len in H.
  destruct (start <? len) eqn:E.
  - apply IH in H. destruct H as [new [-> [-> Hc]]].
    exists ((start, chunk_end text chunk_size start) :: new).
    rewrite <- !app_assoc. split; [reflexivity|]. split; [reflexivity|].
    cbn [chain]. apply Z.ltb_lt in E. auto.
  - injection H as <- <-. exists []. rewrite !app_nil_r. repeat split.
Qed.

Lemma chunk_loop_more_fuel (fuel extra : nat) :
  forall start ts ws r,
    chunk_loop fuel translator text chunk_size overlap start ts ws = Some r ->
    chunk_loop (fuel + extra) translator text chunk_size overlap start ts ws = Some r.
Proof.
  induction fuel as [|fuel IH]; intros start ts ws r H; [discriminate|].
  cbn [chunk_loop Nat.add] in H |- *.
  destruct (start <? Z.of_nat (length text)); [apply IH|]; exact H.
Qed.

(** Two chunks in a row: the second starts where [next_start] says, and
    that is inside the text. *)
Lemma chain_link (ws : list (Z * Z)) :
  forall start i s e s' e',
    chain text chunk_size overlap start ws ->
    nth_error ws i = Some (s, e) ->
    nth_error ws (S i) = Some (s', e') ->
    e = chunk_end text chunk_size s /\
    s' = (if s =? 0 then e else e - overlap).
Proof.
  induction ws as [|[s0 e0] ws IH]; intros start i s e s' e' Hc Hi Hi';
    [destruct i; discriminate|].
  cbn [chain] in Hc. destruct Hc as [-> [Hlt [-> Hc]]].
  destruct i as [|i].
  - cbn in Hi. injection Hi as <- <-.
    destruct ws as [|[s1 e1] ws]; [discriminate|].
    cbn in Hi'. injection Hi' as <- <-.
    cbn [chain] in Hc. destruct Hc as [-> [Hlt' _]].
    split; [reflexivity|].
    unfold next_start in *. fold len in Hlt' |- *.
    destruct (start =? 0); [reflexivity|].
    destruct (chunk_end text chunk_size start <? len) eqn:E; [reflexivity|].
    apply Z.ltb_ge in E. lia.
  - cbn [nth_error] in Hi, Hi'. exact (IH _ i s e s' e' Hc Hi Hi').
Qed.

Hypothesis overlap_nonneg : 0 <= overlap.
Hypothesis chunk_size_large : overlap + 200 <= chunk_size.

(** With these sizes the right edge lies inside the text and the next
    cursor is strictly after the current one. *)
Lemma chunk_end_bounds (start : Z) :
  0 <= start < len ->
  start < chunk_end text chunk_size start <= len /\
  (chunk_end text chunk_size start < len ->
   start + overlap < chunk_end text chunk_size start).
Proof.
  intros Hs. unfold chunk_end. fold len.
  set (e0 := Z.min (start + chunk_size) len).
  assert (He0 : start < e0 <= len) by (unfold e0; lia).
  destruct (e0 <? len) eqn:E; [|lia].
  apply Z.ltb_lt in E.
  assert (He0' : e0 = start + chunk_size) by (unfold e0; lia).
  destruct (rfind_range text (u ".") (e0 - 200) e0) as [Hr|[Hlo Hhi]].
  - rewrite Hr. change (start <? -1) with (start <? -1).
    destruct (start <? -1) eqn:E'; [apply Z.ltb_lt in E'; lia|]. lia.
  - fold len in Hlo, Hhi.
    assert (Ha : norm_index len (e0 - 200) = e0 - 200).
    { unfold norm_index. destruct (e0 - 200 <? 0) eqn:E'; [apply Z.ltb_lt in E'|]; lia. }
    assert (Hb : norm_index len e0 = e0).
    { unfold norm_index. destruct (e0 <? 0) eqn:E'; [apply Z.ltb_lt in E'|]; lia. }
    rewrite Ha in Hlo. rewrite Hb in Hhi.
    change (Z.of_nat (length (u "."))) with 1 in Hhi.
    destruct (start <? rfind text (u ".") (e0 - 200) e0) eqn:E'; lia.
Qed.

Lemma next_start_advances (start : Z) :
  0 <= start < len ->
  start < next_start text overlap start (chunk_end text chunk_size start).
Proof.
  intros Hs. destruct (chunk_end_bounds start Hs) as [Hb Hov].
  unfold next_start. fold len.
  destruct (start =? 0); [lia|].
  destruct (chunk_end text chunk_size start <? len) eqn:E; [|lia].
  apply Z.ltb_lt in E. specialize (Hov E). lia.
Qed.

Lemma chunk_loop_returns (fuel : nat) :
  forall start ts ws,
    0 <= start ->
    (Z.to_nat (len - start) < fuel)%nat ->
    exists r, chunk_loop fuel translator text chunk_size overlap start ts ws = Some r.
Proof.
  induction fuel as [|fuel IH]; intros start ts ws H0 Hf; [lia|].
  cbn [chunk_loop]. fold len.
  destruct (start <? len) eqn:E; [|eauto].
  apply Z.ltb_lt in E.
  pose proof (next_start_advances start (conj H0 E)) as Hadv.
  apply IH; lia.
Qed.

(** In a chain from a cursor that is not negative, a chunk that has a
    successor ends before the end of the text, and every later chunk
    starts after the cursor. *)
Lemma chain_successor (ws : list (Z * Z)) :
  forall start i s e s' e',
    0 <= start ->
    chain text chunk_size overlap start ws ->
    nth_error ws i = Some (s, e) ->
    nth_error ws (S i) = Some (s', e') ->
    e = chunk_end text chunk_size s /\
    s' = next_start text overlap s e /\
    s' < len /\ start <= s /\ (i <> 0%nat -> start < s).
Proof.
  induction ws as [|[s0 e0] ws IH]; intros start i s e s' e' H0 Hc Hi Hi';
    [destruct i; discriminate|].
  cbn [chain] in Hc. destruct Hc as [-> [Hlt [-> Hc]]].
  pose proof (next_start_advances start (conj H0 Hlt)) as Hadv.
  destruct i as [|i].
  - cbn in Hi. injection Hi as <- <-.
    destruct ws as [|[s1 e1] ws]; [discriminate|].
    cbn in Hi'. injection Hi' as <- <-.
    cbn [chain] in Hc. destruct Hc as [-> [Hlt' _]].
    repeat split; auto; lia.
  - cbn [nth_error] in Hi, Hi'.
    assert (H0' : 0 <= next_start text overlap start (chunk_end text chunk_size start))
      by lia.
    destruct (IH _ i s e s' e' H0' Hc Hi Hi') as [He [Hs' [Hl [Hle _]]]].
    repeat split; auto; lia.
Qed.

End Chunks.

Section ChunkedTranslation.
Import AnalyzeDocs Samples.
Local Open Scope Z_scope.

(** C5, as the code has it.  Whatever the sizes, in a run that returns,
    every chunk ends at its snapped right edge, and the chunk after it
    starts at that edge when the chunk itself started at offset 0, and
    [overlap] characters before that edge otherwise.  For a text longer
    than [chunk_size], with [0 <= overlap] and [overlap + 200 <=
    chunk_size] (the defaults are 1200 and 100), the run returns the
    translations of its chunks joined by blanks, and only the first chunk
    starts at offset 0: the second chunk starts at the snapped edge of
    the first, without overlap, and every later chunk starts [overlap]
    characters before the snapped edge of the chunk before it. *)
Theorem chunk_starts (translator : translator_t) (text : str) (chunk_size overlap : Z) :
  (forall fuel ws i s e s' e',
     chunk_windows fuel translator text chunk_size overlap = Some ws ->
     nth_error ws i = Some (s, e) ->
     nth_error ws (S i) = Some (s', e') ->
     e = chunk_end text chunk_size s /\
     s' = (if s =? 0 then e else e - overlap)) /\
  (0 <= overlap -> overlap + 200 <= chunk_size ->
   chunk_size < Z.of_nat (length text) ->
   exists ws,
     (forall fuel, (length text < fuel)%nat ->
        chunk_windows fuel translator text chunk_size overlap
          = Some ((0, chunk_end text chunk_size 0) :: ws) /\
        translate_in_chunks fuel translator text chunk_size overlap
          = Some (Returned (join (u " ")
                    (pieces translator text ((0, chunk_end text chunk_size 0) :: ws))))) /\
     forall i s e s' e',
       nth_error ((0, chunk_end text chunk_size 0) :: ws) i = Some (s, e) ->
       nth_error ((0, chunk_end text chunk_size 0) :: ws) (S i) = Some (s', e') ->
       e = chunk_end text chunk_size s /\
       s' = (if (i =? 0)%nat then e else e - overlap)).
Proof.
  split.
  { intros fuel ws i s e s' e' Hw Hi Hi'. unfold chunk_windows in Hw.
    destruct (chunk_loop fuel translator text chunk_size overlap 0 [] [])
      as [[ts ws0]|] eqn:Hr; [|discriminate].
    cbn in Hw. injection Hw as ->.
    destruct (chunk_loop_chain _ _ _ _ _ _ _ _ _ _ Hr) as [new [Hws [_ Hch]]].
    cbn [app] in Hws. subst new.
    exact (chain_link text chunk_size overlap ws 0 i s e s' e' Hch Hi Hi'). }
  intros Ho Hc Hlen.
  destruct (chunk_loop_returns translator text chunk_size overlap Ho Hc
              (S (length text)) 0 [] []) as [[ts ws] Hr]; [lia | lia |].
  destruct (chunk_loop_chain _ _ _ _ _ _ _ _ _ _ Hr) as [new [Hws [Hts Hch]]].
  cbn [app] in Hws, Hts. subst ws ts.
  destruct new as [|[s0 e0] new].
  { cbn [chunk_loop] in Hr.
    destruct (0 <? Z.of_nat (length text)) eqn:E; [|apply Z.ltb_ge in E; lia].
    apply chunk_loop_chain in Hr. destruct Hr as [n [Hn _]].
    destruct n; discriminate. }
  pose proof Hch as Hch0. cbn [chain] in Hch0. destruct Hch0 as [-> [_ [-> _]]].
  exists new. split.
  - intros fuel Hf.
    assert (Hloop : chunk_loop fuel translator text chunk_size overlap 0 [] []
                    = Some (pieces translator text ((0, chunk_end text chunk_size 0) :: new),
                            (0, chunk_end text chunk_size 0) :: new)).
    { replace fuel with (S (length text) + (fuel - S (length text)))%nat by lia.
      now apply chunk_loop_more_fuel. }
    unfold chunk_windows, translate_in_chunks. rewrite Hloop.
    split; [reflexivity|].
    destruct (Z.of_nat (length text) <=? chunk_size) eqn:E;
      [apply Z.leb_le in E; lia | reflexivity].
  - intros i s e s' e' Hi Hi'.
    destruct (chain_link text chunk_size overlap _ 0 i s e s' e' Hch Hi Hi') as [He Hs'].
    destruct (chain_successor text chunk_size overlap Ho Hc _ 0 i s e s' e'
                (Z.le_refl 0) Hch Hi Hi') as [_ [_ [_ [_ Hlt]]]].
    split; [exact He|]. rewrite Hs'.
    destruct i as [|i].
    + cbn in Hi. injection Hi as <- <-. reflexivity.
    + cbn [Nat.eqb].
      destruct (s =? 0) eqn:E0; [apply Z.eqb_eq in E0|reflexivity].
      assert (0 < s) by (apply Hlt; discriminate). lia.
Qed.

Lemma chunk_starts_witness :
  exists ws,
    (forall fuel, (length long_text < fuel)%nat ->
       chunk_windows fuel echo long_text 1200 100
         = Some ((0, chunk_end long_text 1200 0) :: ws) /\
       translate_in_chunks fuel echo long_text 1200 100
         = Some (Returned (join (u " ")
                   (pieces echo long_text ((0, chunk_end long_text 1200 0) :: ws))))) /\
    forall i s e s' e',
      nth_error ((0, chunk_end long_text 1200 0) :: ws) i = Some (s, e) ->
      nth_error ((0, chunk_end long_text 1200 0) :: ws) (S i) = Some (s', e') ->
      e = chunk_end long_text 1200 s /\
      s' = (if (i =? 0)%nat then e else e - 100).
Proof.
  apply (proj2 (chunk_starts echo long_text 1200 100)); vm_compute; congruence.
Defined.

(** With the default sizes, the second chunk of a 2500-character text
    starts at 1200, where the first one ends, and not at 1100. *)
Lemma second_chunk_has_no_overlap :
  exists first second rest,
    chunk_windows 10 echo long_text default_chunk_size default_overlap
      = Some (first :: second :: rest) /\
    first = (0, 1200) /\ second = (1200, 2400) /\
    fst second <> snd first - default_overlap.
Proof.
  exists (0, 1200), (1200, 2400), [(2300, 2500)].
  repeat split; vm_compute; congruence.
Qed.

(** C6, as the code has it.  With [0 <= overlap] and
    [overlap + 200 <= chunk_size] (the defaults are 1200 and 100) the
    function returns on every text, and at every cursor inside the text
    the next cursor is strictly greater.  Nothing validates the sizes. *)
Theorem translate_in_chunks_terminates
  (translator : translator_t) (text : str) (chunk_size overlap : Z) :
  0 <= overlap -> overlap + 200 <= chunk_size ->
  (exists result, forall fuel, (length text < fuel)%nat ->
     translate_in_chunks fuel translator text chunk_size overlap = Some result) /\
  (forall start, 0 <= start < Z.of_nat (length text) ->
     start < next_start text overlap start (chunk_end text chunk_size start)).
Proof.
  intros Ho Hc. split.
  - unfold translate_in_chunks.
    destruct (Z.of_nat (length text) <=? chunk_size); [eauto|].
    destruct (chunk_loop_returns translator text chunk_size overlap Ho Hc
                (S (length text)) 0 [] []) as [[ts ws] Hr]; [lia | lia |].
    exists (Returned (join (u " ") ts)). intros fuel Hf.
    replace fuel with (S (length text) + (fuel - S (length text)))%nat by lia.
    now rewrite (chunk_loop_more_fuel _ _ _ _ _ _ _ _ _ _ Hr).
  - intros start Hs. now apply next_start_advances.
Qed.

Lemma translate_in_chunks_terminates_witness :
  (exists result, forall fuel, (length long_text < fuel)%nat ->
     translate_in_chunks fuel echo long_text 1200 100 = Some result) /\
  (forall start, 0 <= start < Z.of_nat (length long_text) ->
     start < next_start long_text 100 start (chunk_end long_text 1200 start)).
Proof.
  apply (translate_in_chunks_terminates echo long_text 1200 100); vm_compute; congruence.
Defined.

Lemma zero_chunk_size_loop (fuel : nat) :
  forall ts ws, chunk_loop fuel echo (u "a") 0 default_overlap 0 ts ws = None.
Proof.
  induction fuel as [|fuel IH]; intros ts ws; [reflexivity|].
  cbn [chunk_loop].
  replace (0 <? Z.of_nat (length (u "a"))) with true by (vm_compute; reflexivity).
  replace (chunk_end (u "a") 0 0) with 0 by (vm_compute; reflexivity).
  replace (next_start (u "a") default_overlap 0 0) with 0 by (vm_compute; reflexivity).
  apply IH.
Qed.

(** With chunk size 0 the text "a", which has no period, is not rejected:
    the loop is entered, the cursor stays at 0, and no amount of fuel
    lets the run return. *)
Lemma zero_chunk_size_never_returns :
  next_start (u "a") default_overlap 0 (chunk_end (u "a") 0 0) = 0 /\
  ~ exists fuel result,
      translate_in_chunks fuel echo (u "a") 0 default_overlap = Some result.
Proof.
  split; [vm_compute; reflexivity|].
  intros [fuel [result H]]. unfold translate_in_chunks in H.
  replace (Z.of_nat (length (u "a")) <=? 0) with false in H by (vm_compute; reflexivity).
  rewrite zero_chunk_size_loop in H. discriminate.
Qed.

End ChunkedTranslation.

(* ================================================================= *)
(** ** Repetition suppressor: when a repeated phrase truncates *)

Section Counting.
Import AnalyzeDocs.













End Counting.

Section RepeatedPhrase.
Import AnalyzeDocs Samples.





End RepeatedPhrase.

(* ================================================================= *)
(** ** The searches of [sort_key] *)

Section SortKeyPatterns.

Lemma dotted_number_re_compiled :
  compile_i "\.?(\d+)pdf\.pdf$" = Pattern dotted_number_re 1 true.
Proof. vm_compute. reflexivity. Qed.

Lemma spaced_number_re_compiled :
  compile_i "\s+(\d{1,2})\.pdf$" = Pattern spaced_number_re 1 true.
Proof. vm_compute. reflexivity. Qed.

Lemma number_pattern_re_compiled :
  compile_i "(\d+pdf\.pdf$|\s+\d{1,2}\.pdf$)" = Pattern number_pattern_re 1 true.
Proof. vm_compute. reflexivity. Qed.

Ltac all_chars c := destruct c as [[] [] [] [] [] [] [] []].

Lemma digit_class (c : ascii) : set_match true [CDigit] c = isdecimal c.
Proof. all_chars c; reflexivity. Qed.

Lemma space_class (c : ascii) : set_match true [CSpace] c = isspace c.
Proof. all_chars c; reflexivity. Qed.

Lemma dot_literal (c : ascii) : lit_match true "." c = true -> c = "."%char.
Proof. all_chars c; intros H; try discriminate H; reflexivity. Qed.

Lemma space_not_decimal (c : ascii) : isspace c = true -> isdecimal c = false.
Proof. all_chars c; intros H; try discriminate H; reflexivity. Qed.

Lemma lits_lower (l cs : str) :
  Forall2 (fun p c => lit_match true p c = true) l cs <-> lower cs = lower l.
Proof.
  split.
  - induction 1 as [|p c l cs Hp _ IH]; [reflexivity|].
    cbn [lower map] in *. f_equal; [|exact IH].
    unfold lit_match in Hp. apply Ascii.eqb_eq in Hp. congruence.
  - revert l. induction cs as [|c cs IH]; intros [|p l] H; try discriminate; constructor.
    + cbn in H. injection H as Hc _. unfold lit_match. apply Ascii.eqb_eq. congruence.
    + apply IH. cbn in H. injection H as _ H. exact H.
Qed.

Lemma decimal_forall (cs : str) :
  Forall (fun c => set_match true [CDigit] c = true) cs <-> all_decimal cs.
Proof.
  unfold all_decimal. split; intros H; eapply Forall_impl; try exact H;
    cbv beta; intros c; rewrite digit_class; auto.
Qed.

Lemma space_forall (cs : str) :
  Forall (fun c => set_match true [CSpace] c = true) cs <->
  Forall (fun c => isspace c = true) cs.
Proof.
  split; intros H; eapply Forall_impl; try exact H;
    cbv beta; intros c; rewrite space_class; auto.
Qed.

(** *** One match of each pattern *)

Lemma digits_then_suffix_inv (suffix_lit : str) (lo : nat) (hi : option nat)
  (st st2 st' : mstate) :
  ms true (Rep (CharSet [CDigit]) lo hi) st st2 ->
  ms true (seq_lits suffix_lit Eos) (with_cap 1 st st2) st' \/
  ms true (seq_lits suffix_lit Eos) st2 st' ->
  exists digits suffix tail,
    rest st = digits ++ suffix ++ tail /\
    all_decimal digits /\ lo <= length digits /\
    (forall h, hi = Some h -> length digits <= h) /\
    lower suffix = lower suffix_lit /\ at_end tail /\
    pos st2 = length digits + pos st /\ caps st2 = caps st.
Proof.
  intros Hd Hs.
  destruct (ms_rep_single_inv true (CharSet [CDigit]) (set_match true [CDigit]) eq_refl _ _ _ _ Hd)
    as [digits [rr [Hr [Hall [Hlo [Hhi ->]]]]]].
  assert (Hs' : exists cs rr', rr = cs ++ rr' /\ lower cs = lower suffix_lit /\ at_end rr').
  { destruct Hs as [Hs|Hs];
      destruct (ms_lits_inv true _ _ _ _ Hs) as [cs [rr' [Hr' [Hl He]]]];
      apply ms_eos_inv in He; destruct He as [_ He];
      exists cs, rr'; (split; [exact Hr'|]); (split; [now apply lits_lower|exact He]). }
  destruct Hs' as [cs [rr' [-> [Hl He]]]].
  exists digits, cs, rr'. repeat split; auto.
  now apply decimal_forall.
Qed.

Lemma digits_then_suffix_intro (suffix_lit : str) (lo : nat) (hi : option nat)
  (st : mstate) (digits suffix tail : str) :
  rest st = digits ++ suffix ++ tail ->
  all_decimal digits -> lo <= length digits ->
  (forall h, hi = Some h -> length digits <= h) ->
  lower suffix = lower suffix_lit -> at_end tail ->
  let st2 := after st digits (suffix ++ tail) (caps st) in
  ms true (Rep (CharSet [CDigit]) lo hi) st st2 /\
  (exists st', ms true (seq_lits suffix_lit Eos) st2 st') /\
  (exists st', ms true (seq_lits suffix_lit Eos) (with_cap 1 st st2) st').
Proof.
  intros Hr Hall Hlo Hhi Hl He st2. split; [|split].
  - apply (ms_rep_single_intro true (CharSet [CDigit]) (set_match true [CDigit]) eq_refl); auto.
    now apply decimal_forall.
  - eexists. apply (ms_lits_intro true _ _ suffix st2 tail); [reflexivity| |].
    + now apply lits_lower.
    + apply ms_eos_intro. exact He.
  - eexists. apply (ms_lits_intro true _ _ suffix (with_cap 1 st st2) tail); [reflexivity| |].
    + now apply lits_lower.
    + apply ms_eos_intro. exact He.
Qed.


Lemma ms_cat_inv (ic : bool) (r1 r2 : regex) (st st' : mstate) :
  ms ic (Cat r1 r2) st st' -> exists st1, ms ic r1 st st1 /\ ms ic r2 st1 st'.
Proof. intros H. inversion H; subst. eauto. Qed.

Lemma ms_grp_inv (ic : bool) (n : nat) (r : regex) (st st' : mstate) :
  ms ic (Grp n r) st st' -> exists st1, ms ic r st st1 /\ st' = with_cap n st st1.
Proof. intros H. inversion H; subst. eauto. Qed.

Lemma ms_alt_inv (ic : bool) (r1 r2 : regex) (st st' : mstate) :
  ms ic (Alt r1 r2) st st' -> ms ic r1 st st' \/ ms ic r2 st st'.
Proof. intros H. inversion H; subst; auto. Qed.

Lemma lits_eos_caps (l : str) (st st' : mstate) :
  ms true (seq_lits l Eos) st st' -> caps st' = caps st.
Proof.
  intros H. destruct (ms_lits_inv true _ _ _ _ H) as [cs [rr [_ [_ He]]]].
  apply ms_eos_inv in He. destruct He as [-> _]. reflexivity.
Qed.

Lemma slice_middle (x y z : str) (a b : nat) :
  a = length x -> b = length y + a -> firstn (b - a) (skipn a (x ++ y ++ z)) = y.
Proof.
  intros -> ->. replace (length y + length x - length x) with (length y) by lia.
  rewrite skipn_app, skipn_all, Nat.sub_diag. cbn [skipn app].
  rewrite firstn_app, firstn_all, Nat.sub_diag. cbn [firstn]. apply app_nil_r.
Qed.

Lemma dotted_number_re_inv (p : option ascii) (s : str) (i : nat) (st' : mstate) :
  ms true dotted_number_re (MState p s i []) st' ->
  exists dot digits suffix tail,
    s = dot ++ digits ++ suffix ++ tail /\
    (dot = [] \/ dot = ["."%char]) /\ digits <> [] /\ all_decimal digits /\
    lower suffix = u "pdf.pdf" /\ at_end tail /\
    caps st' = [(1, (length dot + i, length digits + (length dot + i)))].
Proof.
  intros H. unfold dotted_number_re in H.
  apply ms_cat_inv in H. destruct H as [st1 [Hdot H]].
  apply ms_cat_inv in H. destruct H as [st2 [Hg Hs]].
  apply ms_grp_inv in Hg. destruct Hg as [st3 [Hd ->]].
  destruct (ms_rep_single_inv true (Lit ".") (lit_match true ".") eq_refl _ _ _ _ Hdot)
    as [dot [rr [Hr [Hall [_ [Hhi ->]]]]]].
  cbn [rest] in Hr. subst s.
  pose proof (lits_eos_caps _ _ _ Hs) as Hc.
  destruct (digits_then_suffix_inv _ _ _ _ _ _ Hd (or_introl Hs))
    as [digits [suffix [tail [Hr [Hdec [Hlo [_ [Hl [He [Hp Hcaps]]]]]]]]]].
  cbn [rest after] in Hr. subst rr.
  exists dot, digits, suffix, tail. repeat split; auto.
  - specialize (Hhi 1 eq_refl).
    destruct dot as [|c [|d dot]]; [now left| |cbn in Hhi; lia].
    right. inversion Hall as [|? ? Hc' _]; subst. now rewrite (dot_literal _ Hc').
  - intros ->. cbn in Hlo. lia.
  - rewrite Hc. unfold with_cap. cbn [caps pos after] in *. rewrite Hp, Hcaps. reflexivity.
Qed.

Lemma dotted_number_re_intro (p : option ascii) (i : nat) (dot digits suffix tail : str) :
  (dot = [] \/ dot = ["."%char]) -> digits <> [] -> all_decimal digits ->
  lower suffix = u "pdf.pdf" -> at_end tail ->
  exists st', ms true dotted_number_re (MState p (dot ++ digits ++ suffix ++ tail) i []) st'.
Proof.
  intros Hdot Hne Hdec Hl He.
  set (st := MState p (dot ++ digits ++ suffix ++ tail) i []).
  set (st1 := after st dot (digits ++ suffix ++ tail) (caps st)).
  assert (H1 : ms true (Rep (Lit ".") 0 (Some 1)) st st1).
  { apply (ms_rep_single_intro true (Lit ".") (lit_match true ".") eq_refl);
      [reflexivity| |lia|].
    - destruct Hdot as [-> | ->]; repeat constructor.
    - intros h Hh. injection Hh as <-. destruct Hdot as [-> | ->]; cbn; lia. }
  destruct (digits_then_suffix_intro (u "pdf.pdf") 1 None st1 digits suffix tail)
    as [Hd [_ [st' Hs]]]; auto.
  - destruct digits; [congruence|cbn; lia].
  - discriminate.
  - exists st'. unfold dotted_number_re.
    eapply ms_cat; [exact H1|]. eapply ms_cat; [|exact Hs]. constructor. exact Hd.
Qed.

Lemma re_search_compiled (src : string) (r : regex) (n : nat) (ic : bool) (s : str) :
  (if ic then compile_i src else compile src) = Pattern r n ic ->
  re_search (if ic then compile_i src else compile src) s = search_from ic r None s 0.
Proof. intros ->. reflexivity. Qed.

Lemma last_char_cases (pre : str) : pre = [] \/ exists pre1 d, pre = pre1 ++ [d].
Proof.
  destruct pre as [|a pre]; [now left|]. right.
  assert (Hne : a :: pre <> []) by discriminate.
  destruct (exists_last Hne) as [pre1 [d ->]]. eauto.
Qed.

(** The first search of [sort_key] finds the digits of a dotted page. *)
Lemma explicit_page_number_sound (filename : str) (n : Z) :
  AnalyzeDocsClaude.explicit_page_number filename = Some n ->
  exists digits, dotted_page filename digits /\ n = int digits.
Proof.
  unfold AnalyzeDocsClaude.explicit_page_number.
  rewrite (re_search_compiled _ _ _ true filename dotted_number_re_compiled).
  destruct (search_from true dotted_number_re None filename 0) as [m|] eqn:E; [|discriminate].
  intros H. injection H as <-.
  destruct (search_from_Some true _ _ _ _ _ E) as [pre [suf [-> [Hm Hmin]]]].
  destruct (match_at_sound true _ _ _ _ _ Hm) as [st' [Hms ->]].
  destruct (dotted_number_re_inv _ _ _ _ Hms)
    as [dot [digits [suffix [tail [-> [Hdot [Hne [Hdec [Hl [He Hc]]]]]]]]]].
  exists digits. split.
  - exists (pre ++ dot), suffix, tail. rewrite <- app_assoc. repeat split; auto.
    intros pre1 d Hpre.
    destruct Hdot as [-> | ->].
    + rewrite app_nil_r in Hpre. subst pre.
      destruct (isdecimal d) eqn:Ed; [|reflexivity]. exfalso.
      destruct (dotted_number_re_intro (prev_of None pre1) (length pre1 + 0) []
                  (d :: digits) suffix tail)
        as [st1 Hst1]; auto; try discriminate.
      { constructor; auto. }
      apply match_at_complete in Hst1. apply Hst1.
      apply Hmin; [cbn; now rewrite <- app_assoc|rewrite length_app; cbn; lia].
    + apply app_inj_tail in Hpre. destruct Hpre as [_ <-]. reflexivity.
  - unfold group. cbn [m_caps lookup_cap Nat.eqb]. rewrite Hc. cbn [lookup_cap Nat.eqb].
    f_equal. rewrite app_assoc. apply slice_middle.
    + rewrite length_app. lia.
    + reflexivity.
Qed.

(** *** Uniqueness of the decompositions *)

Lemma app_same_length (a x b y : str) :
  a ++ x = b ++ y -> length x = length y -> a = b /\ x = y.
Proof.
  intros H Hl. apply app_eq_app in H.
  destruct H as [l [[-> ->]|[-> ->]]]; rewrite length_app in Hl;
    (assert (l = []) by (destruct l; [reflexivity|cbn in Hl; lia])); subst l;
    rewrite app_nil_r; auto.
Qed.

Lemma decimal_run_unique (a x b y : str) :
  a ++ x = b ++ y -> all_decimal x -> all_decimal y ->
  no_digit_before a -> no_digit_before b -> x = y.
Proof.
  assert (G : forall (x b l : str),
             all_decimal (l ++ x) -> no_digit_before (b ++ l) -> l = []).
  { intros x0 b0 l Hd Hn.
    destruct (last_char_cases l) as [->|[l1 [d ->]]]; [reflexivity|].
    exfalso.
    assert (Hd' : isdecimal d = true).
    { unfold all_decimal in Hd. rewrite Forall_forall in Hd. apply Hd.
      apply in_or_app. left. apply in_or_app. right. now left. }
    rewrite (Hn (b0 ++ l1) d) in Hd'; [discriminate|now rewrite app_assoc]. }
  intros H Hx Hy Ha Hb. apply app_eq_app in H.
  destruct H as [l [[Ea Ey]|[Eb Ex]]].
  - subst a y. rewrite (G x b l Hy Ha). reflexivity.
  - subst b x. rewrite (G y a l Hx Hb). reflexivity.
Qed.

Lemma lower_newline (c : ascii) : lower_char c = newline -> c = newline.
Proof. all_chars c; intros H; try discriminate H; reflexivity. Qed.

Lemma suffix_end_unique (lit X suffix tail X' suffix' tail' : str) :
  X ++ suffix ++ tail = X' ++ suffix' ++ tail' ->
  lit <> [] -> ~ In newline lit ->
  lower suffix = lit -> lower suffix' = lit ->
  at_end tail -> at_end tail' ->
  X = X'.
Proof.
  intros H Hne Hnl Hl Hl' He He'.
  assert (Hno : forall s, lower s = lit -> ~ In newline s).
  { intros s Hs Hin. apply Hnl. rewrite <- Hs. unfold lower.
    apply in_map_iff. exists newline. split; [reflexivity|exact Hin]. }
  assert (Hlast : forall s, lower s = lit -> exists s0 c, s = s0 ++ [c] /\ c <> newline).
  { intros s Hs. destruct (last_char_cases s) as [->|[s0 [c ->]]].
    - cbn in Hs. congruence.
    - exists s0, c. split; [reflexivity|]. intros ->. apply (Hno _ Hs).
      apply in_or_app. right. now left. }
  assert (Hlen : length suffix = length suffix').
  { rewrite <- (length_map lower_char suffix), <- (length_map lower_char suffix').
    fold (lower suffix) (lower suffix'). congruence. }
  destruct (Hlast _ Hl) as [s0 [c [Es Hc]]], (Hlast _ Hl') as [s0' [c' [Es' Hc']]].
  assert (Htail : tail = tail').
  { destruct He as [-> | ->], He' as [-> | ->]; auto; exfalso.
    - rewrite app_nil_r, Es in H. rewrite !app_assoc in H.
      apply app_inj_tail in H. destruct H as [_ H]. contradiction.
    - rewrite app_nil_r, Es' in H. rewrite !app_assoc in H.
      apply app_inj_tail in H. destruct H as [_ H]. congruence. }
  subst tail'. rewrite !app_assoc in H. apply app_inv_tail in H.
  now apply app_same_length in H.
Qed.

Lemma dotted_page_unique (filename d1 d2 : str) :
  dotted_page filename d1 -> dotted_page filename d2 -> d1 = d2.
Proof.
  intros [pre [suffix [tail [E [Hn [_ [Hd [Hl He]]]]]]]]
         [pre' [suffix' [tail' [E' [Hn' [_ [Hd' [Hl' He']]]]]]]].
  rewrite E in E'. rewrite !(app_assoc _ _ (_ ++ _)) in E'.
  apply (suffix_end_unique (u "pdf.pdf")) in E'; auto; try discriminate.
  - now apply (decimal_run_unique pre d1 pre' d2).
  - cbn. intuition discriminate.
Qed.

Lemma spaced_page_unique (filename d1 d2 : str) :
  spaced_page filename d1 -> spaced_page filename d2 -> d1 = d2.
Proof.
  intros [pre [w [suffix [tail [E [Hw [_ [Hd [Hl He]]]]]]]]]
         [pre' [w' [suffix' [tail' [E' [Hw' [_ [Hd' [Hl' He']]]]]]]]].
  rewrite E in E'.
  change (pre ++ w :: d1 ++ suffix ++ tail) with (pre ++ [w] ++ d1 ++ suffix ++ tail) in E'.
  change (pre' ++ w' :: d2 ++ suffix' ++ tail') with (pre' ++ [w'] ++ d2 ++ suffix' ++ tail') in E'.
  rewrite !(app_assoc pre), !(app_assoc pre'), !(app_assoc _ _ (_ ++ _)) in E'.
  apply (suffix_end_unique (u ".pdf")) in E'; auto; try discriminate.
  - apply (decimal_run_unique (pre ++ [w]) d1 (pre' ++ [w']) d2); auto.
    + intros p1 d Hp. apply app_inj_tail in Hp. destruct Hp as [_ <-].
      now apply space_not_decimal.
    + intros p1 d Hp. apply app_inj_tail in Hp. destruct Hp as [_ <-].
      now apply space_not_decimal.
  - cbn. intuition discriminate.
Qed.

Lemma search_finds (r : regex) (pre suf : str) (st' : mstate) :
  ms true r (MState (prev_of None pre) suf (length pre + 0) []) st' ->
  search_from true r None (pre ++ suf) 0 <> None.
Proof.
  intros H E. apply match_at_complete in H. apply H.
  now apply (search_from_None true r (pre ++ suf) None 0 E pre suf).
Qed.

Lemma explicit_page_number_complete (filename digits : str) :
  dotted_page filename digits ->
  AnalyzeDocsClaude.explicit_page_number filename = Some (int digits).
Proof.
  intros Hd.
  destruct (AnalyzeDocsClaude.explicit_page_number filename) as [n|] eqn:E.
  - destruct (explicit_page_number_sound _ _ E) as [d' [Hd' ->]].
    now rewrite (dotted_page_unique _ _ _ Hd' Hd).
  - exfalso. unfold AnalyzeDocsClaude.explicit_page_number in E.
    rewrite (re_search_compiled _ _ _ true filename dotted_number_re_compiled) in E.
    destruct (search_from true dotted_number_re None filename 0) eqn:Es; [discriminate|].
    destruct Hd as [pre [suffix [tail [-> [_ [Hne [Hdec [Hl He]]]]]]]].
    destruct (dotted_number_re_intro (prev_of None pre) (length pre + 0) [] digits suffix tail)
      as [st' Hst]; auto.
    now apply search_finds in Hst.
Qed.

Lemma spaced_number_re_inv (p : option ascii) (s : str) (i : nat) (st' : mstate) :
  ms true spaced_number_re (MState p s i []) st' ->
  exists ws digits suffix tail,
    s = ws ++ digits ++ suffix ++ tail /\
    ws <> [] /\ Forall (fun c => isspace c = true) ws /\
    1 <= length digits <= 2 /\ all_decimal digits /\
    lower suffix = u ".pdf" /\ at_end tail /\
    caps st' = [(1, (length ws + i, length digits + (length ws + i)))].
Proof.
  intros H. unfold spaced_number_re in H.
  apply ms_cat_inv in H. destruct H as [st1 [Hws H]].
  apply ms_cat_inv in H. destruct H as [st2 [Hg Hs]].
  apply ms_grp_inv in Hg. destruct Hg as [st3 [Hd ->]].
  destruct (ms_rep_single_inv true (CharSet [CSpace]) (set_match true [CSpace]) eq_refl
              _ _ _ _ Hws) as [ws [rr [Hr [Hall [Hlo [_ ->]]]]]].
  cbn [rest] in Hr. subst s.
  pose proof (lits_eos_caps _ _ _ Hs) as Hc.
  destruct (digits_then_suffix_inv _ _ _ _ _ _ Hd (or_introl Hs))
    as [digits [suffix [tail [Hr [Hdec [Hlo' [Hhi [Hl [He [Hp Hcaps]]]]]]]]]].
  cbn [rest after] in Hr. subst rr.
  exists ws, digits, suffix, tail.
  split; [reflexivity|].
  split; [intros ->; cbn in Hlo; lia|].
  split; [now apply space_forall|].
  split; [split; [exact Hlo'|now apply Hhi]|].
  split; [exact Hdec|]. split; [exact Hl|]. split; [exact He|].
  rewrite Hc. unfold with_cap. cbn [caps pos after] in *. rewrite Hp, Hcaps. reflexivity.
Qed.

Lemma spaced_number_re_intro (p : option ascii) (i : nat) (ws digits suffix tail : str) :
  ws <> [] -> Forall (fun c => isspace c = true) ws ->
  1 <= length digits <= 2 -> all_decimal digits ->
  lower suffix = u ".pdf" -> at_end tail ->
  exists st', ms true spaced_number_re (MState p (ws ++ digits ++ suffix ++ tail) i []) st'.
Proof.
  intros Hne Hws Hlen Hdec Hl He.
  set (st := MState p (ws ++ digits ++ suffix ++ tail) i []).
  set (st1 := after st ws (digits ++ suffix ++ tail) (caps st)).
  assert (H1 : ms true (Rep (CharSet [CSpace]) 1 None) st st1).
  { apply (ms_rep_single_intro true (CharSet [CSpace]) (set_match true [CSpace]) eq_refl);
      [reflexivity| | |discriminate].
    - now apply space_forall.
    - destruct ws; [congruence|cbn; lia]. }
  destruct (digits_then_suffix_intro (u ".pdf") 1 (Some 2) st1 digits suffix tail)
    as [Hd [_ [st' Hs]]]; auto; try lia.
  - intros h Hh. injection Hh as <-. lia.
  - exists st'. unfold spaced_number_re.
    eapply ms_cat; [exact H1|]. eapply ms_cat; [|exact Hs]. constructor. exact Hd.
Qed.

(** The second search of [sort_key] finds the digits of a spaced page. *)
Lemma spaced_series_number_sound (filename : str) (n : Z) :
  AnalyzeDocsClaude.spaced_series_number filename = Some n ->
  exists digits, spaced_page filename digits /\ n = int digits.
Proof.
  unfold AnalyzeDocsClaude.spaced_series_number.
  rewrite (re_search_compiled _ _ _ true filename spaced_number_re_compiled).
  destruct (search_from true spaced_number_re None filename 0) as [m|] eqn:E; [|discriminate].
  intros H. injection H as <-.
  destruct (search_from_Some true _ _ _ _ _ E) as [pre [suf [-> [Hm _]]]].
  destruct (match_at_sound true _ _ _ _ _ Hm) as [st' [Hms ->]].
  destruct (spaced_number_re_inv _ _ _ _ Hms)
    as [ws [digits [suffix [tail [-> [Hne [Hws [Hlen [Hdec [Hl [He Hc]]]]]]]]]]].
  exists digits. split.
  - destruct (last_char_cases ws) as [->|[ws0 [w ->]]]; [congruence|].
    exists (pre ++ ws0), w, suffix, tail.
    rewrite <- !app_assoc. cbn [app]. repeat split; auto; try lia.
    rewrite Forall_forall in Hws. apply Hws. apply in_or_app. right. now left.
  - unfold group. cbn [m_caps lookup_cap Nat.eqb]. rewrite Hc. cbn [lookup_cap Nat.eqb].
    f_equal. rewrite app_assoc. apply slice_middle.
    + rewrite length_app. lia.
    + reflexivity.
Qed.

Lemma spaced_series_number_complete (filename digits : str) :
  spaced_page filename digits ->
  AnalyzeDocsClaude.spaced_series_number filename = Some (int digits).
Proof.
  intros Hd.
  destruct (AnalyzeDocsClaude.spaced_series_number filename) as [n|] eqn:E.
  - destruct (spaced_series_number_sound _ _ E) as [d' [Hd' ->]].
    now rewrite (spaced_page_unique _ _ _ Hd' Hd).
  - exfalso. unfold AnalyzeDocsClaude.spaced_series_number in E.
    rewrite (re_search_compiled _ _ _ true filename spaced_number_re_compiled) in E.
    destruct (search_from true spaced_number_re None filename 0) eqn:Es; [discriminate|].
    destruct Hd as [pre [w [suffix [tail [-> [Hw [Hlen [Hdec [Hl He]]]]]]]]].
    destruct (spaced_number_re_intro (prev_of None pre) (length pre + 0) [w] digits suffix tail)
      as [st' Hst]; auto; try discriminate.
    now apply search_finds in Hst.
Qed.

(** A name on which the third pattern matches is matched by one of the
    first two: the rank 999 is out of reach. *)
Lemma number_pattern_extracts (filename : str) :
  AnalyzeDocsClaude.matches_number_pattern filename = true ->
  AnalyzeDocsClaude.explicit_page_number filename <> None \/
  AnalyzeDocsClaude.spaced_series_number filename <> None.
Proof.
  unfold AnalyzeDocsClaude.matches_number_pattern,
         AnalyzeDocsClaude.explicit_page_number,
         AnalyzeDocsClaude.spaced_series_number.
  rewrite (re_search_compiled _ _ _ true filename dotted_number_re_compiled),
          (re_search_compiled _ _ _ true filename spaced_number_re_compiled),
          (re_search_compiled _ _ _ true filename number_pattern_re_compiled).
  destruct (search_from true number_pattern_re None filename 0) as [m|] eqn:E;
    [intros _|discriminate].
  destruct (search_from_Some true _ _ _ _ _ E) as [pre [suf [-> [Hm _]]]].
  destruct (match_at_sound true _ _ _ _ _ Hm) as [st' [Hms _]].
  unfold number_pattern_re in Hms.
  apply ms_grp_inv in Hms. destruct Hms as [st1 [Hms _]].
  apply ms_alt_inv in Hms. destruct Hms as [Hms|Hms].
  - left.
    apply ms_cat_inv in Hms. destruct Hms as [st2 [Hd Hs]].
    destruct (digits_then_suffix_inv _ _ _ _ _ _ Hd (or_intror Hs))
      as [digits [suffix [tail [Hr [Hdec [Hlo [_ [Hl [He _]]]]]]]]].
    cbn [rest] in Hr. subst suf.
    destruct (dotted_number_re_intro (prev_of None pre) (length pre + 0) [] digits suffix tail)
      as [st3 Hst]; auto.
    { intros ->. cbn in Hlo. lia. }
    apply search_finds in Hst. cbn [app] in Hst.
    destruct (search_from true dotted_number_re None _ 0); [discriminate|contradiction].
  - right.
    apply ms_cat_inv in Hms. destruct Hms as [st2 [Hws Hms]].
    apply ms_cat_inv in Hms. destruct Hms as [st3 [Hd Hs]].
    destruct (ms_rep_single_inv true (CharSet [CSpace]) (set_match true [CSpace]) eq_refl
                _ _ _ _ Hws) as [ws [rr [Hr [Hall [Hlo [_ ->]]]]]].
    cbn [rest] in Hr. subst suf.
    destruct (digits_then_suffix_inv _ _ _ _ _ _ Hd (or_intror Hs))
      as [digits [suffix [tail [Hr [Hdec [Hlo' [Hhi [Hl [He _]]]]]]]]].
    cbn [rest after] in Hr. subst rr.
    assert (Hne : ws <> []) by (intros ->; cbn in Hlo; lia).
    assert (Hsp : Forall (fun c => isspace c = true) ws) by now apply space_forall.
    assert (Hlen : 1 <= length digits <= 2) by (split; [exact Hlo'|now apply Hhi]).
    destruct (spaced_number_re_intro (prev_of None pre) (length pre + 0) ws digits suffix tail
                Hne Hsp Hlen Hdec Hl He) as [st4 Hst].
    apply search_finds in Hst.
    destruct (search_from true spaced_number_re None _ 0); [discriminate|contradiction].
Qed.

End SortKeyPatterns.


(* ================================================================= *)
(** ** Page grouper *)

Section PageGrouper.
Import Samples.

Lemma permutation_of_three {A : Type} (a b c : A) (l : list A) :
  NoDup [a; b; c] -> Permutation [a; b; c] l ->
  In l [[a; b; c]; [a; c; b]; [b; a; c]; [b; c; a]; [c; a; b]; [c; b; a]].
Proof.
  intros Hnd Hp.
  pose proof (Permutation_length Hp) as Hlen.
  destruct l as [|x [|y [|z [|w l]]]]; try discriminate.
  pose proof (Permutation_NoDup Hp Hnd) as Hnd'.
  assert (Hx : In x [a; b; c]) by (apply (Permutation_in x (Permutation_sym Hp)); simpl; auto).
  assert (Hy : In y [a; b; c]) by (apply (Permutation_in y (Permutation_sym Hp)); simpl; auto).
  assert (Hz : In z [a; b; c]) by (apply (Permutation_in z (Permutation_sym Hp)); simpl; auto).
  inversion Hnd' as [|? ? Hx' Hnd1]; subst.
  inversion Hnd1 as [|? ? Hy' Hnd2]; subst.
  simpl in Hx, Hy, Hz, Hx', Hy'.
  destruct Hx as [<-|[<-|[<-|[]]]]; destruct Hy as [<-|[<-|[<-|[]]]];
    destruct Hz as [<-|[<-|[<-|[]]]]; simpl; tauto.
Qed.

Lemma doc_pages_nodup : NoDup doc_pages.
Proof.
  repeat constructor; simpl; intuition discriminate.
Qed.

End PageGrouper.

(* ================================================================= *)
(** ** Further properties of the pipeline *)

(** *** Stripping and sorting *)

Section Trimming.

Lemma lstrip_head (s : str) (c : ascii) (r : str) :
  lstrip s = c :: r -> isspace c = false.
Proof.
  induction s as [|d s IH]; cbn; [discriminate|].
  destruct (isspace d) eqn:E; [exact IH|].
  intros H. injection H as <- _. exact E.
Qed.

Lemma lstrip_suffix (s : str) : exists pre, s = pre ++ lstrip s.
Proof.
  induction s as [|d s [pre IH]]; cbn; [now exists []|].
  destruct (isspace d).
  - exists (d :: pre). cbn. now f_equal.
  - now exists [].
Qed.

Lemma rstrip_prefix (s : str) : prefix_of (rstrip s) s.
Proof.
  unfold rstrip. destruct (lstrip_suffix (rev s)) as [pre H].
  exists (rev pre). rewrite <- rev_app_distr, <- H. symmetry. apply rev_involutive.
Qed.

Lemma rstrip_last (s r : str) (c : ascii) :
  rstrip s = r ++ [c] -> isspace c = false.
Proof.
  unfold rstrip. intros H.
  apply (f_equal (@rev ascii)) in H. rewrite rev_involutive, rev_app_distr in H.
  cbn in H. exact (lstrip_head _ _ _ H).
Qed.

Lemma strip_trimmed (s : str) : trimmed (strip s).
Proof.
  unfold strip. split.
  - intros c r H. destruct (rstrip_prefix (lstrip s)) as [t Ht].
    rewrite H in Ht. cbn in Ht. exact (lstrip_head _ _ _ Ht).
  - intros r c H. exact (rstrip_last _ _ _ H).
Qed.

End Trimming.

Section SortFacts.
Context {A : Type} (key : A -> Z).
Local Open Scope Z_scope.

Lemma insert_by_perm (x : A) (l : list A) :
  Permutation (Grouping.insert_by key x l) (x :: l).
Proof.
  induction l as [|y l IH]; cbn; [reflexivity|].
  destruct (key x <=? key y); [reflexivity|].
  rewrite IH. apply perm_swap.
Qed.

Lemma sort_by_perm (l : list A) : Permutation (Grouping.sort_by key l) l.
Proof.
  induction l as [|x l IH]; cbn; [reflexivity|].
  rewrite insert_by_perm. now constructor.
Qed.

Lemma insert_by_ascending (x : A) (l : list A) :
  ascending key l -> ascending key (Grouping.insert_by key x l).
Proof.
  induction l as [|y l IH]; cbn; [auto|].
  intros [Hy Hl]. destruct (key x <=? key y) eqn:E.
  - apply Z.leb_le in E. cbn. repeat split; auto.
    constructor; [exact E|]. eapply Forall_impl; [|exact Hy]. cbv beta. intros; lia.
  - apply Z.leb_gt in E. cbn. split; [|auto].
    rewrite (Forall_forall). intros z Hz.
    apply (Permutation_in _ (insert_by_perm x l)) in Hz.
    destruct Hz as [<-|Hz]; [lia|]. rewrite Forall_forall in Hy. auto.
Qed.

Lemma sort_by_ascending (l : list A) : ascending key (Grouping.sort_by key l).
Proof.
  induction l as [|x l IH]; cbn; [exact I|]. now apply insert_by_ascending.
Qed.

(** An element is only moved past elements of strictly smaller key. *)
Lemma insert_by_filter (n : Z) (x : A) (l : list A) :
  ascending key l ->
  filter (fun y => key y =? n) (Grouping.insert_by key x l)
  = filter (fun y => key y =? n) (x :: l).
Proof.
  induction l as [|y l IH]; [reflexivity|].
  intros [Hy Hl]. cbn [Grouping.insert_by].
  destruct (key x <=? key y) eqn:E; [reflexivity|].
  apply Z.leb_gt in E. cbn [filter]. rewrite (IH Hl). cbn [filter].
  destruct (key y =? n) eqn:Ey, (key x =? n) eqn:Ex; try reflexivity.
  apply Z.eqb_eq in Ey, Ex. lia.
Qed.

Lemma sort_by_stable (n : Z) (l : list A) :
  filter (fun y => key y =? n) (Grouping.sort_by key l)
  = filter (fun y => key y =? n) l.
Proof.
  induction l as [|x l IH]; [reflexivity|].
  cbn [Grouping.sort_by fold_right].
  change (fold_right (Grouping.insert_by key) [] l) with (Grouping.sort_by key l).
  rewrite insert_by_filter by apply sort_by_ascending.
  cbn [filter]. now rewrite IH.
Qed.

End SortFacts.

(* ================================================================= *)
(** ** Page grouper: what every grouping satisfies *)

Section GroupFacts.
Import Grouping.

Lemma append_to_pages (g : groups) (k p k' : str) :
  pages_of (append_to g k p) k'
  = if str_eqb k k' then pages_of g k' ++ [p] else pages_of g k'.
Proof.
  unfold pages_of. induction g as [|[k0 ps] g IH]; cbn [append_to find fst snd].
  - destruct (str_eqb k k'); reflexivity.
  - destruct (str_eqb k0 k) eqn:E0.
    + apply str_eqb_eq in E0. subst k0. cbn [find fst snd].
      destruct (str_eqb k k'); reflexivity.
    + cbn [find fst snd]. destruct (str_eqb k0 k') eqn:E1; [|exact IH].
      apply str_eqb_eq in E1. subst k0.
      destruct (str_eqb k k') eqn:E2; [|reflexivity].
      apply str_eqb_eq in E2. subst k'. now rewrite str_eqb_refl in E0.
Qed.

Lemma append_to_keys (g : groups) (k p k' : str) :
  In k' (map fst (append_to g k p)) <-> k' = k \/ In k' (map fst g).
Proof.
  induction g as [|[k0 ps] g IH]; cbn [append_to map fst In].
  - intuition.
  - destruct (str_eqb k0 k) eqn:E0; cbn [map fst In].
    + apply str_eqb_eq in E0. subst k0. intuition.
    + rewrite IH. intuition.
Qed.

Lemma append_to_nodup (g : groups) (k p : str) :
  NoDup (map fst g) -> NoDup (map fst (append_to g k p)).
Proof.
  induction g as [|[k0 ps] g IH]; cbn [append_to map fst]; intros H.
  - repeat constructor. intros [].
  - inversion H as [|? ? Hn Hd]; subst.
    destruct (str_eqb k0 k) eqn:E0; cbn [map fst]; constructor; auto.
    rewrite append_to_keys. intros [->|Hin]; [|contradiction].
    now rewrite str_eqb_refl in E0.
Qed.

Lemma append_to_concat (g : groups) (k p : str) :
  Permutation (concat (map snd (append_to g k p))) (p :: concat (map snd g)).
Proof.
  induction g as [|[k0 ps] g IH]; cbn [append_to map snd concat].
  - reflexivity.
  - destruct (str_eqb k0 k); cbn [map snd concat].
    + rewrite <- app_assoc. cbn [app]. symmetry. apply Permutation_middle.
    + rewrite IH. symmetry. apply Permutation_middle.
Qed.

Lemma pages_of_in (g : groups) (k : str) (ps : list str) :
  NoDup (map fst g) -> In (k, ps) g -> pages_of g k = ps.
Proof.
  unfold pages_of. induction g as [|[k0 ps0] g IH]; cbn [map fst find snd In]; [tauto|].
  intros Hd [H|H].
  - injection H as -> ->. now rewrite str_eqb_refl.
  - inversion Hd as [|? ? Hn Hd']; subst.
    destruct (str_eqb k0 k) eqn:E; [|auto].
    apply str_eqb_eq in E. subst k0. exfalso. apply Hn.
    apply in_map_iff. now exists (k, ps).
Qed.

Lemma in_pages_of (g : groups) (k : str) :
  In k (map fst g) -> In (k, pages_of g k) g.
Proof.
  unfold pages_of. induction g as [|[k0 ps0] g IH]; cbn [map fst find snd In]; [tauto|].
  intros H. destruct (str_eqb k0 k) eqn:E.
  - apply str_eqb_eq in E. subst k0. now left.
  - right. apply IH. destruct H as [H|H]; [|exact H].
    subst k0. now rewrite str_eqb_refl in E.
Qed.

Variable get_base_document_name : str -> str.
Variable sort_key : str -> Z.

Lemma grouped_pages (l : list str) :
  forall g k,
    pages_of (fold_left (file_under get_base_document_name) l g) k
    = pages_of g k ++ filter (fun p => str_eqb (key_of get_base_document_name p) k) l.
Proof.
  induction l as [|p l IH]; intros g k; cbn [fold_left filter].
  - now rewrite app_nil_r.
  - rewrite IH. unfold file_under. rewrite append_to_pages.
    destruct (str_eqb _ k); [now rewrite <- app_assoc|reflexivity].
Qed.

Lemma grouped_keys (l : list str) :
  forall g k,
    In k (map fst (fold_left (file_under get_base_document_name) l g)) <->
    In k (map fst g) \/ exists p, In p l /\ key_of get_base_document_name p = k.
Proof.
  induction l as [|p l IH]; intros g k; cbn [fold_left].
  - split; [auto|]. intros [H|[p [[] _]]]. exact H.
  - rewrite IH. unfold file_under. rewrite append_to_keys. split.
    + intros [[->|H]|[q [Hq Hk]]]; auto.
      * right. exists p. split; [now left|reflexivity].
      * right. exists q. split; [now right|exact Hk].
    + intros [H|[q [[<-|Hq] Hk]]]; auto.
      right. now exists q.
Qed.

Lemma grouped_nodup (l : list str) :
  forall g,
    NoDup (map fst g) -> NoDup (map fst (fold_left (file_under get_base_document_name) l g)).
Proof.
  induction l as [|p l IH]; intros g H; cbn [fold_left]; [exact H|].
  apply IH. now apply append_to_nodup.
Qed.

Lemma grouped_concat (l : list str) :
  forall g,
    Permutation (concat (map snd (fold_left (file_under get_base_document_name) l g)))
                (concat (map snd g) ++ l).
Proof.
  induction l as [|p l IH]; intros g; cbn [fold_left].
  - now rewrite app_nil_r.
  - rewrite IH. unfold file_under. rewrite append_to_concat. apply Permutation_middle.
Qed.

Lemma group_pages_unfold (l : list str) :
  group_pages get_base_document_name sort_key l
  = map (fun kv => (fst kv, sort_by sort_key (snd kv)))
        (fold_left (file_under get_base_document_name) l []).
Proof. reflexivity. Qed.

Lemma sorted_groups_concat (g : groups) :
  Permutation (concat (map snd (map (fun kv => (fst kv, sort_by sort_key (snd kv))) g)))
              (concat (map snd g)).
Proof.
  induction g as [|[k ps] g IH]; cbn [map concat fst snd]; [reflexivity|].
  apply Permutation_app; [apply sort_by_perm|exact IH].
Qed.

(** The group of a key is the sorted list of the paths of that key. *)
Lemma group_pages_entry (all_pdfs : list str) (k : str) (ps : list str) :
  In (k, ps) (group_pages get_base_document_name sort_key all_pdfs) <->
  (exists p, In p all_pdfs /\ key_of get_base_document_name p = k) /\
  ps = sort_by sort_key
         (filter (fun p => str_eqb (key_of get_base_document_name p) k) all_pdfs).
Proof.
  rewrite group_pages_unfold.
  assert (Hd : NoDup (map fst (fold_left (file_under get_base_document_name) all_pdfs []))).
  { apply grouped_nodup. constructor. }
  split.
  - intros H. apply in_map_iff in H. destruct H as [[k0 ps0] [E Hin]].
    cbn [fst snd] in E. injection E as -> <-.
    split.
    + assert (Hk : In k (map fst (fold_left (file_under get_base_document_name) all_pdfs []))).
      { apply in_map_iff. now exists (k, ps0). }
      apply grouped_keys in Hk. destruct Hk as [[]|Hk]. exact Hk.
    + rewrite <- (pages_of_in _ _ _ Hd Hin), grouped_pages. reflexivity.
  - intros [Hk ->]. apply in_map_iff.
    exists (k, pages_of (fold_left (file_under get_base_document_name) all_pdfs []) k). split.
    + cbn [fst snd]. now rewrite grouped_pages.
    + apply in_pages_of. apply grouped_keys. now right.
Qed.

(** X1.  The grouping of [find_and_group_files] and of
    [audit_grouping] loses no path and repeats none: the groups, put end
    to end, are a permutation of the paths that were grouped, whatever
    the normalizer and the rank are. *)
Theorem group_pages_keeps_every_page (all_pdfs : list str) :
  Permutation
    (concat (map snd (group_pages get_base_document_name sort_key all_pdfs)))
    all_pdfs.
Proof.
  rewrite group_pages_unfold, sorted_groups_concat, grouped_concat. reflexivity.
Qed.

(** X2.  The keys of the result are pairwise different; every path
    is filed under its key, the directory joined with the base name of
    the file; and a group is not empty and holds exactly the paths of
    its key. *)
Theorem group_pages_by_key (all_pdfs : list str) :
  let grouped := group_pages get_base_document_name sort_key all_pdfs in
  NoDup (map fst grouped) /\
  (forall p, In p all_pdfs ->
     exists ps, In (key_of get_base_document_name p, ps) grouped) /\
  forall k ps, In (k, ps) grouped ->
    ps <> [] /\
    forall p, In p ps <-> In p all_pdfs /\ key_of get_base_document_name p = k.
Proof.
  intros grouped. split; [|split].
  - unfold grouped. rewrite group_pages_unfold, map_map. cbn [fst].
    apply grouped_nodup. constructor.
  - intros p Hp. eexists. apply group_pages_entry. split; [|reflexivity]. now exists p.
  - intros k ps H. apply group_pages_entry in H. destruct H as [[q [Hq Hk]] ->].
    assert (Hiff : forall p, In p (sort_by sort_key
                     (filter (fun p => str_eqb (key_of get_base_document_name p) k) all_pdfs))
                   <-> In p all_pdfs /\ key_of get_base_document_name p = k).
    { intros p. split.
      - intros H. apply (Permutation_in _ (sort_by_perm sort_key _)) in H.
        apply filter_In in H. destruct H as [H1 H2]. apply str_eqb_eq in H2. auto.
      - intros [H1 H2]. apply (Permutation_in _ (Permutation_sym (sort_by_perm sort_key _))).
        apply filter_In. split; [exact H1|]. now apply str_eqb_eq. }
    split; [|exact Hiff].
    intros E. specialize (proj2 (Hiff q) (conj Hq Hk)). rewrite E. intros [].
Qed.

(** X3.  Every group is in ascending order of rank, and the
    paths of one rank keep the order in which they were discovered. *)
Theorem group_pages_in_page_order (all_pdfs : list str) (k : str) (ps : list str) :
  In (k, ps) (group_pages get_base_document_name sort_key all_pdfs) ->
  ascending sort_key ps /\
  forall n : Z,
    filter (fun p => (sort_key p =? n)%Z) ps
    = filter (fun p => (sort_key p =? n)%Z && str_eqb (key_of get_base_document_name p) k)
             all_pdfs.
Proof.
  intros H. apply group_pages_entry in H. destruct H as [_ ->]. split.
  - apply sort_by_ascending.
  - intros n. rewrite sort_by_stable.
    induction all_pdfs as [|p l IH]; [reflexivity|]. cbn [filter].
    destruct (str_eqb (key_of get_base_document_name p) k); cbn [filter].
    + destruct (sort_key p =? n)%Z; cbn [andb]; now rewrite IH.
    + rewrite andb_false_r. exact IH.
Qed.

End GroupFacts.

Section GroupOrderWitness.

Lemma group_pages_in_page_order_witness :
  ascending AnalyzeDocs.sort_key Samples.doc_pages /\
  forall n : Z,
    filter (fun p => (AnalyzeDocs.sort_key p =? n)%Z) Samples.doc_pages
    = filter (fun p => (AnalyzeDocs.sort_key p =? n)%Z
                       && str_eqb (key_of AnalyzeDocs.get_base_document_name p)
                                  (u "/scans/deeds/Doc"))
             (rev Samples.doc_pages).
Proof.
  apply (group_pages_in_page_order AnalyzeDocs.get_base_document_name AnalyzeDocs.sort_key
           (rev Samples.doc_pages) (u "/scans/deeds/Doc") Samples.doc_pages).
  vm_compute. left. reflexivity.
Defined.

End GroupOrderWitness.

(* ================================================================= *)
(** ** Discovery, and its audit *)

Section Discovery.
Import Grouping.

Lemma startswith_app (p a b : str) : startswith p a = true -> startswith p (a ++ b) = true.
Proof.
  revert a. induction p as [|c p IH]; intros [|d a]; cbn; auto; [discriminate|].
  intros H. apply andb_true_iff in H. destruct H as [-> H]. cbn. auto.
Qed.

Lemma startswith_refl (a : str) : startswith a a = true.
Proof. induction a as [|c a IH]; cbn; [reflexivity|]. now rewrite Ascii.eqb_refl. Qed.

Lemma endswith_app (a b p : str) : endswith b p = true -> endswith (a ++ b) p = true.
Proof.
  unfold endswith. rewrite rev_app_distr. apply startswith_app.
Qed.

Lemma join_ends_with (root file : str) :
  exists pre, PosixPath.join root file = pre ++ file.
Proof.
  unfold PosixPath.join. destruct (startswith [PosixPath.slash] file); [now exists []|].
  destruct root as [|c root]; [now exists []|].
  destruct (endswith (c :: root) [PosixPath.slash]).
  - now exists (c :: root).
  - exists ((c :: root) ++ [PosixPath.slash]). now rewrite <- app_assoc.
Qed.

Lemma discover_spec (keywords : list str) (walk : list (str * list str)) (path : str) :
  In path (discover keywords walk) <->
  exists root files file,
    In (root, files) walk /\ In file files /\ path = PosixPath.join root file /\
    skipped_root root = false /\ is_pdf_name file = true /\
    names_keyword keywords file = true.
Proof.
  unfold discover. rewrite in_flat_map. split.
  - intros [[root files] [Hw H]].
    fold (skipped_root root) in H. destruct (skipped_root root) eqn:Es; [destruct H|].
    apply in_flat_map in H. destruct H as [file [Hf H]].
    fold (is_pdf_name file) (names_keyword keywords file) in H.
    destruct (is_pdf_name file && names_keyword keywords file) eqn:E; [|destruct H].
    apply andb_true_iff in E. destruct E as [E1 E2].
    destruct H as [<-|[]]. exists root, files, file. auto 10.
  - intros [root [files [file [Hw [Hf [-> [Es [E1 E2]]]]]]]].
    exists (root, files). split; [exact Hw|].
    fold (skipped_root root). rewrite Es. apply in_flat_map. exists file. split; [exact Hf|].
    fold (is_pdf_name file) (names_keyword keywords file). rewrite E1, E2. now left.
Qed.

Lemma names_keyword_incl (k1 k2 : list str) (file : str) :
  incl k1 k2 -> names_keyword k1 file = true -> names_keyword k2 file = true.
Proof.
  unfold names_keyword. intros Hi H. apply existsb_exists in H.
  destruct H as [k [Hk H]]. apply existsb_exists. exists k. auto.
Qed.

Lemma discover_incl (k1 k2 : list str) (walk : list (str * list str)) :
  incl k1 k2 -> incl (discover k1 walk) (discover k2 walk).
Proof.
  intros Hi path H. apply discover_spec in H. apply discover_spec.
  destruct H as [root [files [file [H1 [H2 [H3 [H4 [H5 H6]]]]]]]].
  exists root, files, file. repeat split; auto. now apply (names_keyword_incl k1).
Qed.

(** X4.  The walk of [find_and_group_files] returns the path
    of a file exactly when the file lies in a root whose path contains
    neither "critical_files" nor ".venv", its name ends in ".pdf" in any
    case, and its name contains a keyword in any case; and every path
    returned ends in ".pdf" in any case. *)
Theorem discover_finds_keyword_pdfs (keywords : list str) (walk : list (str * list str)) :
  (forall path,
     In path (discover keywords walk) <->
     exists root files file,
       In (root, files) walk /\ In file files /\ path = PosixPath.join root file /\
       skipped_root root = false /\ is_pdf_name file = true /\
       names_keyword keywords file = true) /\
  (forall path, In path (discover keywords walk) ->
     endswith (lower path) (u ".pdf") = true).
Proof.
  split.
  - intros path. apply discover_spec.
  - intros path H. apply discover_spec in H.
    destruct H as [root [files [file [_ [_ [-> [_ [E _]]]]]]]].
    destruct (join_ends_with root file) as [pre ->].
    unfold lower. rewrite map_app. apply endswith_app. exact E.
Qed.

(** X5.  The three keyword lists grow from [analyze_docs.py]
    to [audit_pipeline.py] to [analyze_docs_claude.py], and so does what
    is discovered: a file found under the first list is found under the
    second, one found under the second is found under the third.  The
    last step is strict: "Carta.pdf" is found by the third list alone,
    so the audit counts as missed a file that [analyze_docs_claude.py]
    processes. *)
Theorem discovery_across_pipelines :
  (forall walk,
     incl (discover AnalyzeDocs.KEYWORDS walk) (discover AuditPipeline.KEYWORDS walk) /\
     incl (discover AuditPipeline.KEYWORDS walk) (discover AnalyzeDocsClaude.KEYWORDS walk)) /\
  discover AnalyzeDocsClaude.KEYWORDS [(u "/scans", [u "Carta.pdf"])] = [u "/scans/Carta.pdf"] /\
  AuditPipeline.audit_file_discovery [(u "/scans", [u "Carta.pdf"])]
  = AuditPipeline.Audited [] [u "/scans/Carta.pdf"].
Proof.
  split; [|split; vm_compute; reflexivity].
  intros walk. split; apply discover_incl.
  - unfold AuditPipeline.KEYWORDS. intros k Hk. apply in_or_app. now left.
  - unfold AuditPipeline.KEYWORDS, AnalyzeDocsClaude.KEYWORDS.
    intros k Hk. apply in_app_or in Hk. apply in_or_app.
    destruct Hk as [Hk|Hk]; [now left|right].
    apply in_map_iff in Hk. destruct Hk as [x [<- Hx]]. apply in_map.
    cbn in Hx |- *. intuition.
Qed.

End Discovery.

Section Audit.
Import AuditPipeline.

Lemma tally_file_fold (root : str) (files : list str) :
  forall t,
    let pdfs := filter is_pdf_name files in
    let t' := fold_left (tally_file root) files t in
    all_pdfs t' = all_pdfs t ++ map (PosixPath.join root) pdfs /\
    matched_pdfs t' = matched_pdfs t
       ++ map (PosixPath.join root) (filter (names_keyword KEYWORDS) pdfs) /\
    missed_pdfs t' = missed_pdfs t
       ++ map (PosixPath.join root) (filter (fun f => negb (names_keyword KEYWORDS f)) pdfs).
Proof.
  induction files as [|file files IH]; intros t; cbn zeta; cbn [fold_left filter map].
  - now rewrite !app_nil_r.
  - destruct (IH (tally_file root t file)) as [H1 [H2 H3]]. cbn zeta in H1, H2, H3.
    rewrite H1, H2, H3. unfold tally_file.
    fold (is_pdf_name file) (names_keyword KEYWORDS file).
    destruct (is_pdf_name file); cbn [filter]; [|auto].
    destruct (names_keyword KEYWORDS file); cbn [all_pdfs matched_pdfs missed_pdfs filter map negb];
      repeat split; rewrite <- ?app_assoc; reflexivity.
Qed.

Lemma tally_walk_fold (walk : list (str * list str)) :
  forall t,
    let t' := fold_left (fun t rf =>
               let '(root, files) := rf in
               if contains (u "critical_files") root || contains (u ".venv") root then t
               else fold_left (tally_file root) files t) walk t in
    all_pdfs t' = all_pdfs t ++ pdf_paths walk /\
    matched_pdfs t' = matched_pdfs t ++ matched_in walk /\
    missed_pdfs t' = missed_pdfs t ++ missed_in walk.
Proof.
  induction walk as [|[root files] walk IH]; intros t; cbn zeta; cbn [fold_left].
  - unfold pdf_paths, matched_in, missed_in. cbn. now rewrite !app_nil_r.
  - match goal with |- context [fold_left ?f walk ?t0] => destruct (IH t0) as [H1 [H2 H3]] end.
    cbn zeta in H1, H2, H3. rewrite H1, H2, H3.
    unfold pdf_paths, matched_in, missed_in. cbn [flat_map fst snd].
    fold (skipped_root root). destruct (skipped_root root); [auto|].
    destruct (tally_file_fold root files t) as [G1 [G2 G3]]. cbn zeta in G1, G2, G3.
    rewrite G1, G2, G3, <- !app_assoc. auto.
Qed.

Lemma matched_in_discover (walk : list (str * list str)) :
  matched_in walk = Grouping.discover KEYWORDS walk.
Proof.
  unfold matched_in, Grouping.discover.
  induction walk as [|[root files] walk IH]; [reflexivity|].
  cbn [flat_map fst snd]. rewrite IH. f_equal.
  fold (skipped_root root). destruct (skipped_root root); [reflexivity|].
  clear IH. induction files as [|file files IH]; [reflexivity|].
  cbn [filter flat_map]. fold (is_pdf_name file) (names_keyword KEYWORDS file).
  destruct (is_pdf_name file); cbn [filter andb]; [|exact IH].
  destruct (names_keyword KEYWORDS file); cbn [map app]; now rewrite IH.
Qed.

Lemma filter_split_perm {A : Type} (f : A -> bool) (l : list A) :
  Permutation (filter f l ++ filter (fun x => negb (f x)) l) l.
Proof.
  induction l as [|x l IH]; [reflexivity|]. cbn [filter].
  destruct (f x); cbn [negb app].
  - now constructor.
  - rewrite <- Permutation_middle. now constructor.
Qed.

Lemma matched_missed_perm (walk : list (str * list str)) :
  Permutation (matched_in walk ++ missed_in walk) (pdf_paths walk).
Proof.
  unfold matched_in, missed_in, pdf_paths.
  induction walk as [|[root files] walk IH]; [reflexivity|].
  cbn [flat_map fst snd]. destruct (skipped_root root); [exact IH|].
  rewrite <- app_assoc, (Permutation_app_comm (flat_map _ walk)), <- !app_assoc, app_assoc.
  apply Permutation_app.
  - rewrite <- map_app. apply Permutation_map. apply filter_split_perm.
  - rewrite Permutation_app_comm. exact IH.
Qed.

(** X6.  [audit_file_discovery] stops with a division by zero
    exactly when the walk holds no PDF file outside the skipped roots.
    Otherwise its first list is what the walk of the pipeline discovers
    under the keywords of the audit, and its two lists together are the
    PDF paths of the walk, each once. *)
Theorem audit_file_discovery_spec (walk : list (str * list str)) :
  (audit_file_discovery walk = ZeroDivisionError <-> pdf_paths walk = []) /\
  forall matched missed,
    audit_file_discovery walk = Audited matched missed ->
    matched = Grouping.discover KEYWORDS walk /\
    Permutation (matched ++ missed) (pdf_paths walk).
Proof.
  unfold audit_file_discovery, tally_walk.
  match goal with |- context [fold_left ?f walk ?t0] =>
    destruct (tally_walk_fold walk t0) as [H1 [H2 H3]] end.
  cbn zeta in H1, H2, H3. cbn [all_pdfs matched_pdfs missed_pdfs app] in H1, H2, H3.
  rewrite H1, H2, H3. split.
  - destruct (pdf_paths walk); cbn [length Nat.eqb]; split; congruence.
  - intros matched missed H.
    destruct (length (pdf_paths walk) =? 0)%nat; [discriminate|].
    injection H as <- <-. split; [apply matched_in_discover|apply matched_missed_perm].
Qed.

End Audit.

(* ================================================================= *)
(** ** Substitution *)

Section Substitution.
Variable ic : bool.
Variable r : regex.
Variable t : list titem.
Variable whole : str.

(** The characters of a match are dropped. *)
Lemma sub_from_skip (a : str) :
  forall b p i,
    sub_from ic r t whole (length a) p (a ++ b) i
    = sub_from ic r t whole 0 (prev_of p a) b (length a + i).
Proof.
  induction a as [|c a IH]; intros b p i; [reflexivity|].
  cbn [length app sub_from prev_of]. rewrite IH. f_equal. lia.
Qed.

(** The characters before the first match are copied. *)
Lemma sub_from_copy (pre : str) :
  forall suf p i,
    (forall pre1 suf1,
       pre ++ suf = pre1 ++ suf1 -> length pre1 < length pre ->
       match_at ic r (prev_of p pre1) suf1 (length pre1 + i) = None) ->
    sub_from ic r t whole 0 p (pre ++ suf) i
    = pre ++ sub_from ic r t whole 0 (prev_of p pre) suf (length pre + i).
Proof.
  induction pre as [|c pre IH]; intros suf p i Hno; [reflexivity|].
  cbn [app sub_from].
  assert (H0 : match_at ic r p (c :: pre ++ suf) i = None).
  { apply (Hno [] (c :: pre ++ suf) eq_refl). cbn. lia. }
  rewrite H0. f_equal. rewrite IH.
  - cbn [prev_of length].
    replace (length pre + S i) with (S (length pre) + i) by lia. reflexivity.
  - intros pre1 suf1 E Hl.
    specialize (Hno (c :: pre1) suf1). cbn [app length prev_of] in Hno.
    replace (length pre1 + S i) with (S (length pre1) + i) by lia.
    apply Hno; [now f_equal|lia].
Qed.

(** A match that is not empty is replaced by the expanded template. *)
Lemma sub_from_at_match (mid tl : str) (p : option ascii) (i : nat) (m : rmatch_obj) :
  match_at ic r p (mid ++ tl) i = Some m ->
  m_end m = length mid + i -> mid <> [] ->
  sub_from ic r t whole 0 p (mid ++ tl) i
  = expand whole m t ++ sub_from ic r t whole 0 (prev_of p mid) tl (length mid + i).
Proof.
  intros Hm He Hne. destruct mid as [|c mid]; [congruence|].
  cbn [app sub_from]. cbn [app] in Hm. rewrite Hm. f_equal.
  rewrite He. cbn [length].
  destruct (S (length mid) + i =? i) eqn:E; [apply Nat.eqb_eq in E; lia|].
  replace (S (length mid) + i - i - 1) with (length mid) by lia.
  rewrite sub_from_skip. cbn [prev_of]. f_equal. lia.
Qed.

Lemma sub_from_no_match (s : str) :
  forall p i,
    (forall pre1 suf1, s = pre1 ++ suf1 ->
       match_at ic r (prev_of p pre1) suf1 (length pre1 + i) = None) ->
    sub_from ic r t whole 0 p s i = s.
Proof.
  intros p i Hno.
  rewrite <- (app_nil_r s) at 1. rewrite sub_from_copy.
  - cbn [sub_from]. rewrite (Hno s []) by now rewrite app_nil_r.
    apply app_nil_r.
  - intros pre1 suf1 E _. apply Hno. now rewrite app_nil_r in E.
Qed.

End Substitution.

Section NoMatch.

Lemma sub_no_match (ic : bool) (r : regex) (t : list titem) (s : str) :
  search ic r s = None -> sub ic r t s = s.
Proof.
  intros H. unfold sub. apply sub_from_no_match.
  intros pre1 suf1 E. exact (search_from_None ic r s None 0 H pre1 suf1 E).
Qed.

(** [re.sub] returns a text in which the pattern is not found as it is. *)
Lemma re_sub_no_match (p : pattern) (repl : string) (s : str) :
  re_search p s = None -> re_sub p repl s = s.
Proof. apply sub_no_match. Qed.

End NoMatch.

(* ================================================================= *)
(** ** Filename normalizer: the pages of a scan *)

Section NumberedPages.

Lemma dotted_suffix_re_compiled :
  compile_i "\.\d+pdf$" = Pattern dotted_suffix_re 0 true.
Proof. vm_compute. reflexivity. Qed.

Lemma endswith_extension (x ext : str) :
  lower ext = u ".pdf" -> endswith (lower (x ++ ext)) (u ".pdf") = true.
Proof.
  intros H. unfold lower in *. rewrite map_app, H. unfold endswith.
  rewrite rev_app_distr. apply startswith_app, startswith_refl.
Qed.

Lemma lower_length (s : str) : length (lower s) = length s.
Proof. apply length_map. Qed.

Lemma slice_off_extension (x ext : str) :
  length ext = 4 -> slice_to (x ++ ext) (-4) = x.
Proof.
  intros H. unfold slice_to, slice, norm_index. rewrite length_app, H.
  cbn [Z.ltb Z.compare].
  replace (Z.min 0 (Z.of_nat (length x + 4))) with 0%Z by lia.
  replace (Z.to_nat (Z.max 0 (-4 + Z.of_nat (length x + 4)) - 0)) with (length x) by lia.
  cbn [Z.to_nat skipn].
  rewrite firstn_app, Nat.sub_diag, firstn_all. cbn. apply app_nil_r.
Qed.

(** The first step of the normalizer takes the extension off. *)
Lemma extension_removed (x ext : str) :
  lower ext = u ".pdf" ->
  (if endswith (lower (x ++ ext)) (u ".pdf") then slice_to (x ++ ext) (-4) else x ++ ext) = x.
Proof.
  intros H. rewrite (endswith_extension _ _ H). apply slice_off_extension.
  rewrite <- lower_length, H. reflexivity.
Qed.

Lemma dotted_suffix_re_inv (p : option ascii) (s : str) (i : nat) (st' : mstate) :
  ms true dotted_suffix_re (MState p s i []) st' ->
  exists digits suffix tail,
    s = "."%char :: digits ++ suffix ++ tail /\
    digits <> [] /\ all_decimal digits /\ lower suffix = u "pdf" /\ at_end tail /\
    pos st' = length ("."%char :: digits ++ suffix) + i.
Proof.
  intros H. unfold dotted_suffix_re in H.
  apply ms_cat_inv in H. destruct H as [st1 [Hdot H]].
  apply ms_cat_inv in H. destruct H as [st2 [Hd Hs]].
  destruct (ms_single_inv true (Lit ".") _ _ _ eq_refl Hdot) as [c [rr [Hr [Hc ->]]]].
  cbn [Re.rest] in Hr. subst s. apply dot_literal in Hc. subst c.
  destruct (ms_rep_single_inv true (CharSet [CDigit]) (set_match true [CDigit]) eq_refl
              _ _ _ _ Hd) as [digits [rr' [Hr [Hall [Hlo [_ ->]]]]]].
  cbn [Re.rest after] in Hr. subst rr.
  destruct (ms_lits_inv true _ _ _ _ Hs) as [suffix [tail [Hr [Hl He]]]].
  cbn [Re.rest after] in Hr. subst rr'.
  apply ms_eos_inv in He. destruct He as [-> He]. cbn [Re.rest after] in He.
  exists digits, suffix, tail. repeat split; auto.
  - intros ->. cbn in Hlo. lia.
  - now apply decimal_forall.
  - apply lits_lower in Hl. exact Hl.
  - cbn [pos after length]. rewrite length_app. lia.
Qed.

Lemma dotted_suffix_re_intro (p : option ascii) (i : nat) (digits suffix tail : str) :
  digits <> [] -> all_decimal digits -> lower suffix = u "pdf" -> at_end tail ->
  exists st', ms true dotted_suffix_re
                (MState p ("."%char :: digits ++ suffix ++ tail) i []) st'.
Proof.
  intros Hne Hdec Hl He.
  set (st := MState p ("."%char :: digits ++ suffix ++ tail) i []).
  set (st1 := after st ["."%char] (digits ++ suffix ++ tail) (caps st)).
  assert (H1 : ms true (Lit ".") st st1).
  { apply (ms_single_intro true (Lit ".") _ st "."%char _ eq_refl); reflexivity. }
  destruct (digits_then_suffix_intro (u "pdf") 1 None st1 digits suffix tail)
    as [Hd [[st' Hs] _]]; auto.
  - destruct digits; [congruence|cbn; lia].
  - discriminate.
  - exists st'. unfold dotted_suffix_re.
    eapply ms_cat; [exact H1|]. eapply ms_cat; [exact Hd|exact Hs].
Qed.

Lemma ends_with_dot_no_digit (x : str) : no_digit_before (x ++ ["."%char]).
Proof.
  intros pre1 d H. apply app_inj_tail in H. destruct H as [_ <-]. reflexivity.
Qed.

(** The first substitution of the normalizer takes the dotted page
    suffix off, and nothing else. *)
Lemma dotted_suffix_removed (base digits suffix : str) :
  digits <> [] -> all_decimal digits -> lower suffix = u "pdf" ->
  re_sub (compile_i "\.\d+pdf$") "" (base ++ "."%char :: digits ++ suffix) = base.
Proof.
  intros Hne Hdec Hl.
  unfold re_sub. rewrite dotted_suffix_re_compiled. cbn [p_ic p_re].
  change (template_of (u "")) with (@nil titem). unfold sub.
  set (mid := "."%char :: digits ++ suffix).
  assert (Hdecomp : forall pre1 suf1 st',
            base ++ mid = pre1 ++ suf1 ->
            ms true dotted_suffix_re (MState (prev_of None pre1) suf1 (length pre1 + 0) []) st' ->
            pre1 = base /\ pos st' = length mid + (length base + 0)).
  { intros pre1 suf1 st' E Hms.
    destruct (dotted_suffix_re_inv _ _ _ _ Hms)
      as [d' [s' [tl' [-> [Hne' [Hdec' [Hl' [He' Hp]]]]]]]].
    unfold mid in E.
    assert (E' : (base ++ "."%char :: digits) ++ suffix ++ []
                 = (pre1 ++ "."%char :: d') ++ s' ++ tl').
    { rewrite <- !app_assoc. cbn [app]. rewrite app_nil_r. exact E. }
    apply (suffix_end_unique (u "pdf")) in E'; auto; try discriminate;
      [|cbn; intuition discriminate|now left].
    assert (Ed : digits = d').
    { apply (decimal_run_unique (base ++ ["."%char]) digits (pre1 ++ ["."%char]) d'); auto.
      - rewrite <- !app_assoc. exact E'.
      - apply ends_with_dot_no_digit.
      - apply ends_with_dot_no_digit. }
    subst d'. apply app_inv_tail in E'. subst pre1. split; [reflexivity|].
    rewrite Hp. unfold mid. cbn [length]. rewrite !length_app.
    assert (length s' = length suffix).
    { rewrite <- (lower_length s'), <- (lower_length suffix). congruence. }
    lia. }
  rewrite (sub_from_copy true dotted_suffix_re [] (base ++ mid) base mid None 0).
  - destruct (dotted_suffix_re_intro (prev_of None base) (length base + 0) digits suffix [])
      as [st' Hst]; auto; [now left|].
    rewrite app_nil_r in Hst. fold mid in Hst.
    pose proof (match_at_complete true _ _ _ _ _ Hst) as Hsome.
    destruct (match_at true dotted_suffix_re (prev_of None base) mid (length base + 0))
      as [m|] eqn:Em; [|congruence].
    destruct (match_at_sound true _ _ _ _ _ Em) as [st2 [Hms2 ->]].
    destruct (Hdecomp base mid st2 eq_refl Hms2) as [_ Hpos].
    rewrite <- (app_nil_r mid) at 2.
    rewrite (sub_from_at_match true dotted_suffix_re [] (base ++ mid) mid [] _ _
               (Match (length base + 0) (pos st2) (caps st2))).
    + cbn [expand flat_map app sub_from].
      destruct (match_at true dotted_suffix_re (prev_of (prev_of None base) mid) []
                  (length mid + (length base + 0))) as [m'|] eqn:Em'.
      * exfalso. destruct (match_at_sound true _ _ _ _ _ Em') as [st3 [Hms3 _]].
        destruct (dotted_suffix_re_inv _ _ _ _ Hms3) as [? [? [? [Hnil _]]]]. discriminate.
      * now rewrite app_nil_r.
    + rewrite app_nil_r. exact Em.
    + exact Hpos.
    + discriminate.
  - intros pre1 suf1 E Hlen.
    destruct (match_at true dotted_suffix_re (prev_of None pre1) suf1 (length pre1 + 0))
      as [m|] eqn:Em; [|reflexivity].
    exfalso. destruct (match_at_sound true _ _ _ _ _ Em) as [st2 [Hms2 _]].
    destruct (Hdecomp pre1 suf1 st2 E Hms2) as [-> _]. lia.
Qed.

(** The first two steps of the normalizer, on a page file and on the
    first page of its scan. *)
Lemma page_name_first_steps (base digits suffix ext : str) :
  digits <> [] -> all_decimal digits -> lower suffix = u "pdf" -> lower ext = u ".pdf" ->
  let name := base ++ u "." ++ digits ++ suffix ++ ext in
  re_sub (compile_i "\.\d+pdf$") ""
    (if endswith (lower name) (u ".pdf") then slice_to name (-4) else name) = base.
Proof.
  intros Hne Hdec Hl He name. unfold name.
  replace (base ++ u "." ++ digits ++ suffix ++ ext)
    with ((base ++ "."%char :: digits ++ suffix) ++ ext)
    by (rewrite <- !app_assoc; cbn [app]; now rewrite <- !app_assoc).
  rewrite (extension_removed _ _ He). now apply dotted_suffix_removed.
Qed.

Lemma first_page_first_steps (base ext : str) :
  lower ext = u ".pdf" -> re_sub (compile_i "\.\d+pdf$") "" base = base ->
  let name := base ++ ext in
  re_sub (compile_i "\.\d+pdf$") ""
    (if endswith (lower name) (u ".pdf") then slice_to name (-4) else name) = base.
Proof.
  intros He Hplain name. unfold name. now rewrite (extension_removed _ _ He).
Qed.

(** X7.  In both pipelines a page file "X.Npdf.pdf" gets
    the base name of "X.pdf", for every name X that does not itself end
    in a dotted page suffix, every run N of digits, and whatever the
    case of the letters of "pdf" and of the extensions. *)
Theorem numbered_page_has_the_base_name (base digits suffix ext ext' : str) :
  digits <> [] -> all_decimal digits ->
  lower suffix = u "pdf" -> lower ext = u ".pdf" -> lower ext' = u ".pdf" ->
  re_sub (compile_i "\.\d+pdf$") "" base = base ->
  AnalyzeDocs.get_base_document_name (base ++ u "." ++ digits ++ suffix ++ ext)
  = AnalyzeDocs.get_base_document_name (base ++ ext') /\
  AnalyzeDocsClaude.get_base_document_name (base ++ u "." ++ digits ++ suffix ++ ext)
  = AnalyzeDocsClaude.get_base_document_name (base ++ ext').
Proof.
  intros Hne Hdec Hl He He' Hplain.
  pose proof (page_name_first_steps base digits suffix ext Hne Hdec Hl He) as Hother.
  pose proof (first_page_first_steps base ext' He' Hplain) as Hfirst.
  cbv zeta in Hother, Hfirst.
  unfold AnalyzeDocs.get_base_document_name, AnalyzeDocsClaude.get_base_document_name.
  cbv zeta. rewrite Hother, Hfirst. split; reflexivity.
Qed.

Lemma numbered_page_has_the_base_name_witness :
  AnalyzeDocs.get_base_document_name (u "Deed of sale" ++ u "." ++ u "12" ++ u "PDF" ++ u ".pdf")
  = AnalyzeDocs.get_base_document_name (u "Deed of sale" ++ u ".PDF") /\
  AnalyzeDocsClaude.get_base_document_name
    (u "Deed of sale" ++ u "." ++ u "12" ++ u "PDF" ++ u ".pdf")
  = AnalyzeDocsClaude.get_base_document_name (u "Deed of sale" ++ u ".PDF").
Proof.
  apply (numbered_page_has_the_base_name
           (u "Deed of sale") (u "12") (u "PDF") (u ".pdf") (u ".PDF"));
    try (vm_compute; reflexivity).
  - discriminate.
  - repeat constructor.
Defined.

End NumberedPages.

(* ================================================================= *)
(** ** The rank of the older pipeline *)

Section OlderSortKey.

Lemma bare_number_re_compiled :
  compile_i "\d+pdf\.pdf$" = Pattern bare_number_re 0 true.
Proof. vm_compute. reflexivity. Qed.

Lemma int_nonneg (s : str) : (0 <= int s)%Z.
Proof.
  unfold int.
  assert (G : forall acc, (0 <= acc)%Z ->
            (0 <= fold_left (fun acc c => (10 * acc + Z.of_N (code c - 48))%Z) s acc)%Z).
  { induction s as [|c s IH]; intros acc H; cbn [fold_left]; [exact H|]. apply IH. lia. }
  apply G. lia.
Qed.

(** The second search of the older [sort_key] finds nothing that the
    first has not found: its rank 999 is out of reach too. *)
Lemma sort_key_older (path : str) :
  AnalyzeDocs.sort_key path
  = match AnalyzeDocsClaude.explicit_page_number (PosixPath.basename path) with
    | Some n => n
    | None => 0%Z
    end.
Proof.
  unfold AnalyzeDocs.sort_key, AnalyzeDocsClaude.explicit_page_number.
  set (filename := PosixPath.basename path).
  destruct (re_search (compile_i "\.?(\d+)pdf\.pdf$") filename) as [m|] eqn:E; [reflexivity|].
  destruct (re_search (compile_i "\d+pdf\.pdf$") filename) as [m|] eqn:E2; [|reflexivity].
  exfalso.
  rewrite (re_search_compiled _ _ _ true filename dotted_number_re_compiled) in E.
  rewrite (re_search_compiled _ _ _ true filename bare_number_re_compiled) in E2.
  destruct (search_from_Some true _ _ _ _ _ E2) as [pre [suf [Hf [Hm _]]]].
  destruct (match_at_sound true _ _ _ _ _ Hm) as [st' [Hms _]].
  unfold bare_number_re in Hms.
  apply ms_cat_inv in Hms. destruct Hms as [st2 [Hd Hs]].
  destruct (digits_then_suffix_inv _ _ _ _ _ _ Hd (or_intror Hs))
    as [digits [suffix [tail [Hr [Hdec [Hlo [_ [Hl [He _]]]]]]]]].
  cbn [Re.rest] in Hr. subst suf.
  destruct (dotted_number_re_intro (prev_of None pre) (length pre + 0) [] digits suffix tail)
    as [st3 Hst]; auto.
  { intros ->. cbn in Hlo. lia. }
  apply search_finds in Hst. cbn [app] in Hst. rewrite <- Hf in Hst. congruence.
Qed.

(** X8.  The rank that [analyze_docs.py] gives a path is the
    number written by the digits before a final "pdf.pdf" of the file
    name, and 0 when the name has no such digits; it is never negative,
    and it is the rank of [analyze_docs_claude.py] on every name that is
    not of a spaced series. *)
Theorem sort_key_is_the_dotted_page_number (path : str) :
  let filename := PosixPath.basename path in
  (forall digits, dotted_page filename digits -> AnalyzeDocs.sort_key path = int digits) /\
  ((forall digits, ~ dotted_page filename digits) -> AnalyzeDocs.sort_key path = 0%Z) /\
  (0 <= AnalyzeDocs.sort_key path)%Z /\
  (AnalyzeDocsClaude.spaced_series_number filename = None ->
   AnalyzeDocsClaude.sort_key path = AnalyzeDocs.sort_key path).
Proof.
  intros filename. rewrite sort_key_older. fold filename. repeat split.
  - intros digits Hd. now rewrite (explicit_page_number_complete _ _ Hd).
  - intros Hno. destruct (AnalyzeDocsClaude.explicit_page_number filename) as [n|] eqn:E;
      [|reflexivity].
    destruct (explicit_page_number_sound _ _ E) as [digits [Hd _]]. now destruct (Hno digits).
  - destruct (AnalyzeDocsClaude.explicit_page_number filename) as [n|] eqn:E; [|lia].
    destruct (explicit_page_number_sound _ _ E) as [digits [_ ->]]. apply int_nonneg.
  - intros Hs. unfold AnalyzeDocsClaude.sort_key. fold filename. rewrite Hs.
    destruct (AnalyzeDocsClaude.explicit_page_number filename) as [n|] eqn:E; [reflexivity|].
    destruct (AnalyzeDocsClaude.matches_number_pattern filename) eqn:Em; [|reflexivity].
    exfalso. destruct (number_pattern_extracts _ Em); congruence.
Qed.

End OlderSortKey.

(* ================================================================= *)
(** ** Classifier: more text, other case *)

Section FoldFacts.

Lemma fold_left_invariant {A B : Type} (I : B -> Prop) (f : B -> A -> B) (l : list A) :
  (forall b x, I b -> I (f b x)) -> forall b, I b -> I (fold_left f l b).
Proof.
  intros Hf. induction l as [|x l IH]; intros b Hb; cbn; auto.
Qed.

Lemma is_empty_filter {A : Type} (f : A -> bool) (l : list A) :
  AnalyzeDocs.is_empty (filter f l) = negb (existsb f l).
Proof.
  induction l as [|x l IH]; [reflexivity|]. cbn [filter existsb].
  destruct (f x); [reflexivity|exact IH].
Qed.

Lemma contains_app (sub s more : str) :
  contains sub s = true -> contains sub (s ++ more) = true.
Proof.
  induction s as [|c s IH]; cbn [contains app].
  - rewrite orb_false_r. destruct sub; [|discriminate]. now destruct more.
  - intros H. apply orb_true_iff in H. apply orb_true_iff. destruct H as [H|H].
    + left. exact (startswith_app sub (c :: s) more H).
    + right. auto.
Qed.

Lemma filter_length_le {A : Type} (f g : A -> bool) (l : list A) :
  (forall x, f x = true -> g x = true) -> length (filter f l) <= length (filter g l).
Proof.
  intros H. induction l as [|x l IH]; [reflexivity|]. cbn [filter].
  destruct (f x) eqn:E.
  - rewrite (H _ E). cbn. lia.
  - destruct (g x); cbn; lia.
Qed.

Lemma first_some_split {A B : Type} (f : A -> option B) (l : list A) (y : B) :
  AnalyzeDocs.first_some f l = Some y ->
  exists l1 x l2, l = l1 ++ x :: l2 /\ f x = Some y /\ Forall (fun z => f z = None) l1.
Proof.
  induction l as [|x l IH]; cbn; [discriminate|].
  destruct (f x) eqn:E.
  - intros H. injection H as <-. exists [], x, l. auto.
  - intros H. destruct (IH H) as [l1 [x' [l2 [-> [Hx Hall]]]]].
    exists (x :: l1), x', l2. auto.
Qed.

Lemma first_some_all_none {A B : Type} (f : A -> option B) (l : list A) :
  AnalyzeDocs.first_some f l = None <-> Forall (fun z => f z = None) l.
Proof.
  induction l as [|x l IH]; cbn; [split; auto|].
  destruct (f x) eqn:E; split.
  - discriminate.
  - intros H. inversion H; congruence.
  - intros H. constructor; [exact E|now apply IH].
  - intros H. inversion H; subst. now apply IH.
Qed.

End FoldFacts.

Section ClassifierOrder.
Import AnalyzeDocs.

Lemma max_first_greatest (others : list (str * nat)) :
  forall first,
    In (max_first first others) (first :: others) /\
    forall x, In x (first :: others) -> snd x <= snd (max_first first others).
Proof.
  unfold max_first.
  induction others as [|y others IH]; intros first; cbn [fold_left].
  - split; [now left|]. intros x [<-|[]]. lia.
  - destruct (IH (if snd first <? snd y then y else first)) as [Hin Hmax]. split.
    + destruct Hin as [Hin|Hin]; [|now right; right].
      rewrite <- Hin. destruct (snd first <? snd y); [right; now left|now left].
    + intros x Hx.
      assert (Hc : snd (if snd first <? snd y then y else first)
                   <= snd (fold_left (fun best x0 => if snd best <? snd x0 then x0 else best)
                             others (if snd first <? snd y then y else first))).
      { apply Hmax. now left. }
      destruct Hx as [<-|[<-|Hx]].
      * destruct (snd first <? snd y) eqn:E; [apply Nat.ltb_lt in E|]; lia.
      * destruct (snd first <? snd y) eqn:E; [|apply Nat.ltb_ge in E]; lia.
      * apply Hmax. now right.
Qed.

Lemma in_scores_of (types : list (str * list str)) (combined : str) (x : str * nat) :
  In x (scores_of types combined) <->
  exists tk, In tk types /\ x = (fst tk, keyword_score combined (snd tk))
             /\ 0 < keyword_score combined (snd tk).
Proof.
  unfold scores_of. rewrite in_flat_map. split.
  - intros [tk [Hin H]]. exists tk. split; [exact Hin|].
    destruct (0 <? keyword_score combined (snd tk)) eqn:E; [|destruct H].
    apply Nat.ltb_lt in E. destruct H as [<-|[]]. auto.
  - intros [tk [Hin [-> H]]]. exists tk. split; [exact Hin|].
    apply Nat.ltb_lt in H. rewrite H. now left.
Qed.

Lemma classify_confidence (filename text : str) :
  snd (classify_document filename text)
  = confidence_of (best_score (combined_text filename text)).
Proof.
  unfold classify_document, best_score.
  destruct (scores_of DOCUMENT_TYPES (combined_text filename text)); reflexivity.
Qed.

(** The best score is the greatest score of a row of the table. *)
Lemma best_score_bounds (combined : str) :
  (forall tk, In tk DOCUMENT_TYPES -> keyword_score combined (snd tk) <= best_score combined) /\
  (best_score combined = 0 \/
   exists tk, In tk DOCUMENT_TYPES /\ best_score combined = keyword_score combined (snd tk)).
Proof.
  unfold best_score.
  destruct (scores_of DOCUMENT_TYPES combined) as [|first others] eqn:E.
  - split; [|now left]. intros tk Hin.
    destruct (keyword_score combined (snd tk)) eqn:Ek; [lia|]. exfalso.
    assert (H : In (fst tk, keyword_score combined (snd tk)) (scores_of DOCUMENT_TYPES combined)).
    { apply in_scores_of. exists tk. repeat split; auto. lia. }
    rewrite E in H. destruct H.
  - destruct (max_first_greatest others first) as [Hin Hmax]. split.
    + intros tk Htk.
      destruct (keyword_score combined (snd tk)) eqn:Ek; [lia|]. rewrite <- Ek.
      apply (Hmax (fst tk, keyword_score combined (snd tk))).
      rewrite <- E. apply in_scores_of. exists tk. repeat split; auto. lia.
    + right. rewrite <- E in Hin. apply in_scores_of in Hin.
      destruct Hin as [tk [Htk [-> _]]]. exists tk. auto.
Qed.

Lemma keyword_score_app (combined more : str) (keywords : list str) :
  keyword_score combined keywords <= keyword_score (combined ++ more) keywords.
Proof.
  unfold keyword_score. apply filter_length_le. intros kw. apply contains_app.
Qed.

Lemma best_score_app (combined more : str) :
  best_score combined <= best_score (combined ++ more).
Proof.
  destruct (best_score_bounds combined) as [_ [H|[tk [Htk H]]]]; [lia|].
  rewrite H. etransitivity; [apply keyword_score_app|].
  apply (proj1 (best_score_bounds (combined ++ more))). exact Htk.
Qed.

Lemma confidence_rank_of (a b : nat) :
  a <= b -> confidence_rank (confidence_of a) <= confidence_rank (confidence_of b).
Proof.
  intros H. unfold confidence_of.
  destruct (3 <=? a) eqn:A3; destruct (3 <=? b) eqn:B3;
  destruct (2 <=? a) eqn:A2; destruct (2 <=? b) eqn:B2;
  repeat match goal with
         | H : (_ <=? _) = true |- _ => apply Nat.leb_le in H
         | H : (_ <=? _) = false |- _ => apply Nat.leb_gt in H
         end;
  try lia; vm_compute; lia.
Qed.

Lemma combined_text_app (filename text more : str) :
  combined_text filename (text ++ more) = combined_text filename text ++ lower more.
Proof.
  unfold combined_text, lower. now rewrite <- map_app, <- !app_assoc.
Qed.

(** The fallback is returned exactly when no keyword occurs. *)
Lemma classified_iff (filename text : str) :
  classify_document filename text = (u "Unclassified Legal Document", u "Low")
  <-> best_score (combined_text filename text) = 0.
Proof.
  unfold classify_document, best_score.
  destruct (scores_of DOCUMENT_TYPES (combined_text filename text)) as [|first others] eqn:E.
  - tauto.
  - destruct (max_first_greatest others first) as [Hin _].
    rewrite <- E in Hin. apply in_scores_of in Hin.
    destruct Hin as [tk [Htk [Hx Hpos]]]. rewrite Hx. cbn [fst snd]. split.
    + intros H. injection H as H _. exfalso. revert Htk H. clear.
      unfold DOCUMENT_TYPES. intros Htk H. apply in_map_iff in Htk.
      destruct Htk as [kv [<- Hkv]]. cbn [fst] in H.
      cbn in Hkv. repeat (destruct Hkv as [<-|Hkv]; [vm_compute in H; discriminate H|]).
      destruct Hkv.
    + lia.
Qed.

(** X9.  Text added at the end of a document never lowers the
    confidence of its classification, and never turns a classified
    document into an unclassified one.  (The label itself may change.) *)
Theorem classify_document_more_text (filename text more : str) :
  confidence_rank (snd (classify_document filename text))
  <= confidence_rank (snd (classify_document filename (text ++ more))) /\
  (classify_document filename (text ++ more) = (u "Unclassified Legal Document", u "Low") ->
   classify_document filename text = (u "Unclassified Legal Document", u "Low")).
Proof.
  pose proof (best_score_app (combined_text filename text) (lower more)) as H.
  rewrite <- combined_text_app in H. split.
  - rewrite !classify_confidence. now apply confidence_rank_of.
  - rewrite !classified_iff. lia.
Qed.

(** X10.  The classification reads the file name and the
    text through their lower-cased forms only: names and texts that differ
    in the case of their letters alone are classified alike. *)
Theorem classify_document_ignores_case (filename text filename' text' : str) :
  lower filename = lower filename' -> lower text = lower text' ->
  classify_document filename text = classify_document filename' text'.
Proof.
  intros Hf Ht. unfold classify_document, combined_text, lower in *.
  now rewrite !map_app, Hf, Ht.
Qed.

Lemma classify_document_ignores_case_witness :
  classify_document (u "DEED Of Sale.PDF") (u "Escritura Pública")
  = classify_document (u "deed of sale.pdf") (u "ESCRITURA PÚBLICA").
Proof.
  apply (classify_document_ignores_case (u "DEED Of Sale.PDF") (u "Escritura Pública")
           (u "deed of sale.pdf") (u "ESCRITURA PÚBLICA"));
    vm_compute; reflexivity.
Defined.

End ClassifierOrder.

(* ================================================================= *)
(** ** Relevance: the decision table *)

Section RelevanceTable.
Import AnalyzeDocs.

Lemma level_with_property (doc_type : str) (parties properties : list str) (text : str) :
  names_key_property properties = true ->
  fst (assess_legal_relevance doc_type parties properties text) = u "CRITICAL" \/
  fst (assess_legal_relevance doc_type parties properties text) = u "HIGH".
Proof.
  intros H. unfold names_key_property in H.
  unfold assess_legal_relevance, score_and_reasons.
  rewrite !is_empty_filter, H.
  destruct (mem doc_type high_value_types);
    [|destruct (mem doc_type medium_value_types)];
    destruct (existsb (matches_any key_families) parties); cbn; auto.
Qed.

(** X11.  The level is decided by three facts: the class of the
    document type, whether some party names a key family, and whether
    some property names a key property.  A high-value type is CRITICAL
    with either match and HIGH without; any other type is CRITICAL with
    both matches and HIGH with one; without a match a medium-value type
    is MEDIUM and every other type LOW.  There is one reason for the
    type and one more for each match. *)
Theorem assess_legal_relevance_table (doc_type : str) (parties properties : list str)
  (text : str) :
  let family := names_key_family parties in
  let property := names_key_property properties in
  let '(level, reasons) := assess_legal_relevance doc_type parties properties text in
  level =
    (if mem doc_type high_value_types then
       if family || property then u "CRITICAL" else u "HIGH"
     else if family && property then u "CRITICAL"
     else if family || property then u "HIGH"
     else if mem doc_type medium_value_types then u "MEDIUM" else u "LOW") /\
  length reasons = 1 + (if family then 1 else 0) + (if property then 1 else 0).
Proof.
  unfold names_key_family, names_key_property, assess_legal_relevance, score_and_reasons.
  rewrite !is_empty_filter.
  destruct (mem doc_type high_value_types);
    [|destruct (mem doc_type medium_value_types)];
    destruct (existsb (matches_any key_families) parties);
    destruct (existsb (matches_any key_props) properties);
    cbn [negb andb orb]; split; try reflexivity;
    rewrite ?length_app; reflexivity.
Qed.

End RelevanceTable.

(* ================================================================= *)
(** ** Parties and properties: the sets *)

Section PartySet.
Import AnalyzeDocs.

Lemma set_add_nodup (x : str) (s : list str) : NoDup s -> NoDup (set_add x s).
Proof.
  intros H. unfold set_add. destruct (existsb (str_eqb x) s) eqn:E; [exact H|].
  apply NoDup_app; [exact H| repeat constructor; intros []|].
  intros y Hy [Ey|[]]. subst y.
  assert (existsb (str_eqb x) s = true).
  { apply existsb_exists. exists x. split; [exact Hy|apply str_eqb_refl]. }
  congruence.
Qed.

Lemma set_add_forall (P : str -> Prop) (x : str) (s : list str) :
  P x -> Forall P s -> Forall P (set_add x s).
Proof.
  intros Hx H. unfold set_add. destruct (existsb (str_eqb x) s); [exact H|].
  apply Forall_app. split; [exact H|now constructor].
Qed.

Lemma set_add_in (x y : str) (s : list str) : In y (set_add x s) <-> y = x \/ In y s.
Proof.
  unfold set_add. destruct (existsb (str_eqb x) s) eqn:E.
  - split; [auto|]. intros [->|H]; [|exact H].
    apply existsb_exists in E. destruct E as [z [Hz E]]. apply str_eqb_eq in E. now subst z.
  - rewrite in_app_iff. cbn. intuition.
Qed.

Lemma add_long_tidy (n : nat) (found : list str) :
  forall ps, tidy ps -> tidy (add_long n ps found).
Proof.
  unfold add_long. apply fold_left_invariant.
  intros ps fm [H1 H2]. destruct (n <? length fm); [|now split].
  split; [now apply set_add_nodup|].
  apply set_add_forall; [apply strip_trimmed|exact H2].
Qed.

Lemma parties_set_tidy (text : str) : tidy (parties_set text).
Proof.
  unfold parties_set.
  apply fold_left_invariant; [intros; now apply add_long_tidy|].
  apply fold_left_invariant; [|split; constructor].
  intros ps family Hps.
  apply fold_left_invariant; [|exact Hps].
  intros ps1 pat Hps1.
  apply fold_left_invariant; [|exact Hps1].
  intros ps2 m Hps2. destruct (2 <? length m); [|exact Hps2].
  now apply add_long_tidy.
Qed.

(** X12.  The parties returned are pairwise different, and none
    starts or ends with a whitespace character, in whatever order the
    set is listed. *)
Theorem extract_parties_distinct (set_order : list str -> list str) (text : str) :
  (forall l, Permutation (set_order l) l) ->
  NoDup (extract_parties set_order text) /\
  Forall trimmed (extract_parties set_order text).
Proof.
  intros Hp. destruct (parties_set_tidy text) as [H1 H2].
  unfold extract_parties.
  assert (G1 : NoDup (set_order (parties_set text))).
  { eapply Permutation_NoDup; [symmetry; apply Hp|exact H1]. }
  assert (G2 : Forall trimmed (set_order (parties_set text))).
  { eapply Permutation_Forall; [symmetry; apply Hp|exact H2]. }
  split.
  - rewrite <- (firstn_skipn 10) in G1. now apply NoDup_app_remove_r in G1.
  - rewrite <- (firstn_skipn 10) in G2. apply Forall_app in G2. tauto.
Qed.

Lemma extract_parties_distinct_witness :
  NoDup (extract_parties (fun l => l) Samples.twelve_dons) /\
  Forall trimmed (extract_parties (fun l => l) Samples.twelve_dons).
Proof.
  apply (extract_parties_distinct (fun l => l) Samples.twelve_dons).
  intros l. reflexivity.
Defined.

End PartySet.

Section Properties.
Import AnalyzeDocs.

Lemma extractor_patterns_compile :
  forallb (fun p => negb (is_never p))
          (date_patterns ++ loc_patterns ++ [finca_pattern; hacienda_pattern]) = true.
Proof. vm_compute. reflexivity. Qed.

Lemma known_names_in (combined : str) (names : list str) :
  forall ps y,
    In y (fold_left (fun ps prop => if contains (lower prop) (lower combined)
                                    then set_add prop ps else ps) names ps)
    <-> In y ps \/ (In y names /\ mentions y combined = true).
Proof.
  induction names as [|n names IH]; intros ps y; cbn [fold_left In].
  - tauto.
  - rewrite IH. fold (mentions n combined).
    destruct (mentions n combined) eqn:E.
    + rewrite set_add_in. split.
      * intros [[->|H]|[H1 H2]]; auto.
      * intros [H|[[<-|H1] H2]]; auto.
    + split.
      * intros [H|[H1 H2]]; auto.
      * intros [H|[[<-|H1] H2]]; auto. congruence.
Qed.

Lemma add_estates_in (label : str) (matches : list str) :
  forall ps y,
    In y (add_estates label ps matches)
    <-> In y ps \/ exists m, In m matches /\ 2 < length m /\ y = label ++ m.
Proof.
  unfold add_estates.
  induction matches as [|m matches IH]; intros ps y; cbn [fold_left In].
  - split; [auto|]. intros [H|[m [[] _]]]. exact H.
  - rewrite IH. destruct (2 <? length m) eqn:E.
    + apply Nat.ltb_lt in E. rewrite set_add_in. split.
      * intros [[->|H]|[m' [H1 H2]]]; eauto 6.
      * intros [H|[m' [[<-|H1] [H2 ->]]]]; eauto 6.
    + apply Nat.ltb_ge in E. split.
      * intros [H|[m' [H1 H2]]]; eauto 6.
      * intros [H|[m' [[<-|H1] [H2 ->]]]]; eauto 6. lia.
Qed.

Lemma add_estates_nodup (label : str) (matches : list str) :
  forall ps, NoDup ps -> NoDup (add_estates label ps matches).
Proof.
  unfold add_estates. apply fold_left_invariant.
  intros ps m H. destruct (2 <? length m); [now apply set_add_nodup|exact H].
Qed.

Lemma properties_set_in (text filename y : str) :
  In y (properties_set text filename) <->
  (In y KNOWN_PROPERTIES /\ mentions y (filename ++ u " " ++ text) = true)
  \/ (exists m, In m (re_findall finca_pattern text) /\ 2 < length m /\ y = u "Finca " ++ m)
  \/ (exists m, In m (re_findall hacienda_pattern text) /\ 2 < length m
                /\ y = u "Hacienda " ++ m).
Proof.
  unfold properties_set. rewrite !add_estates_in, known_names_in. cbn [In]. tauto.
Qed.

Lemma properties_set_nodup (text filename : str) : NoDup (properties_set text filename).
Proof.
  unfold properties_set. apply add_estates_nodup, add_estates_nodup.
  apply fold_left_invariant; [|constructor].
  intros ps prop H. destruct (contains _ _); [now apply set_add_nodup|exact H].
Qed.

(** X13.  The properties returned are pairwise different.  They
    are the known property names that occur, in any case, in the file
    name or the text, each in the spelling of the table, and "Finca X"
    or "Hacienda X" for every capitalised name X of more than two
    characters that the text introduces with that word. *)
Theorem extract_properties_spec (set_order : list str -> list str) (text filename : str) :
  (forall l, Permutation (set_order l) l) ->
  NoDup (extract_properties set_order text filename) /\
  forall y,
    In y (extract_properties set_order text filename) <->
    (In y KNOWN_PROPERTIES /\ mentions y (filename ++ u " " ++ text) = true)
    \/ (exists m, In m (re_findall finca_pattern text) /\ 2 < length m /\ y = u "Finca " ++ m)
    \/ (exists m, In m (re_findall hacienda_pattern text) /\ 2 < length m
                  /\ y = u "Hacienda " ++ m).
Proof.
  intros Hp. unfold extract_properties. split.
  - eapply Permutation_NoDup; [symmetry; apply Hp|apply properties_set_nodup].
  - intros y. rewrite <- properties_set_in. split; apply Permutation_in; [|symmetry]; apply Hp.
Qed.

Lemma extract_properties_spec_witness :
  NoDup (extract_properties (fun l => l) (u "la Finca Luz y Villa AURELIA") (u "x.pdf")) /\
  forall y,
    In y (extract_properties (fun l => l) (u "la Finca Luz y Villa AURELIA") (u "x.pdf")) <->
    (In y KNOWN_PROPERTIES
     /\ mentions y (u "x.pdf" ++ u " " ++ u "la Finca Luz y Villa AURELIA") = true)
    \/ (exists m, In m (re_findall finca_pattern (u "la Finca Luz y Villa AURELIA"))
                  /\ 2 < length m /\ y = u "Finca " ++ m)
    \/ (exists m, In m (re_findall hacienda_pattern (u "la Finca Luz y Villa AURELIA"))
                  /\ 2 < length m /\ y = u "Hacienda " ++ m).
Proof.
  apply (extract_properties_spec (fun l => l)). intros l. reflexivity.
Defined.

End Properties.

Section Analysis.
Import AnalyzeDocs.

(** X14.  In the analysis steps of [process_document_group], a
    document whose name or text holds "Villa Aurelia", "Hacienda
    Aguaras" or "Finca Aguaras", in any case, lists that estate among
    its properties and is rated HIGH or CRITICAL, whatever its type and
    its parties are. *)
Theorem analyse_target_estate
  (party_order property_order : list str -> list str) (doc_name cleaned_spanish estate : str) :
  (forall l, Permutation (property_order l) l) ->
  In estate target_estates ->
  mentions estate (doc_name ++ u " " ++ cleaned_spanish) = true ->
  In estate (properties (analyse party_order property_order doc_name cleaned_spanish)) /\
  (relevance_level (analyse party_order property_order doc_name cleaned_spanish) = u "CRITICAL"
   \/ relevance_level (analyse party_order property_order doc_name cleaned_spanish) = u "HIGH").
Proof.
  intros Hp He Hm. unfold analyse.
  destruct (classify_document doc_name cleaned_spanish) as [dt conf].
  set (ps := extract_parties party_order cleaned_spanish).
  set (props := extract_properties property_order cleaned_spanish doc_name).
  assert (Hin : In estate props).
  { unfold props, extract_properties.
    apply (Permutation_in _ (Permutation_sym (Hp _))).
    apply properties_set_in. left. split; [|exact Hm].
    unfold target_estates, KNOWN_PROPERTIES in *.
    cbn [map In] in He |- *. intuition. }
  assert (Hk : names_key_property props = true).
  { unfold names_key_property. apply existsb_exists. exists estate. split; [exact Hin|].
    unfold target_estates in He. cbn [map In] in He.
    destruct He as [<-|[<-|[<-|[]]]]; vm_compute; reflexivity. }
  pose proof (level_with_property dt ps props cleaned_spanish Hk) as Hl.
  destruct (assess_legal_relevance dt ps props cleaned_spanish) as [level reasons].
  cbn [properties relevance_level fst] in *. auto.
Qed.

Lemma analyse_target_estate_witness :
  In (u "Hacienda Aguaras")
     (properties (analyse (fun l => l) (fun l => l) (u "Plano.pdf")
                    (u "linderos de la hacienda AGUARAS"))) /\
  (relevance_level (analyse (fun l => l) (fun l => l) (u "Plano.pdf")
                      (u "linderos de la hacienda AGUARAS")) = u "CRITICAL"
   \/ relevance_level (analyse (fun l => l) (fun l => l) (u "Plano.pdf")
                         (u "linderos de la hacienda AGUARAS")) = u "HIGH").
Proof.
  apply (analyse_target_estate (fun l => l) (fun l => l) (u "Plano.pdf")
           (u "linderos de la hacienda AGUARAS") (u "Hacienda Aguaras")).
  - intros l. reflexivity.
  - vm_compute. auto.
  - vm_compute. reflexivity.
Defined.

End Analysis.

(* ================================================================= *)
(** ** Date and place *)

Section Metadata.
Import AnalyzeDocs.

(** X15.  The date is what the first date pattern that matches finds
    in the text, stripped; when no pattern matches it is "Unknown Date". *)
Theorem extract_metadata_date (text : str) :
  (Forall (fun pat => re_search pat text = None) date_patterns /\
   Date (extract_metadata text) = u "Unknown Date")
  \/
  exists before pat after found,
    date_patterns = before ++ pat :: after /\
    Forall (fun p => re_search p text = None) before /\
    found_by pat text = Some found /\
    Date (extract_metadata text) = found /\ trimmed found.
Proof.
  unfold extract_metadata. cbn [Date].
  change (find_date text) with (first_some (fun pat => found_by pat text) date_patterns).
  set (f := fun pat : pattern => found_by pat text).
  assert (Hf : forall pat, f pat = found_by pat text) by reflexivity.
  destruct (first_some f date_patterns) as [d|] eqn:E.
  - right. apply first_some_split in E. destruct E as [l1 [pat [l2 [Hl [Hp Hall]]]]].
    exists l1, pat, l2, d. split; [exact Hl|]. split; [|split; [|split]].
    + eapply Forall_impl; [|exact Hall]. intros p Hn. cbv beta in Hn. unfold f, found_by in Hn.
      now destruct (re_search p text).
    + now rewrite <- Hf.
    + reflexivity.
    + rewrite Hf in Hp. unfold found_by in Hp.
      destruct (re_search pat text); [|discriminate]. injection Hp as <-. apply strip_trimmed.
  - left. split; [|reflexivity]. apply first_some_all_none in E.
    eapply Forall_impl; [|exact E]. intros p Hn. cbv beta in Hn. unfold f, found_by in Hn.
    now destruct (re_search p text).
Qed.

(** X16.  The place is never one of the generic words "este",
    "esta", "el", "la", "los", "las", in any case.  It is what the first
    place pattern finds that is not such a word: a pattern whose
    leftmost match is generic is passed over, and the next pattern is
    tried.  When no pattern is left it is "Unknown Location". *)
Theorem extract_metadata_location (text : str) :
  is_generic (Location (extract_metadata text)) = false /\
  ((Forall (gives_no_place text) loc_patterns /\
    Location (extract_metadata text) = u "Unknown Location")
   \/
   exists before pat after,
     loc_patterns = before ++ pat :: after /\
     Forall (gives_no_place text) before /\
     found_by pat text = Some (Location (extract_metadata text)) /\
     trimmed (Location (extract_metadata text))).
Proof.
  unfold extract_metadata. cbn [Location]. unfold find_location.
  match goal with |- context [first_some ?g loc_patterns] => set (f := g) end.
  assert (Hf : forall pat,
             f pat = match found_by pat text with
                     | Some location => if is_generic location then None else Some location
                     | None => None
                     end).
  { intros pat. unfold f, found_by. now destruct (re_search pat text). }
  assert (Hnone : forall pat, f pat = None -> gives_no_place text pat).
  { intros pat Hn. cbv beta in Hn. rewrite Hf in Hn. unfold gives_no_place.
    destruct (found_by pat text) as [l|]; [|exact I].
    now destruct (is_generic l). }
  destruct (first_some f loc_patterns) as [l|] eqn:E.
  - apply first_some_split in E. destruct E as [l1 [pat [l2 [Hl [Hp Hall]]]]].
    rewrite Hf in Hp. destruct (found_by pat text) as [l'|] eqn:Efound; [|discriminate].
    destruct (is_generic l') eqn:Eg; [discriminate|]. injection Hp as ->.
    split; [exact Eg|]. right. exists l1, pat, l2. split; [exact Hl|]. split; [|split].
    + eapply Forall_impl; [|exact Hall]. exact Hnone.
    + exact Efound.
    + unfold found_by in Efound. destruct (re_search pat text); [|discriminate].
      injection Efound as <-. apply strip_trimmed.
  - split; [vm_compute; reflexivity|]. left. split; [|reflexivity].
    apply first_some_all_none in E. eapply Forall_impl; [|exact E]. exact Hnone.
Qed.

End Metadata.

(* ================================================================= *)
(** ** Chunked translation: coverage and failures *)

Section Coverage.
Import AnalyzeDocs.
Local Open Scope Z_scope.

Variable translator : translator_t.
Variable text : str.
Variables chunk_size overlap : Z.
Hypothesis overlap_nonneg : 0 <= overlap.
Hypothesis chunk_size_large : overlap + 200 <= chunk_size.

(** The chunks of a run from [start] lie inside the text and leave no
    offset from [start] on outside all of them. *)
Lemma chunk_loop_covers (fuel : nat) :
  forall start ts ws ts' ws',
    0 <= start ->
    chunk_loop fuel translator text chunk_size overlap start ts ws = Some (ts', ws') ->
    exists new,
      ws' = ws ++ new /\
      Forall (fun w => 0 <= fst w < snd w /\ snd w <= Z.of_nat (length text)) new /\
      forall i, start <= i < Z.of_nat (length text) ->
        exists w, In w new /\ fst w <= i < snd w.
Proof.
  induction fuel as [|fuel IH]; intros start ts ws ts' ws' H0 H; [discriminate|].
  cbn [chunk_loop] in H.
  destruct (start <? Z.of_nat (length text)) eqn:E.
  - apply Z.ltb_lt in E.
    pose proof (chunk_end_bounds text chunk_size overlap overlap_nonneg chunk_size_large
                  start (conj H0 E)) as [Hb _].
    pose proof (next_start_advances text chunk_size overlap overlap_nonneg chunk_size_large
                  start (conj H0 E)) as Hadv.
    assert (Hle : next_start text overlap start (chunk_end text chunk_size start)
                  <= chunk_end text chunk_size start).
    { unfold next_start. destruct (start =? 0); [lia|].
      destruct (chunk_end text chunk_size start <? Z.of_nat (length text)); lia. }
    apply IH in H; [|lia]. destruct H as [new [-> [Hall Hcov]]].
    exists ((start, chunk_end text chunk_size start) :: new).
    rewrite <- app_assoc. split; [reflexivity|]. split.
    + constructor; [cbn [fst snd]; lia|exact Hall].
    + intros i Hi.
      destruct (Z.lt_ge_cases i (chunk_end text chunk_size start)) as [Hlt|Hge].
      * exists (start, chunk_end text chunk_size start). split; [now left|cbn [fst snd]; lia].
      * destruct (Hcov i) as [w [Hw Hi']]; [lia|]. exists w. split; [now right|exact Hi'].
  - injection H as <- <-. apply Z.ltb_ge in E. exists []. rewrite app_nil_r.
    split; [reflexivity|]. split; [constructor|]. intros i Hi. lia.
Qed.

End Coverage.

Section ChunkedRuns.
Import AnalyzeDocs.
Local Open Scope Z_scope.

(** X17.  With [0 <= overlap] and [overlap + 200 <= chunk_size]
    the chunks of a run leave no character out: every chunk is a window
    of the text that is not empty, and every offset of the text lies in
    some chunk. *)
Theorem translate_in_chunks_covers_text
  (translator : translator_t) (text : str) (chunk_size overlap : Z) :
  0 <= overlap -> overlap + 200 <= chunk_size ->
  exists ws,
    (forall fuel, (length text < fuel)%nat ->
       chunk_windows fuel translator text chunk_size overlap = Some ws) /\
    Forall (fun w => 0 <= fst w < snd w /\ snd w <= Z.of_nat (length text)) ws /\
    forall i, 0 <= i < Z.of_nat (length text) ->
      exists w, In w ws /\ fst w <= i < snd w.
Proof.
  intros Ho Hc.
  destruct (chunk_loop_returns translator text chunk_size overlap Ho Hc
              (S (length text)) 0 [] []) as [[ts ws] Hr]; [lia | lia |].
  exists ws. split.
  - intros fuel Hf. unfold chunk_windows.
    replace fuel with (S (length text) + (fuel - S (length text)))%nat by lia.
    now rewrite (chunk_loop_more_fuel _ _ _ _ _ _ _ _ _ _ Hr).
  - destruct (chunk_loop_covers translator text chunk_size overlap Ho Hc _ _ _ _ _ _
                (Z.le_refl 0) Hr) as [new [Hws [Hall Hcov]]].
    cbn [app] in Hws. subst new. auto.
Qed.

Lemma translate_in_chunks_covers_text_witness :
  exists ws,
    (forall fuel, (length Samples.long_text < fuel)%nat ->
       chunk_windows fuel Samples.echo Samples.long_text 1200 100 = Some ws) /\
    Forall (fun w => 0 <= fst w < snd w /\ snd w <= Z.of_nat (length Samples.long_text)) ws /\
    forall i, 0 <= i < Z.of_nat (length Samples.long_text) ->
      exists w, In w ws /\ fst w <= i < snd w.
Proof.
  apply (translate_in_chunks_covers_text Samples.echo Samples.long_text 1200 100);
    vm_compute; congruence.
Defined.

End ChunkedRuns.

(* ================================================================= *)
(** ** Repetition suppressor: what is kept *)

Section KeptPrefix.
Import AnalyzeDocs.

Lemma prefix_of_refl (a : str) : prefix_of a a.
Proof. exists []. now rewrite app_nil_r. Qed.

Lemma prefix_of_trans (a b c : str) : prefix_of a b -> prefix_of b c -> prefix_of a c.
Proof. intros [x ->] [y ->]. exists (x ++ y). now rewrite app_assoc. Qed.

Lemma firstn_prefix (n : nat) (s : str) : prefix_of (firstn n s) s.
Proof. exists (skipn n s). symmetry. apply firstn_skipn. Qed.

Lemma slice_to_prefix (s : str) (b : Z) : prefix_of (slice_to s b) s.
Proof.
  unfold slice_to, slice.
  assert (H : norm_index (Z.of_nat (length s)) 0 = 0%Z).
  { unfold norm_index. cbn. lia. }
  rewrite H. cbn [Z.to_nat skipn]. apply firstn_prefix.
Qed.

Lemma join_firstn_prefix (sep : str) (n : nat) :
  forall l, prefix_of (join sep (firstn n l)) (join sep l).
Proof.
  induction n as [|n IH]; intros l.
  - cbn. now exists (join sep l).
  - destruct l as [|x l]; [apply prefix_of_refl|].
    cbn [firstn]. destruct (IH l) as [c Hc].
    destruct l as [|y l]; [destruct n; apply prefix_of_refl|].
    destruct n as [|n].
    + cbn. now exists (sep ++ join sep (y :: l)).
    + cbn [firstn] in *.
      change (join sep (x :: y :: firstn n l)) with (x ++ sep ++ join sep (y :: firstn n l)).
      change (join sep (x :: y :: l)) with (x ++ sep ++ join sep (y :: l)).
      rewrite Hc. exists c. now rewrite <- !app_assoc.
Qed.

Lemma truncate_words_prefix (words : list str) (first_pos phrase_len : nat) :
  exists body,
    truncate_words words first_pos phrase_len = body ++ MARKER /\
    prefix_of body (join (u " ") words).
Proof.
  unfold truncate_words.
  destruct (_ <? _)%Z; eexists; (split; [reflexivity|]).
  - eapply prefix_of_trans; [apply slice_to_prefix|apply join_firstn_prefix].
  - apply join_firstn_prefix.
Qed.

Lemma truncate_text_prefix (pattern_text : str) (start_pos : nat) :
  exists body,
    truncate_text pattern_text start_pos = body ++ MARKER /\
    prefix_of body pattern_text.
Proof.
  unfold truncate_text.
  destruct (_ <? _)%Z; eexists; (split; [reflexivity|]).
  - eapply prefix_of_trans; apply slice_to_prefix.
  - eapply prefix_of_trans; [apply rstrip_prefix|apply slice_to_prefix].
Qed.

(** X19.  A truncation only cuts the end off: what stands before
    the marker is a prefix of the words of the text joined by single
    blanks, and the text has at least 20 words.  Nothing is reordered,
    rewritten or taken out of the middle. *)
Theorem clean_translation_keeps_a_prefix (text : str) :
  clean_translation text = text \/
  exists body,
    clean_translation text = body ++ MARKER /\
    prefix_of body (join (u " ") (split text)) /\
    20 <= length (split text).
Proof.
  unfold clean_translation.
  destruct (length (split text) <? 20) eqn:E; [now left|].
  apply Nat.ltb_ge in E.
  destruct (method1 (split text)) as [r|] eqn:E1.
  - right. unfold method1 in E1. apply first_some_Some in E1.
    destruct E1 as [n [_ E1]]. unfold scan_phrases in E1. apply first_some_Some in E1.
    destruct E1 as [entry [_ E1]].
    destruct (phrase_fires _ _ entry) as [fp|]; [|discriminate].
    injection E1 as <-.
    destruct (truncate_words_prefix (split text) fp n) as [body [H1 H2]].
    exists body. auto.
  - destruct (method2 (split text)) as [r|] eqn:E2; [|now left].
    right. unfold method2 in E2. apply first_some_Some in E2.
    destruct E2 as [pat [_ E2]].
    destruct (re_search pat _) as [m|]; [|discriminate].
    destruct (_ <? _); [|discriminate]. injection E2 as <-.
    destruct (truncate_text_prefix (join (u " ") (split text)) (m_start m)) as [body [H1 H2]].
    exists body. auto.
Qed.

End KeptPrefix.

(* ================================================================= *)
(** ** Edit distance *)

Section EditDistance.
Import AnalyzeDocs.

Lemma edit_distance_nil_r (a : str) : edit_distance a [] = length a.
Proof. destruct a; reflexivity. Qed.

Lemma edit_distance_cons (x y : ascii) (a b : str) :
  edit_distance (x :: a) (y :: b)
  = min3 (edit_distance a (y :: b) + 1) (edit_distance (x :: a) b + 1)
         (edit_distance a b + (if Ascii.eqb x y then 0 else 1)).
Proof. reflexivity. Qed.

Lemma edits_refl (a : str) : edits 0 a a.
Proof. induction a; constructor; auto. Qed.

Lemma edits_from_nil (b : str) : edits (length b) [] b.
Proof. induction b; cbn; constructor; auto. Qed.

Lemma edits_to_nil (a : str) : edits (length a) a [].
Proof. induction a; cbn; constructor; auto. Qed.

Lemma edits_sym (n : nat) (a b : str) : edits n a b -> edits n b a.
Proof. induction 1; constructor; auto. Qed.

(** The recurrence counts the edits of a script... *)
Lemma edit_distance_edits (a : str) : forall b, edits (edit_distance a b) a b.
Proof.
  induction a as [|x a IHa]; intros b; [apply edits_from_nil|].
  induction b as [|y b IHb]; [apply edits_to_nil|].
  rewrite edit_distance_cons. unfold min3.
  destruct (Nat.min_spec (edit_distance a (y :: b) + 1)
              (Nat.min (edit_distance (x :: a) b + 1)
                 (edit_distance a b + (if Ascii.eqb x y then 0 else 1)))) as [[_ ->]|[_ ->]].
  - rewrite Nat.add_1_r. apply edits_delete. apply IHa.
  - destruct (Nat.min_spec (edit_distance (x :: a) b + 1)
                (edit_distance a b + (if Ascii.eqb x y then 0 else 1))) as [[_ ->]|[_ ->]].
    + rewrite Nat.add_1_r. apply edits_insert. exact IHb.
    + destruct (Ascii.eqb x y) eqn:E.
      * apply Ascii.eqb_eq in E. subst y. rewrite Nat.add_0_r. apply edits_keep. apply IHa.
      * rewrite Nat.add_1_r. apply edits_substitute. apply IHa.
Qed.

(** ... and no script has fewer. *)
Lemma edit_distance_least (n : nat) (a b : str) : edits n a b -> edit_distance a b <= n.
Proof.
  induction 1 as [|n x a b _ IH|n x y a b _ IH|n x a b _ IH|n y a b _ IH].
  - reflexivity.
  - rewrite edit_distance_cons, Ascii.eqb_refl. unfold min3. lia.
  - rewrite edit_distance_cons. unfold min3. destruct (Ascii.eqb x y); lia.
  - destruct b as [|y b].
    + rewrite edit_distance_nil_r in *. cbn. lia.
    + rewrite edit_distance_cons. unfold min3. lia.
  - destruct a as [|x a].
    + cbn in *. lia.
    + rewrite edit_distance_cons. unfold min3. lia.
Qed.

(** Edits at the end of the strings, and of the reversed strings. *)
Lemma edits_snoc_keep (n : nat) (a b : str) (x : ascii) :
  edits n a b -> edits n (a ++ [x]) (b ++ [x]).
Proof. induction 1; cbn; try (constructor; assumption). repeat constructor. Qed.

Lemma edits_snoc_substitute (n : nat) (a b : str) (x y : ascii) :
  edits n a b -> edits (S n) (a ++ [x]) (b ++ [y]).
Proof. induction 1; cbn; try (constructor; assumption). repeat constructor. Qed.

Lemma edits_snoc_delete (n : nat) (a b : str) (x : ascii) :
  edits n a b -> edits (S n) (a ++ [x]) b.
Proof. induction 1; cbn; try (constructor; assumption). repeat constructor. Qed.

Lemma edits_snoc_insert (n : nat) (a b : str) (y : ascii) :
  edits n a b -> edits (S n) a (b ++ [y]).
Proof. induction 1; cbn; try (constructor; assumption). repeat constructor. Qed.

Lemma edits_rev (n : nat) (a b : str) : edits n a b -> edits n (rev a) (rev b).
Proof.
  induction 1; cbn [rev].
  - constructor.
  - now apply edits_snoc_keep.
  - now apply edits_snoc_substitute.
  - now apply edits_snoc_delete.
  - now apply edits_snoc_insert.
Qed.

Lemma edit_distance_rev (a b : str) : edit_distance (rev a) (rev b) = edit_distance a b.
Proof.
  apply Nat.le_antisymm; apply edit_distance_least.
  - apply edits_rev. apply edit_distance_edits.
  - rewrite <- (rev_involutive a), <- (rev_involutive b) at 2.
    apply edits_rev. apply edit_distance_edits.
Qed.

Lemma edit_distance_sym (a b : str) : edit_distance a b = edit_distance b a.
Proof.
  apply Nat.le_antisymm; apply edit_distance_least; apply edits_sym, edit_distance_edits.
Qed.

Lemma edits_length (n : nat) (a b : str) :
  edits n a b -> length a <= length b + n /\ length b <= length a + n.
Proof. induction 1; cbn; lia. Qed.

Lemma edits_zero (n : nat) (a b : str) : edits n a b -> n = 0 -> a = b.
Proof. induction 1; intros E; try discriminate; [reflexivity|]. f_equal. auto. Qed.

Lemma edits_within_max (a : str) : forall b, edits (Nat.max (length a) (length b)) a b.
Proof.
  induction a as [|x a IH]; intros b.
  - cbn. apply edits_from_nil.
  - destruct b as [|y b].
    + cbn [length Nat.max]. apply (edits_to_nil (x :: a)).
    + cbn [length]. rewrite <- Nat.succ_max_distr. apply edits_substitute. apply IH.
Qed.

(** Edit scripts compose. *)
Lemma edits_trans (n : nat) (a b : str) :
  edits n a b -> forall m c, edits m b c -> exists k, k <= n + m /\ edits k a c.
Proof.
  induction 1 as [|n x a b H IH|n x y a b H IH|n x a b H IH|n y a b H IH]; intros m c Hbc.
  - exists m. split; [lia|exact Hbc].
  - remember (x :: b) as xb eqn:E. revert b H IH E.
    induction Hbc as [|m z b' c Hbc' _|m z w b' c Hbc' _|m z b' c Hbc' _|m w b' c Hbc' IHbc];
      intros b H IH E; try discriminate.
    + injection E as -> ->. destruct (IH _ _ Hbc') as [k [Hk He]].
      exists k. split; [lia|]. now constructor.
    + injection E as -> ->. destruct (IH _ _ Hbc') as [k [Hk He]].
      exists (S k). split; [lia|]. now constructor.
    + injection E as -> ->. destruct (IH _ _ Hbc') as [k [Hk He]].
      exists (S k). split; [lia|]. now constructor.
    + destruct (IHbc _ H IH E) as [k [Hk He]].
      exists (S k). split; [lia|]. now constructor.
  - remember (y :: b) as yb eqn:E. revert b H IH E.
    induction Hbc as [|m z b' c Hbc' _|m z w b' c Hbc' _|m z b' c Hbc' _|m w b' c Hbc' IHbc];
      intros b H IH E; try discriminate.
    + injection E as -> ->. destruct (IH _ _ Hbc') as [k [Hk He]].
      exists (S k). split; [lia|]. now constructor.
    + injection E as -> ->. destruct (IH _ _ Hbc') as [k [Hk He]].
      exists (S k). split; [lia|]. now constructor.
    + injection E as -> ->. destruct (IH _ _ Hbc') as [k [Hk He]].
      exists (S k). split; [lia|]. now constructor.
    + destruct (IHbc _ H IH E) as [k [Hk He]].
      exists (S k). split; [lia|]. now constructor.
  - destruct (IH _ _ Hbc) as [k [Hk He]]. exists (S k). split; [lia|]. now constructor.
  - remember (y :: b) as yb eqn:E. revert b H IH E.
    induction Hbc as [|m z b' c Hbc' _|m z w b' c Hbc' _|m z b' c Hbc' _|m w b' c Hbc' IHbc];
      intros b H IH E; try discriminate.
    + injection E as -> ->. destruct (IH _ _ Hbc') as [k [Hk He]].
      exists (S k). split; [lia|]. now constructor.
    + injection E as -> ->. destruct (IH _ _ Hbc') as [k [Hk He]].
      exists (S k). split; [lia|]. now constructor.
    + injection E as -> ->. destruct (IH _ _ Hbc') as [k [Hk He]].
      exists k. split; [lia|]. exact He.
    + destruct (IHbc _ H IH E) as [k [Hk He]].
      exists (S k). split; [lia|]. now constructor.
Qed.

(** *** The table of [levenshtein_distance] *)

Lemma nth_map_seq (f : nat -> nat) (k i d : nat) :
  i < k -> nth i (map f (seq 0 k)) d = f i.
Proof.
  intros H. rewrite (nth_indep _ d (f 0)) by now rewrite length_map, length_seq.
  rewrite map_nth, seq_nth by exact H. reflexivity.
Qed.

(** The inner loop fills a row from the row before it, given the
    recurrence between the two. *)
Lemma inner_loop (P C : nat -> nat) (c1 : ascii) (previous_row : list nat) :
  forall remaining j0 current_row,
    (forall j c2, nth_error remaining j = Some c2 ->
       C (j0 + j + 1) = min3 (P (j0 + j + 1) + 1) (C (j0 + j) + 1)
                             (P (j0 + j) + (if Ascii.eqb c1 c2 then 0 else 1))) ->
    previous_row = map P (seq 0 (j0 + length remaining + 1)) ->
    current_row = map C (seq 0 (j0 + 1)) ->
    fold_left (append_cell c1 previous_row)
              (combine (seq j0 (length remaining)) remaining) current_row
    = map C (seq 0 (j0 + length remaining + 1)).
Proof.
  induction remaining as [|c2 remaining IH]; intros j0 current_row Hrec Hprev Hcur.
  - cbn. rewrite Nat.add_0_r. exact Hcur.
  - cbn [length seq combine fold_left].
    rewrite (IH (S j0)).
    + f_equal. f_equal. cbn [length]. lia.
    + intros j c Hj. replace (S j0 + j) with (j0 + S j) by lia. now apply Hrec.
    + rewrite Hprev. f_equal. f_equal. cbn [length]. lia.
    + unfold append_cell. rewrite Hprev, Hcur.
      rewrite !nth_map_seq by (cbn [length]; lia).
      replace (S j0 + 1) with (S (j0 + 1)) by lia.
      rewrite seq_S, map_app. cbn [map Nat.add]. f_equal. f_equal.
      specialize (Hrec 0 c2 eq_refl). rewrite !Nat.add_0_r in Hrec.
      symmetry. exact Hrec.
Qed.

Lemma firstn_snoc (s : str) (j : nat) (c : ascii) :
  nth_error s j = Some c -> firstn (j + 1) s = firstn j s ++ [c].
Proof.
  revert j. induction s as [|d s IH]; intros [|j] H; try discriminate.
  - cbn in H. injection H as ->. reflexivity.
  - cbn in H. cbn [Nat.add firstn app]. f_equal. now apply IH.
Qed.

Lemma next_row_ideal (s2 p : str) (c1 : ascii) :
  next_row s2 (ideal_row s2 p) (length p, c1) = ideal_row s2 (p ++ [c1]).
Proof.
  unfold next_row, enumerate, ideal_row.
  rewrite (inner_loop (cell s2 p) (cell s2 (p ++ [c1])) c1 _ s2 0); try reflexivity.
  - intros j c2 Hj. cbn [Nat.add]. unfold cell.
    rewrite (firstn_snoc _ _ _ Hj), !rev_app_distr. cbn [rev app].
    apply edit_distance_cons.
  - cbn [Nat.add seq map]. unfold cell. cbn [firstn]. change (rev (@nil ascii)) with (@nil ascii).
    rewrite edit_distance_nil_r, length_rev, length_app. reflexivity.
Qed.

Lemma outer_loop (s2 : str) :
  forall remaining p,
    fold_left (next_row s2) (combine (seq (length p) (length remaining)) remaining)
              (ideal_row s2 p)
    = ideal_row s2 (p ++ remaining).
Proof.
  induction remaining as [|c1 remaining IH]; intros p.
  - cbn. now rewrite app_nil_r.
  - cbn [length seq combine fold_left]. rewrite next_row_ideal.
    replace (S (length p)) with (length (p ++ [c1])) by (rewrite length_app; cbn; lia).
    rewrite IH, <- app_assoc. reflexivity.
Qed.

Lemma first_row (s2 : str) : seq 0 (length s2 + 1) = ideal_row s2 [].
Proof.
  unfold ideal_row. rewrite <- (map_id (seq 0 (length s2 + 1))) at 1.
  apply map_ext_in. intros j Hj. apply in_seq in Hj.
  unfold cell. cbn [rev edit_distance]. rewrite length_rev, length_firstn. lia.
Qed.

Lemma final_row_ideal (s1 s2 : str) : final_row s1 s2 = ideal_row s2 s1.
Proof.
  unfold final_row, enumerate. rewrite first_row.
  exact (outer_loop s2 s1 []).
Qed.

(** Every row has one entry for every prefix of [s2], so every index
    that [append_cell] reads is inside its row. *)
Lemma row_lengths (s1 s2 : str) : length (final_row s1 s2) = length s2 + 1.
Proof.
  rewrite final_row_ideal. unfold ideal_row. now rewrite length_map, length_seq.
Qed.

Lemma levenshtein_ordered_spec (s1 s2 : str) :
  levenshtein_ordered s1 s2 = edit_distance s1 s2.
Proof.
  unfold levenshtein_ordered. destruct (length s2 =? 0) eqn:E.
  - apply Nat.eqb_eq in E. destruct s2; [|discriminate]. now rewrite edit_distance_nil_r.
  - rewrite final_row_ideal. unfold ideal_row.
    rewrite Nat.add_1_r, seq_S, map_app. cbn [map Nat.add]. rewrite last_last.
    unfold cell. rewrite firstn_all. apply edit_distance_rev.
Qed.

Lemma levenshtein_distance_spec (s1 s2 : str) :
  levenshtein_distance s1 s2 = edit_distance s1 s2.
Proof.
  unfold levenshtein_distance. destruct (length s1 <? length s2).
  - rewrite levenshtein_ordered_spec. apply edit_distance_sym.
  - apply levenshtein_ordered_spec.
Qed.

(** X20.  [levenshtein_distance(s1, s2)] is the least number of
    single-character insertions, deletions and substitutions that turn
    [s1] into [s2]: some script of that many edits does, and none of
    fewer. *)
Theorem levenshtein_distance_least_edits (s1 s2 : str) :
  edits (levenshtein_distance s1 s2) s1 s2 /\
  forall n, edits n s1 s2 -> levenshtein_distance s1 s2 <= n.
Proof.
  rewrite levenshtein_distance_spec. split.
  - apply edit_distance_edits.
  - intros n. apply edit_distance_least.
Qed.

(** X21.  The distance is a metric on strings: it is 0 exactly
    between equal strings, it is symmetric, and it satisfies the
    triangle inequality. *)
Theorem levenshtein_distance_metric (s1 s2 s3 : str) :
  (levenshtein_distance s1 s2 = 0 <-> s1 = s2) /\
  levenshtein_distance s1 s2 = levenshtein_distance s2 s1 /\
  levenshtein_distance s1 s3 <= levenshtein_distance s1 s2 + levenshtein_distance s2 s3.
Proof.
  rewrite !levenshtein_distance_spec. split; [|split].
  - split.
    + intros H. apply (edits_zero _ _ _ (edit_distance_edits s1 s2) H).
    + intros ->. pose proof (edit_distance_least _ _ _ (edits_refl s2)). lia.
  - apply edit_distance_sym.
  - destruct (edits_trans _ _ _ (edit_distance_edits s1 s2) _ _ (edit_distance_edits s2 s3))
      as [k [Hk He]].
    apply edit_distance_least in He. lia.
Qed.

(** X22.  The distance is at least the difference of the two
    lengths and at most the greater of them. *)
Theorem levenshtein_distance_bounds (s1 s2 : str) :
  Nat.max (length s1) (length s2) - Nat.min (length s1) (length s2)
  <= levenshtein_distance s1 s2 <= Nat.max (length s1) (length s2).
Proof.
  rewrite levenshtein_distance_spec. split.
  - pose proof (edits_length _ _ _ (edit_distance_edits s1 s2)). lia.
  - apply edit_distance_least. apply edits_within_max.
Qed.

(** X23.  The row-by-row table computes the usual recurrence: the
    distance to or from the empty string is the length of the other
    string, and for strings that start with [x] and [y] it is the least
    of the three distances after a deletion, an insertion, and a
    substitution that costs nothing when [x] is [y]. *)
Theorem levenshtein_distance_recurrence (x y : ascii) (a b : str) :
  levenshtein_distance [] b = length b /\
  levenshtein_distance a [] = length a /\
  levenshtein_distance (x :: a) (y :: b)
  = min3 (levenshtein_distance a (y :: b) + 1)
         (levenshtein_distance (x :: a) b + 1)
         (levenshtein_distance a b + (if Ascii.eqb x y then 0 else 1)).
Proof.
  rewrite !levenshtein_distance_spec. split; [reflexivity|]. split.
  - apply edit_distance_nil_r.
  - apply edit_distance_cons.
Qed.

End EditDistance.

(* ================================================================= *)
(** ** Filename normalizer and cleaner: what they leave alone *)

Section Shorter.

Lemma prefix_of_length (a b : str) : prefix_of a b -> length a <= length b.
Proof. intros [c ->]. rewrite length_app. lia. Qed.

Lemma remainder_refl (s : str) : remainder_of s s.
Proof. induction s; constructor; assumption. Qed.

Lemma remainder_trans (a b c : str) :
  remainder_of a b -> remainder_of b c -> remainder_of a c.
Proof.
  intros Hab Hbc. revert a Hab.
  induction Hbc as [|x b c Hbc IH|x b c Hbc IH]; intros a Hab.
  - exact Hab.
  - inversion Hab; subst; constructor; auto.
  - constructor. auto.
Qed.

Lemma remainder_nil_l (s : str) : remainder_of [] s.
Proof. induction s; constructor; assumption. Qed.

Lemma remainder_suffix (pre s : str) : remainder_of s (pre ++ s).
Proof. induction pre; cbn [app]; [apply remainder_refl|now constructor]. Qed.

Lemma remainder_prefix (a b : str) : prefix_of a b -> remainder_of a b.
Proof.
  intros [c ->]. induction a; cbn [app]; [apply remainder_nil_l|now constructor].
Qed.

Lemma remainder_length (a b : str) : remainder_of a b -> length a <= length b.
Proof. induction 1; cbn [length]; lia. Qed.

(** A substitution by the empty string only takes characters away. *)
Lemma sub_from_remainder (ic : bool) (r : regex) (whole : str) (s : str) :
  forall skip p i, remainder_of (sub_from ic r [] whole skip p s i) s.
Proof.
  induction s as [|c s IH]; intros skip p i.
  - destruct skip; cbn [sub_from]; [|constructor].
    destruct (match_at ic r p [] i); cbn; constructor.
  - destruct skip as [|skip]; cbn [sub_from].
    + destruct (match_at ic r p (c :: s) i) as [m|].
      * cbn [expand flat_map app]. destruct (m_end m =? i); constructor; apply IH.
      * constructor. apply IH.
    + constructor. apply IH.
Qed.

Lemma re_sub_erase_remainder (p : pattern) (s : str) : remainder_of (re_sub p "" s) s.
Proof.
  unfold re_sub, sub. change (template_of (u "")) with (@nil titem).
  apply sub_from_remainder.
Qed.

Lemma strip_remainder (s : str) : remainder_of (strip s) s.
Proof.
  unfold strip. apply (remainder_trans _ (lstrip s)).
  - apply remainder_prefix, rstrip_prefix.
  - destruct (lstrip_suffix s) as [pre H]. rewrite H at 2. apply remainder_suffix.
Qed.

Lemma extension_step_remainder (name : str) :
  remainder_of (if endswith (lower name) (u ".pdf") then slice_to name (-4) else name) name.
Proof.
  destruct (endswith _ _); [|apply remainder_refl]. apply remainder_prefix, slice_to_prefix.
Qed.

(** X24.  In both pipelines the normalizer only takes characters away:
    the base name of a file is the file name with some of its characters
    removed and the others left in their order, so it is never longer
    than the file name; and it neither starts nor ends with a whitespace
    character. *)
Theorem get_base_document_name_trimmed (filename : str) :
  (trimmed (AnalyzeDocs.get_base_document_name filename) /\
   remainder_of (AnalyzeDocs.get_base_document_name filename) filename /\
   length (AnalyzeDocs.get_base_document_name filename) <= length filename) /\
  (trimmed (AnalyzeDocsClaude.get_base_document_name filename) /\
   remainder_of (AnalyzeDocsClaude.get_base_document_name filename) filename /\
   length (AnalyzeDocsClaude.get_base_document_name filename) <= length filename).
Proof.
  assert (H1 : remainder_of (AnalyzeDocs.get_base_document_name filename) filename).
  { unfold AnalyzeDocs.get_base_document_name. cbv zeta.
    eapply remainder_trans; [apply strip_remainder|].
    do 2 (eapply remainder_trans; [apply re_sub_erase_remainder|]).
    apply extension_step_remainder. }
  assert (H2 : remainder_of (AnalyzeDocsClaude.get_base_document_name filename) filename).
  { unfold AnalyzeDocsClaude.get_base_document_name. cbv zeta.
    eapply remainder_trans; [apply strip_remainder|].
    do 3 (eapply remainder_trans; [apply re_sub_erase_remainder|]).
    apply extension_step_remainder. }
  split; (split; [apply strip_trimmed|split; [assumption|now apply remainder_length]]).
Qed.

End Shorter.

Section Untouched.
Import AnalyzeDocs.

Lemma not_found_keeps (p : pattern) (repl : string) (s : str) :
  not_found p s = true -> re_sub p repl s = s.
Proof.
  unfold not_found. intros H. apply re_sub_no_match.
  destruct (re_search p s); [discriminate|reflexivity].
Qed.

Lemma apply_fixes_not_found (fixes : list (string * string)) (s : str) :
  forallb (fun pr => not_found (compile_i (fst pr)) s) fixes = true ->
  apply_fixes fixes s = s.
Proof.
  intros H. apply apply_fixes_settled.
  rewrite forallb_forall in H |- *. intros pr Hpr. unfold rule_keeps.
  apply str_eqb_eq. apply not_found_keeps. now apply H.
Qed.

(** X27.  A text in which no rule of the cleaner finds its pattern
    is returned as it is, with or without the spelling pass. *)
Theorem clean_ocr_text_nothing_to_clean (text : str) (use_spellcheck : bool) :
  nothing_to_clean text = true -> clean_ocr_text text use_spellcheck = text.
Proof.
  unfold nothing_to_clean. intros H.
  apply andb_true_iff in H. destruct H as [H HV].
  rewrite forallb_app in H. apply andb_true_iff in H. destruct H as [H1 H2].
  unfold clean_ocr_text, spanish_spell_correct.
  rewrite (apply_fixes_not_found _ _ H1), (not_found_keeps _ _ _ HV).
  destruct use_spellcheck; [apply (apply_fixes_not_found _ _ H2)|reflexivity].
Qed.

Lemma clean_ocr_text_nothing_to_clean_witness :
  clean_ocr_text (u "Compraventa de un terreno en Holguín, año de 1933") true
  = u "Compraventa de un terreno en Holguín, año de 1933".
Proof.
  apply (clean_ocr_text_nothing_to_clean
           (u "Compraventa de un terreno en Holguín, año de 1933") true).
  vm_compute. reflexivity.
Defined.

End Untouched.

(* ================================================================= *)
(** ** Paths: joining and splitting *)

Section Paths.
Import PosixPath.

Lemma occurrences_app (c : ascii) (a b : str) :
  forall i, occurrences [c] (a ++ b) i = occurrences [c] a i ++ occurrences [c] b (length a + i).
Proof.
  induction a as [|x a IH]; intros i.
  - cbn [app length Nat.add]. reflexivity.
  - cbn [app occurrences startswith length]. rewrite IH, <- !app_assoc.
    replace (length a + S i) with (S (length a) + i) by lia.
    destruct a; reflexivity.
Qed.

Lemma occurrences_none (c : ascii) (f : str) :
  ~ In c f -> forall i, occurrences [c] f i = [].
Proof.
  induction f as [|x f IH]; intros Hn i; [reflexivity|].
  cbn [occurrences startswith].
  destruct (Ascii.eqb c x) eqn:E.
  - apply Ascii.eqb_eq in E. subst x. exfalso. apply Hn. now left.
  - cbn [andb app]. apply IH. intros H. apply Hn. now right.
Qed.

Lemma occurrences_bound (c : ascii) (s : str) :
  forall i o, In o (occurrences [c] s i) -> i <= o < i + length s.
Proof.
  induction s as [|x s IH]; intros i o H; [destruct H|].
  cbn [occurrences startswith] in H. apply in_app_or in H. destruct H as [H|H].
  - destruct (Ascii.eqb c x && true); [|destruct H]. destruct H as [<-|[]]. cbn. lia.
  - apply IH in H. cbn [length]. lia.
Qed.

Lemma rfind_all_no_slash (f : str) : slash_free f -> rfind_all f [slash] = (-1)%Z.
Proof.
  intros H. unfold rfind_all, rfind. now rewrite (occurrences_none _ _ H).
Qed.

Lemma rfind_all_last_slash (pre f : str) :
  slash_free f -> rfind_all (pre ++ [slash] ++ f) [slash] = Z.of_nat (length pre).
Proof.
  intros H. unfold rfind_all, rfind.
  set (s := pre ++ [slash] ++ f).
  set (keep := fun i : nat => _).
  assert (Hk : keep (length pre) = true).
  { unfold keep, norm_index, s. rewrite !length_app. cbn [length].
    change (0 <? 0)%Z with false. cbv iota.
    apply andb_true_iff. split; apply Z.leb_le.
    - lia.
    - destruct (Z.of_nat _ <? 0)%Z eqn:E; [apply Z.ltb_lt in E|]; cbn [length]; lia. }
  unfold s. rewrite !occurrences_app, (occurrences_none _ _ H), app_nil_r, filter_app, rev_app_distr.
  cbn [occurrences startswith]. rewrite Ascii.eqb_refl. cbn [andb app filter].
  rewrite Nat.add_0_r, Hk. reflexivity.
Qed.

Lemma root_prefix_shape (root : str) :
  root_prefix root = [] \/ exists pre, root_prefix root = pre ++ [slash].
Proof.
  unfold root_prefix. destruct root as [|c root]; [now left|]. right.
  destruct (endswith (c :: root) [slash]) eqn:E; [|now exists (c :: root)].
  unfold endswith in E.
  destruct (exists_last (l := c :: root)) as [pre [d Hd]]; [discriminate|].
  rewrite Hd in E |- *. rewrite rev_app_distr in E. cbn [rev app startswith] in E.
  apply andb_true_iff in E. destruct E as [E _]. apply Ascii.eqb_eq in E. subst d.
  now exists pre.
Qed.

Lemma join_root_prefix (root file : str) :
  slash_free file -> join root file = root_prefix root ++ file.
Proof.
  intros H. unfold join, root_prefix.
  destruct (startswith [slash] file) eqn:E.
  - exfalso. destruct file as [|c file]; [discriminate|]. cbn [startswith] in E.
    apply andb_true_iff in E. destruct E as [E _]. apply Ascii.eqb_eq in E.
    apply H. now left.
  - destruct root as [|c root]; [reflexivity|].
    destruct (endswith (c :: root) [slash]); [reflexivity|]. now rewrite <- app_assoc.
Qed.

Lemma after_last_slash_join (root file : str) :
  slash_free file ->
  after_last_slash (root_prefix root ++ file) = Z.of_nat (length (root_prefix root)).
Proof.
  intros H. unfold after_last_slash.
  destruct (root_prefix_shape root) as [->|[pre ->]].
  - cbn [app length]. now rewrite (rfind_all_no_slash _ H).
  - rewrite <- app_assoc, (rfind_all_last_slash pre file H), length_app. cbn [length]. lia.
Qed.

Lemma slice_prefix_part (a b : str) :
  slice (a ++ b) 0 (Z.of_nat (length a)) = a.
Proof.
  unfold slice, norm_index. rewrite length_app.
  destruct (0 <? 0)%Z eqn:E0; [discriminate|].
  destruct (Z.of_nat (length a) <? 0)%Z eqn:E; [apply Z.ltb_lt in E; lia|].
  replace (Z.min 0 _) with 0%Z by lia.
  replace (Z.to_nat (Z.min _ _ - 0)) with (length a) by lia.
  cbn [Z.to_nat skipn]. rewrite firstn_app, Nat.sub_diag, firstn_all. cbn. apply app_nil_r.
Qed.

Lemma slice_suffix_part (a b : str) :
  slice (a ++ b) (Z.of_nat (length a)) (Z.of_nat (length (a ++ b))) = b.
Proof.
  unfold slice, norm_index. rewrite length_app.
  destruct (Z.of_nat (length a) <? 0)%Z eqn:E; [apply Z.ltb_lt in E; lia|].
  destruct (Z.of_nat (length a + length b) <? 0)%Z eqn:E1; [apply Z.ltb_lt in E1; lia|].
  replace (Z.to_nat (Z.min (Z.of_nat (length a)) _)) with (length a) by lia.
  replace (Z.to_nat _) with (length b) by lia.
  rewrite skipn_app, skipn_all, Nat.sub_diag. cbn [skipn app]. apply firstn_all.
Qed.

(** A joined path splits back into its two parts. *)
Lemma basename_join (root file : str) :
  slash_free file -> basename (join root file) = file.
Proof.
  intros H. unfold basename. rewrite (join_root_prefix _ _ H), (after_last_slash_join _ _ H).
  apply slice_suffix_part.
Qed.

Lemma dirname_join (root file file' : str) :
  slash_free file -> slash_free file' ->
  dirname (join root file) = dirname (join root file').
Proof.
  intros H H'. unfold dirname, slice_to.
  rewrite (join_root_prefix _ _ H), (join_root_prefix _ _ H'),
          (after_last_slash_join _ _ H), (after_last_slash_join _ _ H'),
          !slice_prefix_part.
  reflexivity.
Qed.

End Paths.

(* ================================================================= *)
(** ** From discovery to grouping *)

Section OneScanOneGroup.
Import Grouping.

Lemma same_key_same_group (get_base_document_name : str -> str) (sort_key : str -> Z)
  (all_pdfs : list str) (p1 p2 : str) :
  In p1 all_pdfs -> In p2 all_pdfs ->
  key_of get_base_document_name p1 = key_of get_base_document_name p2 ->
  exists k ps,
    In (k, ps) (group_pages get_base_document_name sort_key all_pdfs) /\
    In p1 ps /\ In p2 ps.
Proof.
  intros H1 H2 Hk.
  exists (key_of get_base_document_name p1),
         (sort_by sort_key
            (filter (fun p => str_eqb (key_of get_base_document_name p)
                                      (key_of get_base_document_name p1)) all_pdfs)).
  split; [|split].
  - apply group_pages_entry. split; [now exists p1|reflexivity].
  - apply (Permutation_in _ (Permutation_sym (sort_by_perm sort_key _))).
    apply filter_In. split; [exact H1|apply str_eqb_refl].
  - apply (Permutation_in _ (Permutation_sym (sort_by_perm sort_key _))).
    apply filter_In. split; [exact H2|]. rewrite Hk. apply str_eqb_refl.
Qed.

Lemma key_of_join (get_base_document_name : str -> str) (root file file' : str) :
  slash_free file -> slash_free file' ->
  get_base_document_name file = get_base_document_name file' ->
  key_of get_base_document_name (PosixPath.join root file)
  = key_of get_base_document_name (PosixPath.join root file').
Proof.
  intros H H' Hb. unfold key_of.
  rewrite (basename_join _ _ H), (basename_join _ _ H'), Hb, (dirname_join root file file' H H').
  reflexivity.
Qed.

Lemma is_pdf_name_extension (x ext : str) : lower ext = u ".pdf" -> is_pdf_name (x ++ ext) = true.
Proof. apply endswith_extension. Qed.

(** X26.  From discovery to grouping: when a directory that is not
    skipped holds "X.pdf" and a page "X.Npdf.pdf" of the same scan, and
    both names hold a keyword of a pipeline, that pipeline files both
    paths in one group.  X is any name without a slash that does not
    itself end in a dotted page suffix; N is any run of digits. *)
Theorem pages_of_a_scan_share_a_group
  (walk : list (str * list str)) (root : str) (files : list str)
  (base digits suffix ext ext' : str) :
  let first_page := base ++ ext' in
  let other_page := base ++ u "." ++ digits ++ suffix ++ ext in
  In (root, files) walk -> skipped_root root = false ->
  In first_page files -> In other_page files ->
  slash_free first_page -> slash_free other_page ->
  digits <> [] -> all_decimal digits ->
  lower suffix = u "pdf" -> lower ext = u ".pdf" -> lower ext' = u ".pdf" ->
  re_sub (compile_i "\.\d+pdf$") "" base = base ->
  (names_keyword AnalyzeDocs.KEYWORDS first_page = true ->
   names_keyword AnalyzeDocs.KEYWORDS other_page = true ->
   exists k ps,
     In (k, ps) (AnalyzeDocs.find_and_group_files walk) /\
     In (PosixPath.join root first_page) ps /\ In (PosixPath.join root other_page) ps) /\
  (names_keyword AnalyzeDocsClaude.KEYWORDS first_page = true ->
   names_keyword AnalyzeDocsClaude.KEYWORDS other_page = true ->
   exists k ps,
     In (k, ps) (AnalyzeDocsClaude.find_and_group_files walk) /\
     In (PosixPath.join root first_page) ps /\ In (PosixPath.join root other_page) ps).
Proof.
  intros first_page other_page Hw Hs Hf1 Hf2 Hsl1 Hsl2 Hne Hdec Hl He He' Hplain.
  assert (Hpdf1 : is_pdf_name first_page = true) by now apply is_pdf_name_extension.
  assert (Hpdf2 : is_pdf_name other_page = true).
  { unfold other_page. rewrite !app_assoc. now apply is_pdf_name_extension. }
  pose proof (page_name_first_steps base digits suffix ext Hne Hdec Hl He) as Hother.
  pose proof (first_page_first_steps base ext' He' Hplain) as Hfirst.
  cbv zeta in Hother, Hfirst. fold first_page in Hfirst. fold other_page in Hother.
  split; intros Hk1 Hk2.
  - unfold AnalyzeDocs.find_and_group_files. apply same_key_same_group.
    + apply discover_spec. exists root, files, first_page. auto 10.
    + apply discover_spec. exists root, files, other_page. auto 10.
    + apply key_of_join; auto.
      unfold AnalyzeDocs.get_base_document_name. cbv zeta. now rewrite Hfirst, Hother.
  - unfold AnalyzeDocsClaude.find_and_group_files. apply same_key_same_group.
    + apply discover_spec. exists root, files, first_page. auto 10.
    + apply discover_spec. exists root, files, other_page. auto 10.
    + apply key_of_join; auto.
      unfold AnalyzeDocsClaude.get_base_document_name. cbv zeta. now rewrite Hfirst, Hother.
Qed.

End OneScanOneGroup.

Section OneScanOneGroupWitness.

Lemma pages_of_a_scan_share_a_group_witness :
  (exists k ps,
     In (k, ps) (AnalyzeDocs.find_and_group_files
                   [(u "/scans/deeds",
                     [u "Deed of sale.12PDF.pdf"; u "notes.txt"; u "Deed of sale.PDF"])]) /\
     In (PosixPath.join (u "/scans/deeds") (u "Deed of sale" ++ u ".PDF")) ps /\
     In (PosixPath.join (u "/scans/deeds")
           (u "Deed of sale" ++ u "." ++ u "12" ++ u "PDF" ++ u ".pdf")) ps) /\
  (exists k ps,
     In (k, ps) (AnalyzeDocsClaude.find_and_group_files
                   [(u "/scans/deeds",
                     [u "Deed of sale.12PDF.pdf"; u "notes.txt"; u "Deed of sale.PDF"])]) /\
     In (PosixPath.join (u "/scans/deeds") (u "Deed of sale" ++ u ".PDF")) ps /\
     In (PosixPath.join (u "/scans/deeds")
           (u "Deed of sale" ++ u "." ++ u "12" ++ u "PDF" ++ u ".pdf")) ps).
Proof.
  destruct (pages_of_a_scan_share_a_group
              [(u "/scans/deeds",
                [u "Deed of sale.12PDF.pdf"; u "notes.txt"; u "Deed of sale.PDF"])]
              (u "/scans/deeds")
              [u "Deed of sale.12PDF.pdf"; u "notes.txt"; u "Deed of sale.PDF"]
              (u "Deed of sale") (u "12") (u "PDF") (u ".pdf") (u ".PDF")) as [H1 H2];
    try (vm_compute; reflexivity).
  - now left.
  - vm_compute. auto.
  - vm_compute. auto.
  - vm_compute. intuition discriminate.
  - vm_compute. intuition discriminate.
  - discriminate.
  - repeat constructor.
  - split; [apply H1|apply H2]; vm_compute; reflexivity.
Defined.

End OneScanOneGroupWitness.

(* ================================================================= *)
(** ** Page grouper: the three pages of a scan *)

Section ScanOfThreePages.
Import Grouping Samples.

(** Three paths with one key and the ranks 0, 2 and 3, met in any order,
    are filed in one group, in the order of their ranks. *)
Lemma three_pages_one_group (get_base_document_name : str -> str) (sort_key : str -> Z)
  (p1 p2 p3 : str) (l : list str) :
  key_of get_base_document_name p2 = key_of get_base_document_name p1 ->
  key_of get_base_document_name p3 = key_of get_base_document_name p1 ->
  sort_key p1 = 0%Z -> sort_key p2 = 2%Z -> sort_key p3 = 3%Z ->
  In l [[p1; p2; p3]; [p1; p3; p2]; [p2; p1; p3]; [p2; p3; p1]; [p3; p1; p2]; [p3; p2; p1]] ->
  group_pages get_base_document_name sort_key l
  = [(key_of get_base_document_name p1, [p1; p2; p3])].
Proof.
  intros K2 K3 R1 R2 R3 Hl. rewrite group_pages_unfold. cbn [In] in Hl.
  repeat (destruct Hl as [<-|Hl];
          [repeat (progress (cbn [fold_left file_under append_to app map fst snd
                                  sort_by fold_right insert_by];
                             rewrite ?K2, ?K3, ?str_eqb_refl, ?R1, ?R2, ?R3;
                             cbv beta iota delta [Z.leb Z.compare Pos.compare Pos.compare_cont]));
           reflexivity|]).
  contradiction.
Qed.

Lemma names_keyword_app (keywords : list str) (x more : str) :
  names_keyword keywords x = true -> names_keyword keywords (x ++ more) = true.
Proof.
  unfold names_keyword. rewrite !existsb_exists. intros [k [Hk Hc]]. exists k.
  split; [exact Hk|]. unfold lower in *. rewrite map_app. now apply contains_app.
Qed.

(** Discovery in one directory that is not skipped keeps the PDF files
    that name a keyword, in the order of the listing. *)
Lemma discover_one_directory (keywords : list str) (root : str) (files : list str) :
  skipped_root root = false ->
  Forall (fun file => is_pdf_name file = true /\ names_keyword keywords file = true) files ->
  discover keywords [(root, files)] = map (PosixPath.join root) files.
Proof.
  intros Hs Hall. unfold discover. cbn [flat_map].
  unfold skipped_root in Hs. rewrite Hs, app_nil_r.
  induction Hall as [|file files [H1 H2] _ IH]; [reflexivity|].
  cbn [flat_map map]. unfold is_pdf_name in H1. unfold names_keyword in H2.
  rewrite H1, H2. cbn [andb app]. now rewrite IH.
Qed.

Lemma slash_free_app (a b : str) : slash_free a -> slash_free b -> slash_free (a ++ b).
Proof. unfold slash_free. intros Ha Hb H. apply in_app_or in H. tauto. Qed.

Lemma scan_pages_nodup (x : str) : NoDup (scan_pages x).
Proof.
  unfold scan_pages.
  repeat constructor; cbn [In]; intros H;
    repeat (destruct H as [H|H]; [apply app_inv_head in H; discriminate|]); exact H.
Qed.

Lemma dotted_page_number (x digits : str) :
  digits <> [] -> all_decimal digits ->
  dotted_page (x ++ u "." ++ digits ++ u "pdf.pdf") digits.
Proof.
  intros Hne Hdec. exists (x ++ u "."), (u "pdf.pdf"), [].
  split; [now rewrite <- !app_assoc, app_nil_r|].
  split; [|repeat split; auto; now left].
  intros pre1 d H. change (u ".") with ["."%char] in H.
  apply app_inj_tail in H. destruct H as [_ <-]. reflexivity.
Qed.

Lemma scan_pages_discovered (keywords : list str) (x : str) :
  names_keyword keywords x = true ->
  Forall (fun file => is_pdf_name file = true /\ names_keyword keywords file = true)
         (scan_pages x).
Proof.
  intros Hk. unfold scan_pages.
  repeat constructor; try (now apply names_keyword_app).
  - now apply is_pdf_name_extension.
  - change (u ".2pdf.pdf") with (u ".2pdf" ++ u ".pdf"). rewrite app_assoc.
    now apply is_pdf_name_extension.
  - change (u ".3pdf.pdf") with (u ".3pdf" ++ u ".pdf"). rewrite app_assoc.
    now apply is_pdf_name_extension.
Qed.

Lemma scan_pages_slash_free (x : str) :
  slash_free x -> Forall slash_free (scan_pages x).
Proof.
  intros Hx. unfold scan_pages.
  repeat constructor; apply slash_free_app; auto;
    unfold slash_free; cbn; intuition discriminate.
Qed.

(** The pages 2 and 3 of a scan get the base name of its base page. *)
Lemma scan_pages_share_a_key (get_base_document_name rest : str -> str) (root x : str) :
  (forall name,
     get_base_document_name name
     = rest (re_sub (compile_i "\.\d+pdf$") ""
               (if endswith (lower name) (u ".pdf") then slice_to name (-4) else name))) ->
  slash_free x -> re_sub (compile_i "\.\d+pdf$") "" x = x ->
  key_of get_base_document_name (PosixPath.join root (x ++ u ".2pdf.pdf"))
  = key_of get_base_document_name (PosixPath.join root (x ++ u ".pdf")) /\
  key_of get_base_document_name (PosixPath.join root (x ++ u ".3pdf.pdf"))
  = key_of get_base_document_name (PosixPath.join root (x ++ u ".pdf")).
Proof.
  intros Hsteps Hx Hplain.
  pose proof (scan_pages_slash_free x Hx) as Hsl. unfold scan_pages in Hsl.
  inversion Hsl as [|? ? S1 Hsl2]; subst. inversion Hsl2 as [|? ? S2 Hsl3]; subst.
  inversion Hsl3 as [|? ? S3 _]; subst.
  pose proof (first_page_first_steps x (u ".pdf") eq_refl Hplain) as H1. cbv zeta in H1.
  split; apply key_of_join; auto; rewrite !Hsteps, H1; f_equal.
  - apply (page_name_first_steps x (u "2") (u "pdf") (u ".pdf"));
      [discriminate|repeat constructor|reflexivity|reflexivity].
  - apply (page_name_first_steps x (u "3") (u "pdf") (u ".pdf"));
      [discriminate|repeat constructor|reflexivity|reflexivity].
Qed.

Lemma explicit_page_number_absent (filename : str) :
  (forall d, ~ dotted_page filename d) ->
  AnalyzeDocsClaude.explicit_page_number filename = None.
Proof.
  intros Hno.
  destruct (AnalyzeDocsClaude.explicit_page_number filename) as [n|] eqn:E; [|reflexivity].
  destruct (explicit_page_number_sound _ _ E) as [d [Hd _]]. now destruct (Hno d).
Qed.

Lemma spaced_series_number_absent (filename : str) :
  (forall d, ~ spaced_page filename d) ->
  AnalyzeDocsClaude.spaced_series_number filename = None.
Proof.
  intros Hno.
  destruct (AnalyzeDocsClaude.spaced_series_number filename) as [n|] eqn:E; [|reflexivity].
  destruct (spaced_series_number_sound _ _ E) as [d [Hd _]]. now destruct (Hno d).
Qed.

(** The rank of [analyze_docs_claude.py], by cases. *)
Lemma sort_key_cascade (path : str) :
  let filename := PosixPath.basename path in
  AnalyzeDocsClaude.sort_key path
  = match AnalyzeDocsClaude.explicit_page_number filename,
          AnalyzeDocsClaude.spaced_series_number filename with
    | Some n, _ => n
    | None, Some n => n
    | None, None =>
        if AnalyzeDocsClaude.matches_number_pattern filename then 999%Z else 0%Z
    end.
Proof.
  intros filename. unfold AnalyzeDocsClaude.sort_key. fold filename.
  destruct (AnalyzeDocsClaude.explicit_page_number filename); [reflexivity|].
  destruct (AnalyzeDocsClaude.spaced_series_number filename); [reflexivity|].
  destruct (AnalyzeDocsClaude.matches_number_pattern filename); reflexivity.
Qed.

Lemma sort_key_unnumbered (path : str) :
  (forall d, ~ dotted_page (PosixPath.basename path) d) ->
  (forall d, ~ spaced_page (PosixPath.basename path) d) ->
  AnalyzeDocsClaude.sort_key path = 0%Z.
Proof.
  intros Hno Hno'. rewrite sort_key_cascade. cbv zeta.
  rewrite (explicit_page_number_absent _ Hno), (spaced_series_number_absent _ Hno').
  destruct (AnalyzeDocsClaude.matches_number_pattern _) eqn:Em; [|reflexivity].
  destruct (number_pattern_extracts _ Em) as [H|H]; exfalso; apply H.
  - now apply explicit_page_number_absent.
  - now apply spaced_series_number_absent.
Qed.

Lemma scan_pages_ranks (root x : str) :
  slash_free x ->
  AnalyzeDocs.sort_key (PosixPath.join root (x ++ u ".2pdf.pdf")) = 2%Z /\
  AnalyzeDocs.sort_key (PosixPath.join root (x ++ u ".3pdf.pdf")) = 3%Z /\
  AnalyzeDocsClaude.sort_key (PosixPath.join root (x ++ u ".2pdf.pdf")) = 2%Z /\
  AnalyzeDocsClaude.sort_key (PosixPath.join root (x ++ u ".3pdf.pdf")) = 3%Z.
Proof.
  intros Hx.
  pose proof (scan_pages_slash_free x Hx) as Hsl. unfold scan_pages in Hsl.
  inversion Hsl as [|? ? S1 Hsl2]; subst. inversion Hsl2 as [|? ? S2 Hsl3]; subst.
  inversion Hsl3 as [|? ? S3 _]; subst.
  assert (D2 : dotted_page (x ++ u ".2pdf.pdf") (u "2")).
  { apply (dotted_page_number x (u "2")); [discriminate|repeat constructor]. }
  assert (D3 : dotted_page (x ++ u ".3pdf.pdf") (u "3")).
  { apply (dotted_page_number x (u "3")); [discriminate|repeat constructor]. }
  rewrite !sort_key_older, !sort_key_cascade. cbv zeta.
  rewrite !basename_join by assumption.
  rewrite (explicit_page_number_complete _ _ D2), (explicit_page_number_complete _ _ D3).
  repeat split; reflexivity.
Qed.

(** The whole of [find_and_group_files] on the three scans of "Doc":
    discovery keeps a file only if its name holds an allow-listed
    keyword, "Doc" holds none, and no group is made.  And the rank of a
    page of a spaced series: its number in [analyze_docs_claude.py], 0
    in [analyze_docs.py], whose [sort_key] has no search for it. *)
Lemma find_and_group_files_skips_doc_pages :
  AnalyzeDocs.find_and_group_files
    [(u "/scans/deeds", map u ["Doc.pdf"; "Doc.2pdf.pdf"; "Doc.3pdf.pdf"]%string)] = [] /\
  AnalyzeDocsClaude.find_and_group_files
    [(u "/scans/deeds", map u ["Doc.pdf"; "Doc.2pdf.pdf"; "Doc.3pdf.pdf"]%string)] = [] /\
  AnalyzeDocsClaude.sort_key (u "/scans/deeds/Sale 7.pdf") = 7%Z /\
  AnalyzeDocs.sort_key (u "/scans/deeds/Sale 7.pdf") = 0%Z.
Proof. repeat split; vm_compute; reflexivity. Qed.

(** C3, as the code has it.  [find_and_group_files] groups what its
    discovery keeps, the PDF files whose names hold a keyword.  Let X be
    a name that holds a keyword of the pipeline, has no slash, and is
    itself free of page numbers (X does not end in a dotted page suffix,
    and "X.pdf" is neither a dotted page nor a page of a spaced series).
    For the files "X.pdf", "X.2pdf.pdf" and "X.3pdf.pdf" of one
    directory that the walk does not skip, listed in any order, either
    pipeline returns exactly one group, keyed by directory and base name,
    with the three pages in the order base page, page 2, page 3.  The
    grouping step gives the same for the three scans of "Doc", which the
    discovery does not keep.

    The rank of a page in [analyze_docs_claude.py]: the number before a
    final "pdf.pdf" when the name has one; else the one or two digits
    between a whitespace character and a final ".pdf" when the name has
    them; else 0.  The code keeps 999 for a name that matches the number
    pattern while no search extracts a number; whenever that pattern
    matches, one of the two searches does extract one.  The rank in
    [analyze_docs.py]: the number before a final "pdf.pdf" when the name
    has one, 0 when the name has no number at all; its 999 is out of
    reach as well. *)
Theorem grouping_and_sort_rank :
  (forall root x l,
     skipped_root root = false -> slash_free x ->
     re_sub (compile_i "\.\d+pdf$") "" x = x ->
     (forall d, ~ dotted_page (x ++ u ".pdf") d) ->
     (forall d, ~ spaced_page (x ++ u ".pdf") d) ->
     Permutation (scan_pages x) l ->
     (names_keyword AnalyzeDocs.KEYWORDS x = true ->
      AnalyzeDocs.find_and_group_files [(root, l)]
      = [(key_of AnalyzeDocs.get_base_document_name (PosixPath.join root (x ++ u ".pdf")),
          map (PosixPath.join root) (scan_pages x))]) /\
     (names_keyword AnalyzeDocsClaude.KEYWORDS x = true ->
      AnalyzeDocsClaude.find_and_group_files [(root, l)]
      = [(key_of AnalyzeDocsClaude.get_base_document_name
            (PosixPath.join root (x ++ u ".pdf")),
          map (PosixPath.join root) (scan_pages x))])) /\
  (forall l, Permutation doc_pages l ->
     group_pages AnalyzeDocs.get_base_document_name AnalyzeDocs.sort_key l
       = [(u "/scans/deeds/Doc", doc_pages)] /\
     group_pages AnalyzeDocsClaude.get_base_document_name AnalyzeDocsClaude.sort_key l
       = [(u "/scans/deeds/Doc", doc_pages)]) /\
  forall path,
    let filename := PosixPath.basename path in
    let rank := AnalyzeDocsClaude.sort_key path in
    let older_rank := AnalyzeDocs.sort_key path in
    (forall digits, dotted_page filename digits ->
       rank = int digits /\ older_rank = int digits) /\
    ((forall d, ~ dotted_page filename d) ->
     forall digits, spaced_page filename digits -> rank = int digits) /\
    ((forall d, ~ dotted_page filename d) -> (forall d, ~ spaced_page filename d) ->
     rank = 0%Z /\ older_rank = 0%Z) /\
    rank = match AnalyzeDocsClaude.explicit_page_number filename,
               AnalyzeDocsClaude.spaced_series_number filename with
           | Some n, _ => n
           | None, Some n => n
           | None, None =>
               if AnalyzeDocsClaude.matches_number_pattern filename
               then 999%Z else 0%Z
           end /\
    (AnalyzeDocsClaude.matches_number_pattern filename = true ->
     AnalyzeDocsClaude.explicit_page_number filename <> None \/
     AnalyzeDocsClaude.spaced_series_number filename <> None) /\
    (re_search (compile_i "\d+pdf\.pdf$") filename <> None ->
     re_search (compile_i "\.?(\d+)pdf\.pdf$") filename <> None).
Proof.
  split; [|split].
  - intros root x l Hs Hx Hplain Hno Hno' Hp.
    pose proof (permutation_of_three _ _ _ _ (scan_pages_nodup x) Hp) as Hl.
    pose proof (scan_pages_slash_free x Hx) as Hsl. unfold scan_pages in Hsl.
    inversion Hsl as [|? ? S1 _]; subst.
    destruct (scan_pages_ranks root x Hx) as [R2 [R3 [R2' R3']]].
    assert (Hno1 : forall d, ~ dotted_page
                     (PosixPath.basename (PosixPath.join root (x ++ u ".pdf"))) d)
      by now rewrite basename_join.
    assert (Hl' : In (map (PosixPath.join root) l)
                     (map (map (PosixPath.join root))
                        [[x ++ u ".pdf"; x ++ u ".2pdf.pdf"; x ++ u ".3pdf.pdf"];
                         [x ++ u ".pdf"; x ++ u ".3pdf.pdf"; x ++ u ".2pdf.pdf"];
                         [x ++ u ".2pdf.pdf"; x ++ u ".pdf"; x ++ u ".3pdf.pdf"];
                         [x ++ u ".2pdf.pdf"; x ++ u ".3pdf.pdf"; x ++ u ".pdf"];
                         [x ++ u ".3pdf.pdf"; x ++ u ".pdf"; x ++ u ".2pdf.pdf"];
                         [x ++ u ".3pdf.pdf"; x ++ u ".2pdf.pdf"; x ++ u ".pdf"]]))
      by (apply in_map; exact Hl).
    cbn [map] in Hl'.
    split; intros Hk.
    + unfold AnalyzeDocs.find_and_group_files.
      rewrite discover_one_directory; auto.
      2:{ apply (Permutation_Forall Hp). now apply scan_pages_discovered. }
      destruct (scan_pages_share_a_key AnalyzeDocs.get_base_document_name
                  (fun name => strip (re_sub (compile_i "\d+pdf$") "" name))
                  root x (fun _ => eq_refl) Hx Hplain) as [K2 K3].
      apply three_pages_one_group; auto.
      rewrite sort_key_older. now rewrite explicit_page_number_absent.
    + unfold AnalyzeDocsClaude.find_and_group_files.
      rewrite discover_one_directory; auto.
      2:{ apply (Permutation_Forall Hp). now apply scan_pages_discovered. }
      destruct (scan_pages_share_a_key AnalyzeDocsClaude.get_base_document_name
                  (fun name => strip (re_sub (compile "\s+\d{1,2}$") ""
                                        (re_sub (compile_i "\d+pdf$") "" name)))
                  root x (fun _ => eq_refl) Hx Hplain) as [K2 K3].
      apply three_pages_one_group; auto.
      apply sort_key_unnumbered; [exact Hno1|now rewrite basename_join].
  - intros l Hp.
    apply (permutation_of_three _ _ _ _ doc_pages_nodup) in Hp.
    split; apply three_pages_one_group with (p1 := u "/scans/deeds/Doc.pdf")
                   (p2 := u "/scans/deeds/Doc.2pdf.pdf") (p3 := u "/scans/deeds/Doc.3pdf.pdf");
      try exact Hp; vm_compute; reflexivity.
  - intros path filename rank older_rank.
    pose proof (sort_key_cascade path) as Hcascade. cbv zeta in Hcascade.
    fold filename in Hcascade. fold rank in Hcascade.
    pose proof (sort_key_older path) as Holder. fold filename in Holder.
    fold older_rank in Holder.
    split; [|split; [|split; [|split; [|split]]]].
    + intros digits Hd. rewrite Hcascade, Holder.
      now rewrite (explicit_page_number_complete _ _ Hd).
    + intros Hno digits Hd. rewrite Hcascade, (explicit_page_number_absent _ Hno).
      now rewrite (spaced_series_number_complete _ _ Hd).
    + intros Hno Hno'. split; [now apply sort_key_unnumbered|].
      now rewrite Holder, (explicit_page_number_absent _ Hno).
    + exact Hcascade.
    + apply number_pattern_extracts.
    + intros H2 H1. unfold older_rank, AnalyzeDocs.sort_key in Holder. fold filename in Holder.
      unfold AnalyzeDocsClaude.explicit_page_number in Holder.
      rewrite H1 in Holder.
      destruct (re_search (compile_i "\d+pdf\.pdf$") filename); [discriminate|congruence].
Qed.

Lemma grouping_and_sort_rank_witness :
  AnalyzeDocs.find_and_group_files
    [(u "/scans/deeds", map u ["Deed.3pdf.pdf"; "Deed.2pdf.pdf"; "Deed.pdf"]%string)]
  = [(u "/scans/deeds/Deed",
      map u ["/scans/deeds/Deed.pdf"; "/scans/deeds/Deed.2pdf.pdf";
             "/scans/deeds/Deed.3pdf.pdf"]%string)] /\
  AnalyzeDocsClaude.sort_key (u "/scans/deeds/Doc.12pdf.pdf") = int (u "12") /\
  AnalyzeDocsClaude.sort_key (u "/scans/deeds/Parada 7.pdf") = int (u "7") /\
  AnalyzeDocsClaude.sort_key (u "/scans/deeds/Parada.pdf") = 0%Z.
Proof.
  destruct grouping_and_sort_rank as [Hscan [_ Hrank]].
  split; [|split; [|split]].
  - apply (proj1 (Hscan (u "/scans/deeds") (u "Deed") (rev (scan_pages (u "Deed")))
                    eq_refl ltac:(vm_compute; intuition discriminate) eq_refl
                    ltac:(intros d Hd; apply explicit_page_number_complete in Hd;
                          vm_compute in Hd; discriminate)
                    ltac:(intros d Hd; apply spaced_series_number_complete in Hd;
                          vm_compute in Hd; discriminate)
                    (Permutation_rev _))).
    vm_compute. reflexivity.
  - apply (proj1 (Hrank (u "/scans/deeds/Doc.12pdf.pdf"))).
    apply (dotted_page_number (u "Doc") (u "12")); [discriminate|repeat constructor].
  - apply (proj1 (proj2 (Hrank (u "/scans/deeds/Parada 7.pdf")))).
    + intros d Hd. apply explicit_page_number_complete in Hd.
      vm_compute in Hd. discriminate.
    + exists (u "Parada"), " "%char, (u ".pdf"), [].
      split; [vm_compute; reflexivity|].
      repeat split; try (cbn; lia); try (now left); repeat constructor.
  - apply (proj1 (proj2 (proj2 (Hrank (u "/scans/deeds/Parada.pdf"))))).
    + intros d Hd. apply explicit_page_number_complete in Hd.
      vm_compute in Hd. discriminate.
    + intros d Hd. apply spaced_series_number_complete in Hd.
      vm_compute in Hd. discriminate.
Defined.

End ScanOfThreePages.

(* ================================================================= *)
(** ** Filename normalizer: the spaced series *)

Section Stripping.

Lemma lstrip_spaces (w z : str) : all_space w -> lstrip (w ++ z) = lstrip z.
Proof.
  induction 1 as [|c w Hc _ IH]; [reflexivity|]. cbn [app lstrip]. now rewrite Hc.
Qed.

Lemma lstrip_app (x z : str) :
  lstrip (x ++ z) = match lstrip x with [] => lstrip z | _ => lstrip x ++ z end.
Proof.
  induction x as [|c x IH]; [reflexivity|]. cbn [app lstrip].
  destruct (isspace c); [exact IH|reflexivity].
Qed.

Lemma lstrip_all_space (w : str) : all_space w -> lstrip w = [].
Proof. intros H. rewrite <- (app_nil_r w). now rewrite lstrip_spaces. Qed.

Lemma rstrip_spaces (y w : str) : all_space w -> rstrip (y ++ w) = rstrip y.
Proof.
  intros H. unfold rstrip. rewrite rev_app_distr, lstrip_spaces; [reflexivity|].
  unfold all_space in *. rewrite Forall_forall in *. intros c Hc. apply H. now apply in_rev.
Qed.

Lemma strip_spaces (x w : str) : all_space w -> strip (x ++ w) = strip x.
Proof.
  intros H. unfold strip. rewrite lstrip_app.
  destruct (lstrip x) as [|c y] eqn:E.
  - now rewrite (lstrip_all_space _ H).
  - now apply rstrip_spaces.
Qed.

Lemma lstrip_spaces_split (s : str) : exists w, all_space w /\ s = w ++ lstrip s.
Proof.
  induction s as [|c s [w [Hw IH]]]; [exists []; split; [constructor|reflexivity]|].
  cbn [lstrip]. destruct (isspace c) eqn:E.
  - exists (c :: w). split; [now constructor|]. cbn. now f_equal.
  - exists []. split; [constructor|reflexivity].
Qed.

Lemma rstrip_spaces_split (s : str) : exists w, all_space w /\ s = rstrip s ++ w.
Proof.
  destruct (lstrip_spaces_split (rev s)) as [w [Hw H]].
  exists (rev w). split.
  - unfold all_space in *. rewrite Forall_forall in *. intros c Hc. apply Hw. now apply in_rev.
  - unfold rstrip. rewrite <- rev_app_distr, <- H. symmetry. apply rev_involutive.
Qed.

Lemma rstrip_keeps (y : str) (c : ascii) : isspace c = false -> rstrip (y ++ [c]) = y ++ [c].
Proof.
  intros H. unfold rstrip. rewrite rev_app_distr. cbn [rev app lstrip]. rewrite H.
  cbn [rev]. now rewrite rev_involutive.
Qed.

End Stripping.

Section SpacedSeries.

Ltac all_chars c := destruct c as [[] [] [] [] [] [] [] []].

Lemma bare_suffix_re_compiled :
  compile_i "\d+pdf$" = Pattern bare_suffix_re 0 true.
Proof. vm_compute. reflexivity. Qed.

Lemma spaced_suffix_re_compiled :
  compile "\s+\d{1,2}$" = Pattern spaced_suffix_re 0 false.
Proof. vm_compute. reflexivity. Qed.

Lemma digit_class_cs (c : ascii) : set_match false [CDigit] c = isdecimal c.
Proof. all_chars c; reflexivity. Qed.

Lemma space_class_cs (c : ascii) : set_match false [CSpace] c = isspace c.
Proof. all_chars c; reflexivity. Qed.

Lemma decimal_lower (c : ascii) : isdecimal c = true -> lower_char c = c.
Proof. all_chars c; intros H; try discriminate H; reflexivity. Qed.

(** A string that ends with a digit does not end with "pdf", in any
    case, before the end of the string or a final newline. *)
Lemma digit_is_no_pdf_suffix (x suffix tail y : str) (d : ascii) :
  x ++ suffix ++ tail = y ++ [d] -> isdecimal d = true ->
  lower suffix = u "pdf" -> at_end tail -> False.
Proof.
  intros E Hd Hl He.
  destruct He as [-> | ->].
  - rewrite app_nil_r in E.
    destruct (last_char_cases suffix) as [->|[s0 [c ->]]]; [discriminate|].
    rewrite app_assoc in E. apply app_inj_tail in E. destruct E as [_ ->].
    unfold lower in Hl. rewrite map_app in Hl. cbn [map] in Hl.
    rewrite (decimal_lower _ Hd) in Hl.
    change (u "pdf") with ([ "p"%char; "d"%char] ++ ["f"%char]) in Hl.
    apply app_inj_tail in Hl. destruct Hl as [_ ->]. discriminate.
  - rewrite !app_assoc in E. apply app_inj_tail in E. destruct E as [_ <-]. discriminate.
Qed.

Lemma no_dotted_suffix_after_digit (y : str) (d : ascii) :
  isdecimal d = true ->
  re_sub (compile_i "\.\d+pdf$") "" (y ++ [d]) = y ++ [d].
Proof.
  intros Hd. unfold re_sub. rewrite dotted_suffix_re_compiled. cbn [p_ic p_re].
  unfold sub. apply sub_from_no_match. intros pre1 suf1 E.
  destruct (match_at true dotted_suffix_re (prev_of None pre1) suf1 (length pre1 + 0))
    as [m|] eqn:Em; [|reflexivity].
  exfalso. destruct (match_at_sound true _ _ _ _ _ Em) as [st' [Hms _]].
  destruct (dotted_suffix_re_inv _ _ _ _ Hms) as [ds [sf [tl [-> [_ [_ [Hl [He _]]]]]]]].
  apply (digit_is_no_pdf_suffix (pre1 ++ "."%char :: ds) sf tl y d); auto.
  rewrite E, <- app_assoc. reflexivity.
Qed.

Lemma no_bare_suffix_after_digit (y : str) (d : ascii) :
  isdecimal d = true ->
  re_sub (compile_i "\d+pdf$") "" (y ++ [d]) = y ++ [d].
Proof.
  intros Hd. unfold re_sub. rewrite bare_suffix_re_compiled. cbn [p_ic p_re].
  unfold sub. apply sub_from_no_match. intros pre1 suf1 E.
  destruct (match_at true bare_suffix_re (prev_of None pre1) suf1 (length pre1 + 0))
    as [m|] eqn:Em; [|reflexivity].
  exfalso. destruct (match_at_sound true _ _ _ _ _ Em) as [st' [Hms _]].
  unfold bare_suffix_re in Hms. apply ms_cat_inv in Hms. destruct Hms as [st2 [Hdg Hs]].
  destruct (digits_then_suffix_inv _ _ _ _ _ _ Hdg (or_intror Hs))
    as [ds [sf [tl [Hr [_ [_ [_ [Hl [He _]]]]]]]]].
  cbn [Re.rest] in Hr. subst suf1.
  apply (digit_is_no_pdf_suffix (pre1 ++ ds) sf tl y d); auto.
  rewrite E, <- app_assoc. reflexivity.
Qed.

Lemma spaced_suffix_re_inv (p : option ascii) (s : str) (i : nat) (st' : mstate) :
  ms false spaced_suffix_re (MState p s i []) st' ->
  exists ws digits tail,
    s = ws ++ digits ++ tail /\ ws <> [] /\ all_space ws /\
    1 <= length digits <= 2 /\ all_decimal digits /\ at_end tail /\
    pos st' = length (ws ++ digits) + i.
Proof.
  intros H. unfold spaced_suffix_re in H.
  apply ms_cat_inv in H. destruct H as [st1 [Hws H]].
  apply ms_cat_inv in H. destruct H as [st2 [Hd He]].
  destruct (ms_rep_single_inv false (CharSet [CSpace]) (set_match false [CSpace]) eq_refl
              _ _ _ _ Hws) as [ws [rr [Hr [Hall [Hlo [_ ->]]]]]].
  cbn [Re.rest] in Hr. subst s.
  destruct (ms_rep_single_inv false (CharSet [CDigit]) (set_match false [CDigit]) eq_refl
              _ _ _ _ Hd) as [ds [rr' [Hr [Halld [Hlod [Hhid ->]]]]]].
  cbn [Re.rest after] in Hr. subst rr.
  apply ms_eos_inv in He. destruct He as [-> He]. cbn [Re.rest after] in He.
  exists ws, ds, rr'. split; [reflexivity|].
  split; [intros ->; cbn in Hlo; lia|].
  split; [eapply Forall_impl; [|exact Hall]; cbv beta; intros c; now rewrite space_class_cs|].
  split; [split; [exact Hlod|now apply Hhid]|].
  split; [eapply Forall_impl; [|exact Halld]; cbv beta; intros c; now rewrite digit_class_cs|].
  split; [exact He|]. cbn [pos after]. rewrite length_app. lia.
Qed.

Lemma spaced_suffix_re_intro (p : option ascii) (i : nat) (ws digits : str) :
  ws <> [] -> all_space ws -> 1 <= length digits <= 2 -> all_decimal digits ->
  exists st', ms false spaced_suffix_re (MState p (ws ++ digits) i []) st'.
Proof.
  intros Hne Hws Hlen Hdec.
  set (st := MState p (ws ++ digits) i []).
  set (st1 := after st ws digits (caps st)).
  set (st2 := after st1 digits [] (caps st1)).
  assert (H1 : ms false (Rep (CharSet [CSpace]) 1 None) st st1).
  { apply (ms_rep_single_intro false (CharSet [CSpace]) (set_match false [CSpace]) eq_refl);
      [reflexivity| | |discriminate].
    - eapply Forall_impl; [|exact Hws]. cbv beta. intros c. now rewrite space_class_cs.
    - destruct ws; [congruence|cbn; lia]. }
  assert (H2 : ms false (Rep (CharSet [CDigit]) 1 (Some 2)) st1 st2).
  { apply (ms_rep_single_intro false (CharSet [CDigit]) (set_match false [CDigit]) eq_refl).
    - cbn [Re.rest after st1]. now rewrite app_nil_r.
    - eapply Forall_impl; [|exact Hdec]. cbv beta. intros c. now rewrite digit_class_cs.
    - lia.
    - intros h Hh. injection Hh as <-. lia. }
  exists st2. unfold spaced_suffix_re.
  eapply ms_cat; [exact H1|]. eapply ms_cat; [exact H2|].
  apply ms_eos_intro. now left.
Qed.

(** The third substitution of the newer normalizer takes the number of
    a spaced series off, with the whitespace before it. *)
Lemma spaced_suffix_removed (core run digits : str) :
  (forall r c, core = r ++ [c] -> isspace c = false) ->
  run <> [] -> all_space run -> 1 <= length digits <= 2 -> all_decimal digits ->
  re_sub (compile "\s+\d{1,2}$") "" (core ++ run ++ digits) = core.
Proof.
  intros Hcore Hne Hrun Hlen Hdec.
  unfold re_sub. rewrite spaced_suffix_re_compiled. cbn [p_ic p_re].
  change (template_of (u "")) with (@nil titem). unfold sub.
  set (mid := run ++ digits).
  assert (Hdigit : exists y d, mid = y ++ [d] /\ isdecimal d = true).
  { destruct (last_char_cases digits) as [->|[d0 [d ->]]]; [cbn in Hlen; lia|].
    exists (run ++ d0), d. split; [unfold mid; now rewrite app_assoc|].
    unfold all_decimal in Hdec. rewrite Forall_forall in Hdec. apply Hdec.
    apply in_or_app. right. now left. }
  destruct Hdigit as [y [d [Hmid Hd]]].
  assert (Hmidne : mid <> []).
  { rewrite Hmid. destruct y; discriminate. }
  rewrite (sub_from_copy false spaced_suffix_re [] (core ++ mid) core mid None 0).
  - destruct (spaced_suffix_re_intro (prev_of None core) (length core + 0) run digits)
      as [st' Hst]; auto.
    fold mid in Hst.
    pose proof (match_at_complete false _ _ _ _ _ Hst) as Hsome.
    destruct (match_at false spaced_suffix_re (prev_of None core) mid (length core + 0))
      as [m|] eqn:Em; [|congruence].
    destruct (match_at_sound false _ _ _ _ _ Em) as [st2 [Hms2 ->]].
    destruct (spaced_suffix_re_inv _ _ _ _ Hms2)
      as [ws' [d' [tl' [E' [_ [_ [_ [_ [He' Hpos]]]]]]]]].
    assert (Htl : tl' = []).
    { destruct He' as [->| ->]; [reflexivity|]. exfalso.
      rewrite Hmid, !app_assoc in E'. apply app_inj_tail in E'. destruct E' as [_ ->].
      discriminate. }
    subst tl'. rewrite app_nil_r in E'.
    rewrite <- (app_nil_r mid) at 2.
    rewrite (sub_from_at_match false spaced_suffix_re [] (core ++ mid) mid [] _ _
               (Match (length core + 0) (pos st2) (caps st2))).
    + cbn [expand flat_map app sub_from].
      destruct (match_at false spaced_suffix_re (prev_of (prev_of None core) mid) []
                  (length mid + (length core + 0))) as [m'|] eqn:Em'.
      * exfalso. destruct (match_at_sound false _ _ _ _ _ Em') as [st3 [Hms3 _]].
        destruct (spaced_suffix_re_inv _ _ _ _ Hms3) as [w3 [d3 [t3 [Hnil [Hw3 _]]]]].
        destruct w3; [congruence|discriminate].
      * now rewrite app_nil_r.
    + rewrite app_nil_r. exact Em.
    + cbn [m_end]. rewrite Hpos, <- E'. reflexivity.
    + exact Hmidne.
  - intros pre1 suf1 E Hlt.
    destruct (match_at false spaced_suffix_re (prev_of None pre1) suf1 (length pre1 + 0))
      as [m|] eqn:Em; [|reflexivity].
    exfalso. destruct (match_at_sound false _ _ _ _ _ Em) as [st2 [Hms2 _]].
    destruct (spaced_suffix_re_inv _ _ _ _ Hms2)
      as [ws' [d' [tl' [-> [Hne' [Hws' [_ [Hdec' [He' _]]]]]]]]].
    assert (Htl : tl' = []).
    { destruct He' as [->| ->]; [reflexivity|]. exfalso.
      rewrite Hmid, !app_assoc in E. apply app_inj_tail in E. destruct E as [_ ->].
      discriminate. }
    subst tl'. rewrite app_nil_r in E.
    (* core = pre1 ++ rest1 with rest1 not empty *)
    apply app_eq_app in E. destruct E as [l [[Ec El]|[Ep El]]].
    + (* core = pre1 ++ l, ws' ++ d' = l ++ mid *)
      destruct (last_char_cases l) as [->|[l0 [c ->]]].
      { rewrite app_nil_r in Ec. subst pre1. lia. }
      assert (Hc : isspace c = false).
      { apply (Hcore (pre1 ++ l0) c). rewrite Ec. now rewrite app_assoc. }
      symmetry in El. unfold mid in El.
      apply app_eq_app in El. destruct El as [k [[Ew Ek]|[Ew Ek]]].
      * (* l0 ++ [c] = ws' ++ k, d' = k ++ run ++ digits *)
        destruct run as [|w run]; [congruence|].
        pose proof (Forall_inv Hrun) as Hw. cbv beta in Hw.
        assert (isdecimal w = true).
        { unfold all_decimal in Hdec'. rewrite Forall_forall in Hdec'. apply Hdec'.
          rewrite Ek. apply in_or_app. right. now left. }
        rewrite (space_not_decimal _ Hw) in H. discriminate.
      * (* ws' = (l0 ++ [c]) ++ k *)
        unfold all_space in Hws'. rewrite Forall_forall in Hws'.
        rewrite (Hws' c) in Hc; [discriminate|].
        rewrite Ew. apply in_or_app. left. apply in_or_app. right. now left.
    + (* pre1 = core ++ l: then length pre1 >= length core *)
      rewrite Ep, length_app in Hlt. lia.
Qed.

End SpacedSeries.

Section SpacedSeriesNames.

Lemma decimal_not_space (c : ascii) : isdecimal c = true -> isspace c = false.
Proof.
  intros H. destruct (isspace c) eqn:E; [|reflexivity].
  rewrite (space_not_decimal _ E) in H. discriminate.
Qed.

Lemma ends_with_digit (x digits : str) :
  digits <> [] -> all_decimal digits ->
  exists y d, x ++ digits = y ++ [d] /\ isdecimal d = true.
Proof.
  intros Hne Hdec. destruct (last_char_cases digits) as [->|[d0 [d ->]]]; [congruence|].
  exists (x ++ d0), d. split; [now rewrite app_assoc|].
  unfold all_decimal in Hdec. rewrite Forall_forall in Hdec. apply Hdec.
  apply in_or_app. right. now left.
Qed.

(** The number of a spaced series survives stripping. *)
Lemma strip_with_number (base ws digits : str) :
  digits <> [] -> all_decimal digits ->
  length (strip base) < length (strip (base ++ ws ++ digits)).
Proof.
  intros Hne Hdec. unfold strip at 2. rewrite lstrip_app.
  destruct (lstrip base) as [|c y] eqn:E.
  - unfold strip. rewrite E. cbn [rstrip rev lstrip length].
    destruct digits as [|d0 digits]; [congruence|].
    assert (Hd0 : isspace d0 = false).
    { apply decimal_not_space. now apply (Forall_inv Hdec). }
    destruct (lstrip_spaces_split (ws ++ d0 :: digits)) as [w [Hw Hs]].
    destruct (ends_with_digit [] (d0 :: digits)) as [z [d [Hz Hd]]]; [discriminate|exact Hdec|].
    cbn [app] in Hz.
    (* lstrip (ws ++ digits) ends with the last digit and is not empty *)
    assert (Hl : exists z', lstrip (ws ++ d0 :: digits) = z' ++ [d]).
    { destruct (last_char_cases (lstrip (ws ++ d0 :: digits))) as [En|[z' [d' Ez]]].
      - exfalso. rewrite En, app_nil_r in Hs.
        assert (Hin : In d0 w) by (rewrite <- Hs; apply in_or_app; right; now left).
        unfold all_space in Hw. rewrite Forall_forall in Hw.
        rewrite (Hw _ Hin) in Hd0. discriminate.
      - exists z'. rewrite Ez in Hs |- *. rewrite Hz in Hs.
        rewrite !app_assoc in Hs. apply app_inj_tail in Hs. destruct Hs as [_ ->]. reflexivity. }
    destruct Hl as [z' Hl]. rewrite Hl, (rstrip_keeps _ _ (decimal_not_space _ Hd)).
    rewrite length_app. cbn. lia.
  - destruct (ends_with_digit ((c :: y) ++ ws) digits Hne Hdec) as [z [d [Hz Hd]]].
    rewrite <- app_assoc in Hz. rewrite Hz, (rstrip_keeps _ _ (decimal_not_space _ Hd)), <- Hz.
    unfold strip. rewrite E.
    pose proof (prefix_of_length _ _ (rstrip_prefix (c :: y))).
    rewrite !length_app. destruct digits; [congruence|]. cbn [length] in *. lia.
Qed.

(** X25.  On a file "X N.pdf" of a spaced series (whitespace, one
    or two digits, the extension in any case) the normalizer of
    [analyze_docs_claude.py] returns X stripped, whatever X is, so all
    the files of a series get one base name; the normalizer of
    [analyze_docs.py] keeps the number, and so returns something else. *)
Theorem spaced_series_base_name (base ws digits ext : str) :
  ws <> [] -> all_space ws -> 1 <= length digits <= 2 -> all_decimal digits ->
  lower ext = u ".pdf" ->
  AnalyzeDocsClaude.get_base_document_name (base ++ ws ++ digits ++ ext) = strip base /\
  AnalyzeDocs.get_base_document_name (base ++ ws ++ digits ++ ext)
  = strip (base ++ ws ++ digits) /\
  strip (base ++ ws ++ digits) <> strip base.
Proof.
  intros Hne Hws Hlen Hdec He.
  assert (Hdne : digits <> []) by (intros ->; cbn in Hlen; lia).
  destruct (ends_with_digit (base ++ ws) digits Hdne Hdec) as [y [d [Hy Hd]]].
  rewrite <- app_assoc in Hy.
  unfold AnalyzeDocs.get_base_document_name, AnalyzeDocsClaude.get_base_document_name.
  cbv zeta.
  replace (base ++ ws ++ digits ++ ext) with ((base ++ ws ++ digits) ++ ext)
    by now rewrite <- !app_assoc.
  rewrite (extension_removed _ _ He), Hy.
  rewrite (no_dotted_suffix_after_digit y d Hd), (no_bare_suffix_after_digit y d Hd), <- Hy.
  split; [|split; [reflexivity|]].
  - destruct (rstrip_spaces_split (base ++ ws)) as [run [Hrun Hsplit]].
    assert (Hrne : run <> []).
    { intros ->. rewrite app_nil_r in Hsplit.
      destruct (last_char_cases ws) as [->|[w0 [w Ew]]]; [congruence|].
      assert (Hw : isspace w = true).
      { unfold all_space in Hws. rewrite Forall_forall in Hws. apply Hws.
        rewrite Ew. apply in_or_app. right. now left. }
      rewrite (rstrip_last (base ++ ws) (base ++ w0) w) in Hw; [discriminate|].
      rewrite <- Hsplit, Ew. now rewrite app_assoc. }
    rewrite app_assoc, Hsplit, <- app_assoc.
    rewrite (spaced_suffix_removed (rstrip (base ++ ws)) run digits); auto.
    + rewrite <- (strip_spaces (rstrip (base ++ ws)) run Hrun), <- Hsplit.
      now apply strip_spaces.
    + intros r c. apply rstrip_last.
  - pose proof (strip_with_number base ws digits Hdne Hdec) as Hlt.
    intros E. rewrite E in Hlt. lia.
Qed.

Lemma spaced_series_base_name_witness :
  AnalyzeDocsClaude.get_base_document_name (u "Parada" ++ u " " ++ u "12" ++ u ".PDF")
  = strip (u "Parada") /\
  AnalyzeDocs.get_base_document_name (u "Parada" ++ u " " ++ u "12" ++ u ".PDF")
  = strip (u "Parada" ++ u " " ++ u "12") /\
  strip (u "Parada" ++ u " " ++ u "12") <> strip (u "Parada").
Proof.
  apply (spaced_series_base_name (u "Parada") (u " ") (u "12") (u ".PDF")).
  - discriminate.
  - repeat constructor.
  - vm_compute. lia.
  - repeat constructor.
  - vm_compute. reflexivity.
Defined.

End SpacedSeriesNames.
